(** * Frame-tree orchestration and utility decorators of puppeteer-core

    A shallow embedding of
    - [packages/puppeteer-core/src/util/decorators.ts]
      ([moveable], [invokeAtMostOnceForArguments]), and
    - the CDP [FrameManager] (event handlers, swap protocol, recursive
      detach, execution contexts, isolated worlds), and
    - the parts of the CDP [Page] that are plain data handling (metrics
      object, screenshot type, exposed functions),
    together with the properties stated about them. *)

From stdpp Require Import gmap strings list pretty.
From Stdlib Require Import Ascii.

Set Default Proof Using "Type".
#[local] Set Warnings "-clear-no-such-hyp,-register-all".

(** JavaScript objects are compared by identity; an object is its address. *)
Definition obj := nat.

(* ===================================================================== *)
(** * util/decorators.ts *)
(* ===================================================================== *)

Module Decorators.

(** ** [invokeAtMostOnceForArguments] *)

(** [const cache = new WeakMap()] whose values are again WeakMaps: a trie
    keyed by argument identity. *)
Inductive WeakMapTrie : Type :=
  | TrieNode (entries : list (obj * WeakMapTrie)).

Definition entries (t : WeakMapTrie) : list (obj * WeakMapTrie) :=
  match t with TrieNode es => es end.

(** [WeakMap.prototype.get] *)
Fixpoint wm_get (es : list (obj * WeakMapTrie)) (k : obj) : option WeakMapTrie :=
  match es with
  | [] => None
  | (k', v) :: es' => if Nat.eqb k' k then Some v else wm_get es' k
  end.

(** [WeakMap.prototype.has] *)
Definition wm_has (es : list (obj * WeakMapTrie)) (k : obj) : bool :=
  match wm_get es k with Some _ => true | None => false end.

(** [WeakMap.prototype.set] *)
Fixpoint wm_set (es : list (obj * WeakMapTrie)) (k : obj) (v : WeakMapTrie)
  : list (obj * WeakMapTrie) :=
  match es with
  | [] => [(k, v)]
  | (k', v') :: es' =>
      if Nat.eqb k' k then (k', v) :: es' else (k', v') :: wm_set es' k v
  end.

(** The body of [for (const arg of args) { ... }]: returns the final value of
    [freshArguments] (started from [false]) and the cache as mutated by the
    loop.  [cacheIterator] is the node the recursion stands on. *)
Fixpoint walk (args : list obj) (cacheIterator : WeakMapTrie)
  : bool * WeakMapTrie :=
  match args with
  | [] => (false, cacheIterator)
  | arg :: rest =>
      let es := entries cacheIterator in
      match wm_get es arg with
      | Some sub =>
          (* cacheIterator.has(arg): descend *)
          let '(fresh, sub') := walk rest sub in
          (fresh, TrieNode (wm_set es arg sub'))
      | None =>
          (* freshArguments = true; cacheIterator.set(arg, new WeakMap()) *)
          let '(_, sub') := walk rest (TrieNode []) in
          (true, TrieNode (wm_set es arg sub'))
      end
  end.

(** The closure state of one decorated method. *)
Record MemoState : Type := mkMemo {
  cache : WeakMapTrie;
  cacheDepth : Z;
}.

(** [const cache = new WeakMap(); let cacheDepth = -1;] *)
Definition memo_init : MemoState := mkMemo (TrieNode []) (-1).

(** What one call of the decorated method does. *)
Inductive Outcome (R : Type) : Type :=
  | Threw (message : string)
  | ReturnedUndefined
  | Invoked (result : R).
Arguments Threw {R} message.
Arguments ReturnedUndefined {R}.
Arguments Invoked {R} result.

Definition wrong_arity_message : string :=
  "Memoized method was called with the wrong number of arguments".

Section Memo.
Context {R : Type}.
(** [target.call(this, ...args)]; [R] carries whatever the target does. *)
Variable target : list obj -> R.

Definition decorated (args : list obj) (st : MemoState)
  : Outcome R * MemoState :=
  let depth :=
    if (cacheDepth st =? -1)%Z then Z.of_nat (length args)
    else cacheDepth st in
  if negb (depth =? Z.of_nat (length args))%Z then
    (Threw wrong_arity_message, mkMemo (cache st) depth)
  else
    let '(freshArguments, cache') := walk args (cache st) in
    if negb freshArguments then (ReturnedUndefined, mkMemo cache' depth)
    else (Invoked (target args), mkMemo cache' depth).

(** A sequence of calls of the decorated method, in order. *)
Fixpoint run (calls : list (list obj)) (st : MemoState) : list (Outcome R) :=
  match calls with
  | [] => []
  | args :: calls' =>
      let '(o, st') := decorated args st in o :: run calls' st'
  end.

Definition list_obj_eqb (a b : list obj) : bool := bool_decide (a = b).

(** The behaviour in words: the arity is fixed by the first call; a call of
    another arity throws; a call of the right arity invokes the target iff
    its tuple is not empty and was not passed before. *)
Fixpoint described_from (arity : nat) (earlier : list (list obj))
    (calls : list (list obj)) : list (Outcome R) :=
  match calls with
  | [] => []
  | args :: calls' =>
      if negb (Nat.eqb (length args) arity) then
        Threw wrong_arity_message :: described_from arity earlier calls'
      else if existsb (list_obj_eqb args) earlier then
        ReturnedUndefined :: described_from arity (args :: earlier) calls'
      else
        match args with
        | [] => ReturnedUndefined
        | _ :: _ => Invoked (target args)
        end :: described_from arity (args :: earlier) calls'
  end.

Definition described (calls : list (list obj)) : list (Outcome R) :=
  match calls with
  | [] => []
  | first :: _ => described_from (length first) [] calls
  end.

(** The behaviour as first stated, with no special case for the empty
    tuple: every first occurrence of a tuple invokes the target. *)
Fixpoint claimed_from (arity : nat) (earlier : list (list obj))
    (calls : list (list obj)) : list (Outcome R) :=
  match calls with
  | [] => []
  | args :: calls' =>
      if negb (Nat.eqb (length args) arity) then
        Threw wrong_arity_message :: claimed_from arity earlier calls'
      else if existsb (list_obj_eqb args) earlier then
        ReturnedUndefined :: claimed_from arity (args :: earlier) calls'
      else
        Invoked (target args) :: claimed_from arity (args :: earlier) calls'
  end.

Definition claimed (calls : list (list obj)) : list (Outcome R) :=
  match calls with
  | [] => []
  | first :: _ => claimed_from (length first) [] calls
  end.
End Memo.

(** Number of times the target was invoked with [args] in a list of outcomes
    paired with their calls. *)
Definition is_invoked {R} (o : Outcome R) : bool :=
  match o with Invoked _ => true | _ => false end.

Fixpoint invocations_with {R} (args : list obj)
    (calls : list (list obj)) (outs : list (Outcome R)) : nat :=
  match calls, outs with
  | c :: calls', o :: outs' =>
      (if bool_decide (c = args) && is_invoked o then 1 else 0)
      + invocations_with args calls' outs'
  | _, _ => 0
  end.

(** Whether the chain of keys [path] exists in the trie. *)
Fixpoint mem (path : list obj) (t : WeakMapTrie) : bool :=
  match path with
  | [] => true
  | k :: rest =>
      match wm_get (entries t) k with
      | Some sub => mem rest sub
      | None => false
      end
  end.

Fixpoint prefix_b (p args : list obj) : bool :=
  match p, args with
  | [], _ => true
  | k :: p', a :: args' => Nat.eqb k a && prefix_b p' args'
  | _ :: _, [] => false
  end.

(** The cache holds exactly the tuples passed so far (and the empty path). *)
Definition cache_holds (d : nat) (earlier : list (list obj))
    (st : MemoState) : Prop :=
  cacheDepth st = Z.of_nat d /\
  forall p, length p = d ->
    mem p (cache st)
    = existsb (list_obj_eqb p) earlier || bool_decide (p = []).

(** ** [moveable] *)

(** Which of the two disposal methods the class prototype defines before it
    is decorated. *)
Record ClassProto : Type := mkProto {
  definesDispose : bool;        (* Class.prototype[Symbol.dispose] *)
  definesAsyncDispose : bool;   (* Class.prototype[Symbol.asyncDispose] *)
}.

(** A run of an original (undecorated) method body on an instance. *)
Inductive BodyRun : Type :=
  | DisposeBody (this : obj)
  | AsyncDisposeBody (this : obj).

(** The module-level [const instances = new WeakSet<object>()] and the
    original bodies run so far. *)
Record MoveState : Type := mkMove {
  instances : gset obj;
  bodies : list BodyRun;
}.

Definition move_init : MoveState := mkMove ∅ [].

(** The replacement installed for [Symbol.dispose] / [Symbol.asyncDispose]. *)
Definition wrapped (original : obj -> BodyRun) (this : obj) (st : MoveState)
  : MoveState :=
  if bool_decide (this ∈ instances st) then
    mkMove (instances st ∖ {[this]}) (bodies st)
  else
    mkMove (instances st) (bodies st ++ [original this]).

(** [Class.prototype.move] *)
Definition move_method (this : obj) (st : MoveState) : MoveState :=
  mkMove ({[this]} ∪ instances st) (bodies st).

(** The methods of the decorated class; [None] where the prototype has no
    such method. *)
Record Decorated : Type := mkDecorated {
  dispose : option (obj -> MoveState -> MoveState);
  asyncDispose : option (obj -> MoveState -> MoveState);
  move : option (obj -> MoveState -> MoveState);
}.

Definition moveable (Class : ClassProto) : Decorated :=
  let hasDispose := definesDispose Class || definesAsyncDispose Class in
  {| dispose :=
       if definesDispose Class then Some (wrapped DisposeBody) else None;
     asyncDispose :=
       if definesAsyncDispose Class then Some (wrapped AsyncDisposeBody)
       else None;
     move := if hasDispose then Some move_method else None |}.

(** Method calls on instances of one decorated class. *)
Inductive MethodCall : Type :=
  | CallMove (this : obj)
  | CallDispose (this : obj)
  | CallAsyncDispose (this : obj).

Definition receiver (c : MethodCall) : obj :=
  match c with CallMove o | CallDispose o | CallAsyncDispose o => o end.

Definition is_move_of (o : obj) (c : MethodCall) : bool :=
  match c with CallMove o' => Nat.eqb o' o | _ => false end.

(** Calling a method the prototype lacks is a TypeError: [None]. *)
Definition call (D : Decorated) (c : MethodCall) (st : MoveState)
  : option MoveState :=
  match c with
  | CallMove o => (λ m, m o st) <$> move D
  | CallDispose o => (λ m, m o st) <$> dispose D
  | CallAsyncDispose o => (λ m, m o st) <$> asyncDispose D
  end.

Fixpoint calls (D : Decorated) (cs : list MethodCall) (st : MoveState)
  : option MoveState :=
  match cs with
  | [] => Some st
  | c :: cs' =>
      match call D c st with
      | Some st' => calls D cs' st'
      | None => None
      end
  end.

(** Whether the undecorated prototype lets the call through: the disposal
    method is defined, or, for [move], the decorator installed it. *)
Definition defines (Class : ClassProto) (c : MethodCall) : bool :=
  match c with
  | CallMove _ => definesDispose Class || definesAsyncDispose Class
  | CallDispose _ => definesDispose Class
  | CallAsyncDispose _ => definesAsyncDispose Class
  end.

(** The original body a disposal call stands for. *)
Definition body_of (c : MethodCall) : option BodyRun :=
  match c with
  | CallMove _ => None
  | CallDispose o => Some (DisposeBody o)
  | CallAsyncDispose o => Some (AsyncDisposeBody o)
  end.

(** The last call of [cs] made on the instance [o], if any. *)
Definition last_call_on (o : obj) (cs : list MethodCall) : option MethodCall :=
  last (filter (fun c => receiver c = o) cs).

(** What a disposal call with original body [b] adds to the bodies run, when
    the calls [cs] came before it on a fresh module: nothing if the last
    call on its receiver was [move], the body otherwise. *)
Definition disposal_effect (cs : list MethodCall) (c : MethodCall)
    (b : BodyRun) : list BodyRun :=
  match last_call_on (receiver c) cs with
  | Some (CallMove _) => []
  | _ => [b]
  end.

End Decorators.

(* ===================================================================== *)
(** * cdp/FrameManager.ts *)
(* ===================================================================== *)

Module Cdp.

(** ** Protocol payloads and sessions *)

(** A [CdpCDPSession]: [session.id()] and [session._target()._targetId].
    One session object exists per (id, target), so identity of sessions
    ([!==]) is equality of these records. *)
Record CDPSession : Type := mkSession {
  sessionId : string;
  _targetId : string;
}.

#[global] Instance CDPSession_eq_dec : EqDecision CDPSession.
Proof. solve_decision. Defined.

(** [Protocol.Page.Frame], the fields the manager reads. *)
Record FramePayload : Type := mkFramePayload {
  payload_id : string;
  payload_parentId : option string;
  payload_loaderId : string;
  payload_url : string;
}.

(** [Protocol.Page.FrameTree] *)
Inductive FrameTreePayload : Type :=
  | FrameTreeNode (frame : FramePayload) (childFrames : list FrameTreePayload).

Inductive NavigationType : Type := Navigation | BackForwardCacheRestore.

Inductive FrameDetachedEventReason : Type := remove | swap.

(** [Protocol.Runtime.ExecutionContextDescription] with its [auxData]. *)
Record AuxData : Type := mkAuxData {
  aux_frameId : option string;
  aux_isDefault : bool;
}.

Record ExecutionContextDescription : Type := mkContextPayload {
  context_id : Z;
  context_name : string;
  context_auxData : option AuxData;
}.

(** [Protocol.Page.LifecycleEventEvent] *)
Record LifecycleEventEvent : Type := mkLifecycleEvent {
  lifecycle_frameId : string;
  lifecycle_loaderId : string;
  lifecycle_name : string;
}.

(** JavaScript truthiness of an optional string: [undefined] and the empty
    string are falsy. *)
Definition truthy (s : option string) : bool :=
  match s with
  | None => false
  | Some s' => negb (String.eqb s' "")
  end.

(** ** Notifications *)

Module FrameManagerEvent.
Inductive t : Type :=
  | FrameAttached
  | FrameNavigated
  | FrameDetached
  | FrameSwapped
  | LifecycleEvent
  | FrameNavigatedWithinDocument.

Definition eqb (a b : t) : bool :=
  match a, b with
  | FrameAttached, FrameAttached | FrameNavigated, FrameNavigated
  | FrameDetached, FrameDetached | FrameSwapped, FrameSwapped
  | LifecycleEvent, LifecycleEvent
  | FrameNavigatedWithinDocument, FrameNavigatedWithinDocument => true
  | _, _ => false
  end.
End FrameManagerEvent.

Module FrameEvent.
Inductive t : Type :=
  | FrameNavigated (type : NavigationType)
  | FrameSwapped
  | LifecycleEvent
  | FrameNavigatedWithinDocument
  | FrameDetached
  | FrameSwappedByActivation.
End FrameEvent.

(** One [emit]: on the manager ([this.emit(event, frame)]) or on a Frame
    ([frame.emit(event, ...)]). *)
Inductive Notification : Type :=
  | ManagerEmit (event : FrameManagerEvent.t) (frame : obj)
  | FrameEmit (frame : obj) (event : FrameEvent.t).

(** Failures a wait can end with. *)
Inductive Failure : Type :=
  | TimeoutError (message : string)
  | TargetClosed.

Definition TIME_FOR_WAITING_FOR_SWAP : Z := 100. (* ms *)

(** Modelled from the spec: the reserved utility-world name
    [UTILITY_WORLD_NAME] of [common/util.ts], which is not among the
    sources.  Nothing below depends on its value. *)
Definition UTILITY_WORLD_NAME : string := "__puppeteer_utility_world__".

(** ** Worlds, frames, execution contexts *)

(** [MAIN_WORLD] and [PUPPETEER_WORLD] of [IsolatedWorlds.ts]. *)
Inductive WorldKey : Type := MAIN_WORLD | PUPPETEER_WORLD.

#[global] Instance WorldKey_eq_dec : EqDecision WorldKey.
Proof. solve_decision. Defined.

(** Modelled from the spec: [IsolatedWorld] ([IsolatedWorld.ts] is not among
    the sources).  A World exposes the current execution-context handle for
    its sandbox, if any. *)
Record IsolatedWorld : Type := mkWorld {
  context : option obj;
}.

Definition hasContext (w : IsolatedWorld) : bool :=
  match context w with Some _ => true | None => false end.
Definition setContext (c : obj) (w : IsolatedWorld) : IsolatedWorld :=
  mkWorld (Some c).
Definition clearContext (w : IsolatedWorld) : IsolatedWorld :=
  mkWorld None.

(** Modelled from the spec: the lifecycle flags of a Frame,
    {loading, DOMContentLoaded-fired, load-fired}. *)
Record Lifecycle : Type := mkLifecycle {
  loading : bool;
  domContentLoaded : bool;
  loadFired : bool;
}.

(** Modelled from the spec: [CdpFrame] ([cdp/Frame.ts] is not among the
    sources).  The fields are the attributes the spec lists for a Frame and
    the members the manager touches: [_id], [_parentId], [client], [worlds];
    [pendingWaits] are the Deferreds scoped to the frame. *)
Record CdpFrame : Type := mkFrame {
  _id : string;
  _parentId : option string;
  frame_client : CDPSession;
  _url : string;
  _loaderId : string;
  lifecycle : Lifecycle;
  detached : bool;
  mainRealm : IsolatedWorld;      (* worlds[MAIN_WORLD] *)
  isolatedRealm : IsolatedWorld;  (* worlds[PUPPETEER_WORLD] *)
  pendingWaits : list obj;
}.

Definition worlds (f : CdpFrame) (k : WorldKey) : IsolatedWorld :=
  match k with MAIN_WORLD => mainRealm f | PUPPETEER_WORLD => isolatedRealm f end.

(** [new CdpFrame(frameManager, frameId, parentFrameId, client)] *)
Definition new_CdpFrame (frameId : string) (parentFrameId : option string)
    (client : CDPSession) : CdpFrame :=
  {| _id := frameId; _parentId := parentFrameId; frame_client := client;
     _url := ""; _loaderId := "";
     lifecycle := mkLifecycle false false false; detached := false;
     mainRealm := mkWorld None; isolatedRealm := mkWorld None;
     pendingWaits := [] |}.

Definition set_world (k : WorldKey) (w : IsolatedWorld) (f : CdpFrame)
  : CdpFrame :=
  match k with
  | MAIN_WORLD =>
      mkFrame (_id f) (_parentId f) (frame_client f) (_url f) (_loaderId f)
        (lifecycle f) (detached f) w (isolatedRealm f) (pendingWaits f)
  | PUPPETEER_WORLD =>
      mkFrame (_id f) (_parentId f) (frame_client f) (_url f) (_loaderId f)
        (lifecycle f) (detached f) (mainRealm f) w (pendingWaits f)
  end.

(** [frame.updateId(id)] and the assignment [frame._id = id] *)
Definition updateId (id : string) (f : CdpFrame) : CdpFrame :=
  mkFrame id (_parentId f) (frame_client f) (_url f) (_loaderId f)
    (lifecycle f) (detached f) (mainRealm f) (isolatedRealm f)
    (pendingWaits f).

(** Modelled from the spec: [frame.updateClient(client, keepWorlds?)].  The
    spec gives rebinding no effect but the session binding itself, so the
    flag does not show in the result. *)
Definition updateClient (client : CDPSession) (keepWorlds : bool)
    (f : CdpFrame) : CdpFrame :=
  mkFrame (_id f) (_parentId f) client (_url f) (_loaderId f)
    (lifecycle f) (detached f) (mainRealm f) (isolatedRealm f)
    (pendingWaits f).

Definition set_lifecycle (l : Lifecycle) (f : CdpFrame) : CdpFrame :=
  mkFrame (_id f) (_parentId f) (frame_client f) (_url f) (_loaderId f)
    l (detached f) (mainRealm f) (isolatedRealm f) (pendingWaits f).

(** Modelled from the spec: [frame._onLifecycleEvent(loaderId, name)].  An
    event whose loader id is not the frame's current one is dropped;
    otherwise the flag the event names is raised. *)
Definition _onLifecycleEvent (loaderId name : string) (f : CdpFrame)
  : CdpFrame :=
  if negb (String.eqb loaderId (_loaderId f)) then f
  else if String.eqb name "DOMContentLoaded" then
    set_lifecycle (mkLifecycle (loading (lifecycle f)) true
                     (loadFired (lifecycle f))) f
  else if String.eqb name "load" then
    set_lifecycle (mkLifecycle (loading (lifecycle f))
                     (domContentLoaded (lifecycle f)) true) f
  else f.

(** Modelled from the spec: [frame._onLoadingStarted()] and
    [frame._onLoadingStopped()] drive the [loading] flag. *)
Definition _onLoadingStarted (f : CdpFrame) : CdpFrame :=
  set_lifecycle (mkLifecycle true (domContentLoaded (lifecycle f))
                   (loadFired (lifecycle f))) f.
Definition _onLoadingStopped (f : CdpFrame) : CdpFrame :=
  set_lifecycle (mkLifecycle false (domContentLoaded (lifecycle f))
                   (loadFired (lifecycle f))) f.

(** Modelled from the spec: [frame._navigatedWithinDocument(url)], a
    same-document navigation, updates the URL only. *)
Definition _navigatedWithinDocument (url : string) (f : CdpFrame) : CdpFrame :=
  mkFrame (_id f) (_parentId f) (frame_client f) url (_loaderId f)
    (lifecycle f) (detached f) (mainRealm f) (isolatedRealm f)
    (pendingWaits f).

(** Modelled from the spec: [frame._navigated(framePayload)].  The URL is
    updated; a new loader id re-enters [navigating] (the fired flags are
    reset) and resets the worlds. *)
Definition _navigated (p : FramePayload) (f : CdpFrame) : CdpFrame :=
  if String.eqb (payload_loaderId p) (_loaderId f) then
    mkFrame (_id f) (_parentId f) (frame_client f) (payload_url p)
      (_loaderId f) (lifecycle f) (detached f) (mainRealm f)
      (isolatedRealm f) (pendingWaits f)
  else
    mkFrame (_id f) (_parentId f) (frame_client f) (payload_url p)
      (payload_loaderId p)
      (mkLifecycle (loading (lifecycle f)) false false) (detached f)
      (clearContext (mainRealm f)) (clearContext (isolatedRealm f))
      (pendingWaits f).

(** Modelled from the spec: [frame[Symbol.dispose]()].  The frame becomes
    [detached], its worlds lose their contexts and the Deferreds scoped to it
    are handed back to be failed. *)
Definition dispose_frame (f : CdpFrame) : CdpFrame :=
  mkFrame (_id f) (_parentId f) (frame_client f) (_url f) (_loaderId f)
    (lifecycle f) true (clearContext (mainRealm f))
    (clearContext (isolatedRealm f)) [].

(** Modelled from the spec: a caller starts a wait scoped to the frame (a
    pending navigation wait, say); [d] is its Deferred. *)
Definition register_wait (d : obj) (f : CdpFrame) : CdpFrame :=
  mkFrame (_id f) (_parentId f) (frame_client f) (_url f) (_loaderId f)
    (lifecycle f) (detached f) (mainRealm f) (isolatedRealm f)
    (pendingWaits f ++ [d]).

(** An [ExecutionContext] with the members the manager reads: [_client],
    [_world] (a World is owned by its frame: the frame and the world key),
    and the payload's id and name. *)
Record ExecutionContext : Type := mkContext {
  _client : CDPSession;
  _contextId : Z;
  _contextName : string;
  _world : option (obj * WorldKey);
}.

(** ** The frame tree *)

(** JavaScript [Map<string, V>] in insertion order. *)
Fixpoint map_get {V} (l : list (string * V)) (k : string) : option V :=
  match l with
  | [] => None
  | (k', v) :: l' => if String.eqb k' k then Some v else map_get l' k
  end.

Fixpoint map_set {V} (l : list (string * V)) (k : string) (v : V)
  : list (string * V) :=
  match l with
  | [] => [(k, v)]
  | (k', v') :: l' =>
      if String.eqb k' k then (k', v) :: l' else (k', v') :: map_set l' k v
  end.

Definition map_delete {V} (l : list (string * V)) (k : string)
  : list (string * V) :=
  filter (fun e => negb (String.eqb (fst e) k)) l.

(** The continuation of a suspended [#onFrameNavigated]: the payload and the
    navigation type it resumes with. *)
Definition Waiter : Type := FramePayload * NavigationType.

(** Modelled from the spec: [FrameTree] ([cdp/FrameTree.ts] is not among the
    sources).  A keyed mapping from frame id to Frame, the one tracked root,
    and the pending-wait registry. *)
Record FrameTree : Type := mkTree {
  frames : list (string * obj);
  mainFrame : option obj;
  waitRequests : list (string * Waiter);
}.

Definition FrameTree_empty : FrameTree := mkTree [] None [].

Definition getMainFrame (t : FrameTree) : option obj := mainFrame t.

Definition getById (frameId : string) (t : FrameTree) : option obj :=
  map_get (frames t) frameId.

(** Modelled from the spec: [addFrame(frame)] inserts the frame under its id,
    tracks it as the root when it has no parent id and no root is tracked,
    and resolves the pending waits for its id (returned to the caller). *)
Definition addFrame (frame : obj) (f : CdpFrame) (t : FrameTree)
  : FrameTree * list Waiter :=
  let main :=
    match _parentId f, mainFrame t with
    | None, None => Some frame
    | _, main => main
    end in
  let resolved :=
    filter (fun w => String.eqb (fst w) (_id f)) (waitRequests t) in
  let pending :=
    filter (fun w => negb (String.eqb (fst w) (_id f))) (waitRequests t) in
  (mkTree (map_set (frames t) (_id f) frame) main pending, map snd resolved).

(** Modelled from the spec: [removeFrame(frame)] removes the frame and
    satisfies no pending waits. *)
Definition removeFrame (f : CdpFrame) (t : FrameTree) : FrameTree :=
  mkTree (map_delete (frames t) (_id f))
    (match _parentId f with None => None | Some _ => mainFrame t end)
    (waitRequests t).

(** Modelled from the spec: [waitForFrame(frameId)], satisfied immediately
    when the frame exists, registered otherwise. *)
Definition waitForFrame (frameId : string) (w : Waiter) (t : FrameTree)
  : option obj * FrameTree :=
  match getById frameId t with
  | Some frame => (Some frame, t)
  | None =>
      (None, mkTree (frames t) (mainFrame t) (waitRequests t ++ [(frameId, w)]))
  end.

(** Modelled from the spec: [childFrames(frameId)], the live Frames of the
    tree whose parent id is [frameId]. *)
Definition is_child_of (frameId : string) (f : CdpFrame) : bool :=
  match _parentId f with
  | Some p => String.eqb p frameId
  | None => false
  end.

Definition tree_childFrames (frameId : string) (heap : gmap obj CdpFrame)
    (t : FrameTree) : list obj :=
  omap (fun e : string * obj =>
          match heap !! e.2 with
          | Some f => if is_child_of frameId f then Some e.2 else None
          | None => None
          end) (frames t).

(** ** The manager *)

(** The private fields of [FrameManager] the handlers use, the heap of Frame
    and ExecutionContext objects (so that references are shared, not
    copied), and what the manager has done that others observe: the
    notifications emitted, the waits failed, the swap waits still pending
    with their deadlines, and the continuations queued as microtasks. *)
Record FrameManager : Type := mkManager {
  client : CDPSession;                          (* #client *)
  _frameTree : FrameTree;
  contextIdToContext : list (string * obj);     (* #contextIdToContext *)
  frameNavigatedReceived : gset string;         (* #frameNavigatedReceived *)
  frameObjs : gmap obj CdpFrame;
  contextObjs : gmap obj ExecutionContext;
  nextObj : obj;
  emitted : list Notification;
  failedWaits : list (obj * Failure);
  awaitingSwap : list (obj * Z);
  microtasks : list (obj * Waiter);
  now : Z;
}.

Definition set_client (c : CDPSession) (m : FrameManager) : FrameManager :=
  mkManager c (_frameTree m) (contextIdToContext m) (frameNavigatedReceived m)
    (frameObjs m) (contextObjs m) (nextObj m) (emitted m) (failedWaits m)
    (awaitingSwap m) (microtasks m) (now m).
Definition set_frameTree (t : FrameTree) (m : FrameManager) : FrameManager :=
  mkManager (client m) t (contextIdToContext m) (frameNavigatedReceived m)
    (frameObjs m) (contextObjs m) (nextObj m) (emitted m) (failedWaits m)
    (awaitingSwap m) (microtasks m) (now m).
Definition set_contextIdToContext (r : list (string * obj)) (m : FrameManager)
  : FrameManager :=
  mkManager (client m) (_frameTree m) r (frameNavigatedReceived m)
    (frameObjs m) (contextObjs m) (nextObj m) (emitted m) (failedWaits m)
    (awaitingSwap m) (microtasks m) (now m).
Definition set_frameNavigatedReceived (s : gset string) (m : FrameManager)
  : FrameManager :=
  mkManager (client m) (_frameTree m) (contextIdToContext m) s
    (frameObjs m) (contextObjs m) (nextObj m) (emitted m) (failedWaits m)
    (awaitingSwap m) (microtasks m) (now m).
Definition set_frameObjs (h : gmap obj CdpFrame) (m : FrameManager)
  : FrameManager :=
  mkManager (client m) (_frameTree m) (contextIdToContext m)
    (frameNavigatedReceived m) h (contextObjs m) (nextObj m) (emitted m)
    (failedWaits m) (awaitingSwap m) (microtasks m) (now m).
Definition set_contextObjs (h : gmap obj ExecutionContext) (m : FrameManager)
  : FrameManager :=
  mkManager (client m) (_frameTree m) (contextIdToContext m)
    (frameNavigatedReceived m) (frameObjs m) h (nextObj m) (emitted m)
    (failedWaits m) (awaitingSwap m) (microtasks m) (now m).
Definition set_nextObj (n : obj) (m : FrameManager) : FrameManager :=
  mkManager (client m) (_frameTree m) (contextIdToContext m)
    (frameNavigatedReceived m) (frameObjs m) (contextObjs m) n (emitted m)
    (failedWaits m) (awaitingSwap m) (microtasks m) (now m).
Definition set_emitted (e : list Notification) (m : FrameManager)
  : FrameManager :=
  mkManager (client m) (_frameTree m) (contextIdToContext m)
    (frameNavigatedReceived m) (frameObjs m) (contextObjs m) (nextObj m) e
    (failedWaits m) (awaitingSwap m) (microtasks m) (now m).
Definition set_failedWaits (w : list (obj * Failure)) (m : FrameManager)
  : FrameManager :=
  mkManager (client m) (_frameTree m) (contextIdToContext m)
    (frameNavigatedReceived m) (frameObjs m) (contextObjs m) (nextObj m)
    (emitted m) w (awaitingSwap m) (microtasks m) (now m).
Definition set_awaitingSwap (a : list (obj * Z)) (m : FrameManager)
  : FrameManager :=
  mkManager (client m) (_frameTree m) (contextIdToContext m)
    (frameNavigatedReceived m) (frameObjs m) (contextObjs m) (nextObj m)
    (emitted m) (failedWaits m) a (microtasks m) (now m).
Definition set_microtasks (q : list (obj * Waiter)) (m : FrameManager)
  : FrameManager :=
  mkManager (client m) (_frameTree m) (contextIdToContext m)
    (frameNavigatedReceived m) (frameObjs m) (contextObjs m) (nextObj m)
    (emitted m) (failedWaits m) (awaitingSwap m) q (now m).
Definition set_now (t : Z) (m : FrameManager) : FrameManager :=
  mkManager (client m) (_frameTree m) (contextIdToContext m)
    (frameNavigatedReceived m) (frameObjs m) (contextObjs m) (nextObj m)
    (emitted m) (failedWaits m) (awaitingSwap m) (microtasks m) t.

(** [new FrameManager(client, ...)] at time [t]. *)
Definition new_FrameManager (c : CDPSession) (t : Z) : FrameManager :=
  mkManager c FrameTree_empty [] ∅ ∅ ∅ 0 [] [] [] [] t.

(** [this.emit(...)] / [frame.emit(...)] *)
Definition emit (n : Notification) (m : FrameManager) : FrameManager :=
  set_emitted (emitted m ++ [n]) m.

(** In-place mutation of the Frame object at [frame]. *)
Definition update_frame (frame : obj) (g : CdpFrame -> CdpFrame)
    (m : FrameManager) : FrameManager :=
  set_frameObjs (alter g frame (frameObjs m)) m.

(** [new CdpFrame(...)] / [new ExecutionContext(...)]: a fresh address. *)
Definition alloc_frame (f : CdpFrame) (m : FrameManager) : FrameManager :=
  set_nextObj (S (nextObj m))
    (set_frameObjs (<[nextObj m := f]> (frameObjs m)) m).
Definition alloc_context (c : ExecutionContext) (m : FrameManager)
  : FrameManager :=
  set_nextObj (S (nextObj m))
    (set_contextObjs (<[nextObj m := c]> (contextObjs m)) m).

(** [frame(frameId)] *)
Definition frame (frameId : string) (m : FrameManager) : option obj :=
  getById frameId (_frameTree m).

(** Modelled from the spec: [frame.isOOPFrame()], an out-of-process frame is
    backed by a session of its own, not by the manager's. *)
Definition isOOPFrame (f : CdpFrame) (m : FrameManager) : bool :=
  negb (bool_decide (frame_client f = client m)).

(** [frame.childFrames()] *)
Definition frame_childFrames (frame : obj) (m : FrameManager) : list obj :=
  match frameObjs m !! frame with
  | Some f => tree_childFrames (_id f) (frameObjs m) (_frameTree m)
  | None => []
  end.

(** [this._frameTree.addFrame(frame)]; the continuations of the waits it
    resolves are queued as microtasks. *)
Definition tree_addFrame (frame : obj) (m : FrameManager) : FrameManager :=
  match frameObjs m !! frame with
  | Some f =>
      let '(t, resolved) := addFrame frame f (_frameTree m) in
      set_microtasks (microtasks m ++ map (pair frame) resolved)
        (set_frameTree t m)
  | None => m
  end.

(** [this._frameTree.removeFrame(frame)] *)
Definition tree_removeFrame (frame : obj) (m : FrameManager) : FrameManager :=
  match frameObjs m !! frame with
  | Some f => set_frameTree (removeFrame f (_frameTree m)) m
  | None => m
  end.

(** [frame[Symbol.dispose]()] *)
Definition frame_dispose (frame : obj) (m : FrameManager) : FrameManager :=
  match frameObjs m !! frame with
  | Some f =>
      set_failedWaits
        (failedWaits m ++ map (fun d => (d, TargetClosed)) (pendingWaits f))
        (set_frameObjs (<[frame := dispose_frame f]> (frameObjs m)) m)
  | None => m
  end.

(** [world.setContext(context)] and [world.clearContext()] on the World
    [(frame, key)]. *)
Definition world_setContext (w : obj * WorldKey) (c : obj) (m : FrameManager)
  : FrameManager :=
  update_frame w.1 (fun f => set_world w.2 (setContext c (worlds f w.2)) f) m.
Definition world_clearContext (w : obj * WorldKey) (m : FrameManager)
  : FrameManager :=
  update_frame w.1 (fun f => set_world w.2 (clearContext (worlds f w.2)) f) m.

(** A loop whose body may fail to return. *)
Fixpoint forEach {A S : Type} (body : A -> S -> option S) (l : list A) (s : S)
  : option S :=
  match l with
  | [] => Some s
  | a :: l' =>
      match body a s with
      | Some s' => forEach body l' s'
      | None => None
      end
  end.

(** [#removeFramesRecursively(frame)].  [stack] bounds the depth of the
    recursion; [None] is a recursion that does not return. *)
Fixpoint removeFramesRecursively (stack : nat) (frame : obj) (m : FrameManager)
  : option FrameManager :=
  match stack with
  | O => None
  | S stack' =>
      match forEach (removeFramesRecursively stack')
              (frame_childFrames frame m) m with
      | None => None
      | Some m1 =>
          let m2 := frame_dispose frame m1 in
          let m3 := tree_removeFrame frame m2 in
          let m4 := emit (ManagerEmit FrameManagerEvent.FrameDetached frame) m3 in
          Some (emit (FrameEmit frame FrameEvent.FrameDetached) m4)
      end
  end.

(** [#onLifecycleEvent(event)] *)
Definition onLifecycleEvent (event : LifecycleEventEvent) (m : FrameManager)
  : FrameManager :=
  match frame (lifecycle_frameId event) m with
  | None => m
  | Some fr =>
      let m1 := update_frame fr
                  (_onLifecycleEvent (lifecycle_loaderId event)
                     (lifecycle_name event)) m in
      let m2 := emit (ManagerEmit FrameManagerEvent.LifecycleEvent fr) m1 in
      emit (FrameEmit fr FrameEvent.LifecycleEvent) m2
  end.

(** [#onFrameStartedLoading(frameId)] *)
Definition onFrameStartedLoading (frameId : string) (m : FrameManager)
  : FrameManager :=
  match frame frameId m with
  | None => m
  | Some fr => update_frame fr _onLoadingStarted m
  end.

(** [#onFrameStoppedLoading(frameId)] *)
Definition onFrameStoppedLoading (frameId : string) (m : FrameManager)
  : FrameManager :=
  match frame frameId m with
  | None => m
  | Some fr =>
      let m1 := update_frame fr _onLoadingStopped m in
      let m2 := emit (ManagerEmit FrameManagerEvent.LifecycleEvent fr) m1 in
      emit (FrameEmit fr FrameEvent.LifecycleEvent) m2
  end.

(** [#onFrameAttached(session, frameId, parentFrameId)] *)
Definition onFrameAttached (session : CDPSession)
    (frameId parentFrameId : string) (m : FrameManager) : FrameManager :=
  match frame frameId m with
  | Some fr =>
      match frameObjs m !! fr with
      | Some f =>
          if isOOPFrame f m then update_frame fr (updateClient session false) m
          else m
      | None => m
      end
  | None =>
      let fr := nextObj m in
      let m1 := alloc_frame (new_CdpFrame frameId (Some parentFrameId) session) m in
      let m2 := tree_addFrame fr m1 in
      emit (ManagerEmit FrameManagerEvent.FrameAttached fr) m2
  end.

(** [#onFrameNavigated(framePayload, navigationType)] up to its [await]; what
    follows the [await] is queued ([microtasks]) or, when the frame is not in
    the tree, registered as a pending wait. *)
Definition onFrameNavigated (stack : nat) (framePayload : FramePayload)
    (navigationType : NavigationType) (m : FrameManager)
  : option FrameManager :=
  let frameId := payload_id framePayload in
  let isMainFrame := negb (truthy (payload_parentId framePayload)) in
  let found := getById frameId (_frameTree m) in
  (* Detach all child frames first. *)
  match (match found with
         | Some fr =>
             forEach (removeFramesRecursively stack) (frame_childFrames fr m) m
         | None => Some m
         end) with
  | None => None
  | Some m1 =>
      (* Update or create main frame. *)
      let m2 :=
        if isMainFrame then
          match found with
          | Some fr =>
              tree_addFrame fr
                (update_frame fr (updateId frameId) (tree_removeFrame fr m1))
          | None =>
              tree_addFrame (nextObj m1)
                (alloc_frame (new_CdpFrame frameId None (client m1)) m1)
          end
        else m1 in
      match waitForFrame frameId (framePayload, navigationType)
              (_frameTree m2) with
      | (Some fr, _) =>
          Some (set_microtasks
                  (microtasks m2 ++ [(fr, (framePayload, navigationType))]) m2)
      | (None, t) => Some (set_frameTree t m2)
      end
  end.

(** The rest of [#onFrameNavigated] after the [await]. *)
Definition navigated_continuation (task : obj * Waiter) (m : FrameManager)
  : FrameManager :=
  let '(fr, (framePayload, navigationType)) := task in
  let m1 := update_frame fr (_navigated framePayload) m in
  let m2 := emit (ManagerEmit FrameManagerEvent.FrameNavigated fr) m1 in
  emit (FrameEmit fr (FrameEvent.FrameNavigated navigationType)) m2.

(** The microtask queue runs dry after every task. *)
Definition drain (m : FrameManager) : FrameManager :=
  foldl (fun m task => navigated_continuation task m)
    (set_microtasks [] m) (microtasks m).

(** [#onFrameNavigatedWithinDocument(frameId, url)] *)
Definition onFrameNavigatedWithinDocument (frameId url : string)
    (m : FrameManager) : FrameManager :=
  match frame frameId m with
  | None => m
  | Some fr =>
      let m1 := update_frame fr (_navigatedWithinDocument url) m in
      let m2 :=
        emit (ManagerEmit FrameManagerEvent.FrameNavigatedWithinDocument fr) m1 in
      let m3 := emit (FrameEmit fr FrameEvent.FrameNavigatedWithinDocument) m2 in
      let m4 := emit (ManagerEmit FrameManagerEvent.FrameNavigated fr) m3 in
      emit (FrameEmit fr (FrameEvent.FrameNavigated Navigation)) m4
  end.

(** [#onFrameDetached(frameId, reason)] *)
Definition onFrameDetached (stack : nat) (frameId : string)
    (reason : FrameDetachedEventReason) (m : FrameManager)
  : option FrameManager :=
  match frame frameId m with
  | None => Some m
  | Some fr =>
      match reason with
      | remove => removeFramesRecursively stack fr m
      | swap =>
          let m1 := emit (ManagerEmit FrameManagerEvent.FrameSwapped fr) m in
          Some (emit (FrameEmit fr FrameEvent.FrameSwapped) m1)
      end
  end.

(** The registry key [`${session.id()}:${contextId}`]. *)
Definition context_key (session : CDPSession) (contextId : Z) : string :=
  sessionId session +:+ ":" +:+ pretty contextId.

(** [auxData && auxData.frameId], when it is a string. *)
Definition auxData_frameId (contextPayload : ExecutionContextDescription)
  : option string :=
  match context_auxData contextPayload with
  | Some auxData => aux_frameId auxData
  | None => None
  end.

(** [contextPayload.auxData && contextPayload.auxData['isDefault']] *)
Definition auxData_isDefault (contextPayload : ExecutionContextDescription)
  : bool :=
  match context_auxData contextPayload with
  | Some auxData => aux_isDefault auxData
  | None => false
  end.

(** [#onExecutionContextCreated(contextPayload, session)] *)
Definition onExecutionContextCreated
    (contextPayload : ExecutionContextDescription) (session : CDPSession)
    (m : FrameManager) : FrameManager :=
  match (match auxData_frameId contextPayload with
         | Some frameId => frame frameId m
         | None => None
         end) with
  | None => m (* no world: the context is not meant to be handled by us *)
  | Some fr =>
      match frameObjs m !! fr with
      | None => m
      | Some f =>
          (* Only care about execution contexts created for the current
             session. *)
          if negb (bool_decide (frame_client f = session)) then m
          else
            let world :=
              if auxData_isDefault contextPayload then Some MAIN_WORLD
              else if String.eqb (context_name contextPayload)
                        UTILITY_WORLD_NAME
                      && negb (hasContext (worlds f PUPPETEER_WORLD))
              then Some PUPPETEER_WORLD
              else None in
            match world with
            | None => m
            | Some k =>
                let context := nextObj m in
                let m1 :=
                  alloc_context
                    (mkContext (frame_client f) (context_id contextPayload)
                       (context_name contextPayload) (Some (fr, k))) m in
                let m2 := world_setContext (fr, k) context m1 in
                set_contextIdToContext
                  (map_set (contextIdToContext m2)
                     (context_key session (context_id contextPayload)) context)
                  m2
            end
      end
  end.

(** [getExecutionContextById(contextId, session)] *)
Definition getExecutionContextById (contextId : Z) (session : CDPSession)
    (m : FrameManager) : option obj :=
  map_get (contextIdToContext m) (context_key session contextId).

(** [#onExecutionContextDestroyed(executionContextId, session)] *)
Definition onExecutionContextDestroyed (executionContextId : Z)
    (session : CDPSession) (m : FrameManager) : FrameManager :=
  let key := context_key session executionContextId in
  match map_get (contextIdToContext m) key with
  | None => m
  | Some context =>
      let m1 :=
        set_contextIdToContext (map_delete (contextIdToContext m) key) m in
      match contextObjs m1 !! context with
      | Some c =>
          match _world c with
          | Some w => world_clearContext w m1
          | None => m1
          end
      | None => m1
      end
  end.

(** One round of the loop of [#onExecutionContextsCleared]. *)
Definition clear_entry (session : CDPSession) (m : FrameManager)
    (entry : string * obj) : FrameManager :=
  match contextObjs m !! entry.2 with
  | Some c =>
      if negb (bool_decide (_client c = session)) then m
      else
        let m1 :=
          match _world c with
          | Some w => world_clearContext w m
          | None => m
          end in
        set_contextIdToContext (map_delete (contextIdToContext m1) entry.1) m1
  | None => m
  end.

(** [#onExecutionContextsCleared(session)] *)
Definition onExecutionContextsCleared (session : CDPSession) (m : FrameManager)
  : FrameManager :=
  foldl (clear_entry session) m (contextIdToContext m).

(** [#handleFrameTree(session, frameTree)] *)
Fixpoint handleFrameTree (stack : nat) (session : CDPSession)
    (frameTree : FrameTreePayload) (m : FrameManager) {struct frameTree}
  : option FrameManager :=
  match frameTree with
  | FrameTreeNode fp children =>
      let m1 :=
        match payload_parentId fp with
        | Some parentId =>
            if truthy (Some parentId)
            then onFrameAttached session (payload_id fp) parentId m
            else m
        | None => m
        end in
      match (if negb (bool_decide (payload_id fp ∈ frameNavigatedReceived m1))
             then onFrameNavigated stack fp Navigation m1
             else Some (set_frameNavigatedReceived
                          (frameNavigatedReceived m1 ∖ {[payload_id fp]}) m1))
      with
      | None => None
      | Some m2 =>
          (fix each (cs : list FrameTreePayload) (m : FrameManager)
             : option FrameManager :=
             match cs with
             | [] => Some m
             | c :: cs' =>
                 match handleFrameTree stack session c m with
                 | Some m' => each cs' m'
                 | None => None
                 end
             end) children m2
      end
  end.

(** [#onClientDisconnect()] up to [await swapped.valueOrThrow()]: the
    children go at once; the Deferred created with
    [timeout: TIME_FOR_WAITING_FOR_SWAP] is recorded with its deadline,
    together with the frame it will remove if it times out. *)
Definition onClientDisconnect (stack : nat) (m : FrameManager)
  : option FrameManager :=
  match getMainFrame (_frameTree m) with
  | None => Some m
  | Some mainFrame =>
      match forEach (removeFramesRecursively stack)
              (frame_childFrames mainFrame m) m with
      | None => None
      | Some m1 =>
          Some (set_awaitingSwap
                  (awaitingSwap m1
                   ++ [(mainFrame, (now m1 + TIME_FOR_WAITING_FOR_SWAP)%Z)])
                  m1)
      end
  end.

(** Time passes to [t]: every swap wait whose deadline is reached rejects
    with 'Frame was not swapped', and the [catch] of [#onClientDisconnect]
    removes its frame. *)
Definition elapse (stack : nat) (t : Z) (m : FrameManager)
  : option FrameManager :=
  let due := filter (fun e => (e.2 <=? t)%Z) (awaitingSwap m) in
  let waiting := filter (fun e => negb (e.2 <=? t)%Z) (awaitingSwap m) in
  forEach (fun e => removeFramesRecursively stack e.1) due
    (set_now (Z.max (now m) t) (set_awaitingSwap waiting m)).

(** [frame.emit(FrameEvent.FrameSwappedByActivation)]: the listeners installed
    by [#onClientDisconnect] resolve their Deferreds. *)
Definition emit_FrameSwappedByActivation (fr : obj) (m : FrameManager)
  : FrameManager :=
  let m1 := emit (FrameEmit fr FrameEvent.FrameSwappedByActivation) m in
  set_awaitingSwap
    (filter (fun e => negb (Nat.eqb e.1 fr)) (awaitingSwap m1)) m1.

(** [swapFrameTree(client)] up to [await this.initialize(client)]; returns
    the [frame] the rest of the function holds on to. *)
Definition swapFrameTree_rebind (newClient : CDPSession) (m : FrameManager)
  : FrameManager * option obj :=
  let m1 := onExecutionContextsCleared (client m) m in
  let m2 := set_client newClient m1 in
  match getMainFrame (_frameTree m2) with
  | Some fr =>
      let m3 :=
        set_frameNavigatedReceived
          ({[_targetId newClient]} ∪ frameNavigatedReceived m2) m2 in
      let m4 := tree_removeFrame fr m3 in
      let m5 := update_frame fr (updateId (_targetId newClient)) m4 in
      let m6 := world_clearContext (fr, MAIN_WORLD) m5 in
      let m7 := world_clearContext (fr, PUPPETEER_WORLD) m6 in
      let m8 := tree_addFrame fr m7 in
      (update_frame fr (updateClient newClient true) m8, Some fr)
  | None => (m2, None)
  end.

(** The end of [swapFrameTree]: [if (frame) frame.emit(...)]. *)
Definition swapFrameTree_finish (held : option obj) (m : FrameManager)
  : FrameManager :=
  match held with
  | Some fr => emit_FrameSwappedByActivation fr m
  | None => m
  end.

(** [swapFrameTree(client)] with nothing interleaved: rebind, replay the
    frame-tree snapshot [initialize] receives (if one arrives), announce the
    swap. *)
Definition swapFrameTree (stack : nat) (newClient : CDPSession)
    (snapshot : option FrameTreePayload) (m : FrameManager)
  : option FrameManager :=
  let '(m1, held) := swapFrameTree_rebind newClient m in
  match (match snapshot with
         | Some frameTree => handleFrameTree stack newClient frameTree (drain m1)
         | None => Some (drain m1)
         end) with
  | Some m2 => Some (swapFrameTree_finish held (drain m2))
  | None => None
  end.

(** What the event loop delivers to the manager. *)
Inductive Task : Type :=
  | Page_frameAttached (session : CDPSession) (frameId parentFrameId : string)
  | Page_frameNavigated (frame : FramePayload) (type : NavigationType)
  | Page_navigatedWithinDocument (frameId url : string)
  | Page_frameDetached (frameId : string) (reason : FrameDetachedEventReason)
  | Page_frameStartedLoading (frameId : string)
  | Page_frameStoppedLoading (frameId : string)
  | Runtime_executionContextCreated
      (context : ExecutionContextDescription) (session : CDPSession)
  | Runtime_executionContextDestroyed
      (executionContextId : Z) (session : CDPSession)
  | Runtime_executionContextsCleared (session : CDPSession)
  | Page_lifecycleEvent (event : LifecycleEventEvent)
  | Page_getFrameTree_response (session : CDPSession)
      (frameTree : FrameTreePayload)
  | CDPSession_Disconnected
  | CDPSession_Swapped (newSession : CDPSession)
                       (snapshot : option FrameTreePayload)
  | Timer (t : Z).

(** The listeners of [setupEventListeners], the disconnect and swap
    listeners, and the timers; each task ends with the microtasks it
    queued. *)
Definition handle (stack : nat) (task : Task) (m : FrameManager)
  : option FrameManager :=
  match task with
  | Page_frameAttached session frameId parentFrameId =>
      Some (drain (onFrameAttached session frameId parentFrameId m))
  | Page_frameNavigated fp type =>
      drain <$>
        onFrameNavigated stack fp type
          (set_frameNavigatedReceived
             ({[payload_id fp]} ∪ frameNavigatedReceived m) m)
  | Page_navigatedWithinDocument frameId url =>
      Some (drain (onFrameNavigatedWithinDocument frameId url m))
  | Page_frameDetached frameId reason =>
      drain <$> onFrameDetached stack frameId reason m
  | Page_frameStartedLoading frameId =>
      Some (drain (onFrameStartedLoading frameId m))
  | Page_frameStoppedLoading frameId =>
      Some (drain (onFrameStoppedLoading frameId m))
  | Runtime_executionContextCreated context session =>
      Some (drain (onExecutionContextCreated context session m))
  | Runtime_executionContextDestroyed executionContextId session =>
      Some (drain (onExecutionContextDestroyed executionContextId session m))
  | Runtime_executionContextsCleared session =>
      Some (drain (onExecutionContextsCleared session m))
  | Page_lifecycleEvent event => Some (drain (onLifecycleEvent event m))
  | Page_getFrameTree_response session frameTree =>
      drain <$> handleFrameTree stack session frameTree m
  | CDPSession_Disconnected => drain <$> onClientDisconnect stack m
  | CDPSession_Swapped newSession snapshot =>
      swapFrameTree stack newSession snapshot m
  | Timer t => drain <$> elapse stack t m
  end.

(** ** Reading the state *)

(** The context a World exposes, read through the Frame that owns it. *)
Definition world_holds (m : FrameManager) (w : obj * WorldKey) : option obj :=
  match frameObjs m !! w.1 with
  | Some f => context (worlds f w.2)
  | None => None
  end.

(** A context-created event that is not a default realm and names the
    reserved utility world of frame [frameId]. *)
Definition names_utility_world (frameId : string)
    (contextPayload : ExecutionContextDescription) : bool :=
  bool_decide (auxData_frameId contextPayload = Some frameId)
  && negb (auxData_isDefault contextPayload)
  && String.eqb (context_name contextPayload) UTILITY_WORLD_NAME.

(** ** Well-formed trees *)

Fixpoint distinct (l : list string) : bool :=
  match l with
  | [] => true
  | k :: l' => negb (existsb (String.eqb k) l') && distinct l'
  end.

(** The tree is a map (no key twice) and every entry is filed under the
    current id of a Frame object that exists. *)
Definition keyed_entry (heap : gmap obj CdpFrame) (e : string * obj) : bool :=
  match heap !! e.2 with
  | Some f => String.eqb (_id f) e.1
  | None => false
  end.

Definition well_keyed (m : FrameManager) : bool :=
  distinct (map fst (frames (_frameTree m)))
  && forallb (keyed_entry (frameObjs m)) (frames (_frameTree m)).

(** ** Subtrees of the frame tree *)

(** A Frame object and, in the order [childFrames()] lists them, the
    subtrees of its children. *)
Inductive Subtree : Type :=
  | Sub (root : obj) (kids : list Subtree).

Definition root_of (t : Subtree) : obj := match t with Sub r _ => r end.
Definition kids_of (t : Subtree) : list Subtree :=
  match t with Sub _ kids => kids end.

(** Deepest first: every subtree before its root. *)
Fixpoint postorder (t : Subtree) : list obj :=
  match t with
  | Sub r kids => flat_map postorder kids ++ [r]
  end.

(** The frames strictly below the root. *)
Definition descendants (t : Subtree) : list obj :=
  flat_map postorder (kids_of t).

Fixpoint height (t : Subtree) : nat :=
  match t with
  | Sub _ kids => S (foldr Nat.max 0 (map height kids))
  end.

(** The Frame object is in the tree, under its own id. *)
Definition live (m : FrameManager) (x : obj) : bool :=
  match frameObjs m !! x with
  | Some f =>
      match frame (_id f) m with
      | Some y => Nat.eqb y x
      | None => false
      end
  | None => false
  end.

(** A frame that has a parent id. *)
Definition has_parent (m : FrameManager) (x : obj) : Prop :=
  exists f p, frameObjs m !! x = Some f /\ _parentId f = Some p.

(** [t] is what the tree holds at and below [root_of t]: each node is live
    and its [childFrames()] are the roots of its kids, in order. *)
Fixpoint shape (m : FrameManager) (t : Subtree) : bool :=
  match t with
  | Sub r kids =>
      live m r
      && bool_decide (frame_childFrames r m = map root_of kids)
      && forallb (shape m) kids
  end.

(** What [#removeFramesRecursively] does to one frame once its children are
    gone. *)
Definition detach_notifications (x : obj) : list Notification :=
  [ManagerEmit FrameManagerEvent.FrameDetached x;
   FrameEmit x FrameEvent.FrameDetached].

Definition detach_one (x : obj) (m : FrameManager) : FrameManager :=
  emit (FrameEmit x FrameEvent.FrameDetached)
    (emit (ManagerEmit FrameManagerEvent.FrameDetached x)
       (tree_removeFrame x (frame_dispose x m))).

(** A removal list applied in order. *)
Definition detach_all (l : list obj) (m : FrameManager) : FrameManager :=
  foldl (fun m x => detach_one x m) m l.

(** The frames named by the manager's [FrameDetached] / [FrameAttached]
    notifications, in order of emission. *)
Definition manager_notified (event : FrameManagerEvent.t)
    (ns : list Notification) : list obj :=
  omap (fun n =>
          match n with
          | ManagerEmit e x =>
              if FrameManagerEvent.eqb e event then Some x else None
          | FrameEmit _ _ => None
          end) ns.

(** ** Invariants *)

(** The registered contexts a World currently holds. *)
Definition bound_contexts (m : FrameManager) (w : obj * WorldKey) : list obj :=
  filter (fun c => world_holds m w = Some c) (map snd (contextIdToContext m)).

(** Every registry entry is an ExecutionContext object of its own, and all
    of them have been constructed already. *)
Definition registry_fresh (m : FrameManager) : Prop :=
  NoDup (map snd (contextIdToContext m)) /\
  forall c, c ∈ map snd (contextIdToContext m) -> c < nextObj m.

(** What the frame handlers may do, seen from the registry and the
    notification log: the session and the registry are not touched, objects
    are only ever constructed, and a [FrameAttached] notification names a Frame constructed
    in between. *)
Definition quiet (m m' : FrameManager) : Prop :=
  client m' = client m /\
  contextIdToContext m' = contextIdToContext m /\
  nextObj m <= nextObj m' /\
  exists suffix,
    emitted m' = emitted m ++ suffix /\
    forall x, x ∈ manager_notified FrameManagerEvent.FrameAttached suffix ->
              nextObj m <= x.

(** Id and parent id of a Frame. *)
Definition ident (f : CdpFrame) : string * option string :=
  (_id f, _parentId f).

(** Two heaps agree on which objects are Frames and on their ids and parent
    ids. *)
Definition same_ids (h h' : gmap obj CdpFrame) : Prop :=
  forall y, ident <$> h' !! y = ident <$> h !! y.

(** The Frame object [r] is registered under [tid], is a root, the tree is
    well keyed, and every Frame in the tree has been constructed already. *)
Definition anchored (r : obj) (tid : string) (m : FrameManager) : Prop :=
  well_keyed m = true /\
  frame tid m = Some r /\
  (exists f, frameObjs m !! r = Some f /\ _parentId f = None) /\
  (forall k x, (k, x) ∈ frames (_frameTree m) -> x < nextObj m).

(** A frame other than the anchor, filed under another id. *)
Definition beside (r : obj) (tid : string) (m : FrameManager) (x : obj)
  : Prop :=
  x <> r /\ forall fx, frameObjs m !! x = Some fx -> _id fx <> tid.

(** Everything about a Frame but what its worlds hold. *)
Definition core (f : CdpFrame) :=
  (_id f, _parentId f, frame_client f, _url f, _loaderId f, lifecycle f,
   detached f, pendingWaits f).

(** ** The rest of the manager's interface *)

(** [executionContextById(contextId, session)]: the context, or the message
    of the failed assertion. *)
Definition executionContextById (contextId : Z) (session : CDPSession)
    (m : FrameManager) : string + obj :=
  match getExecutionContextById contextId session m with
  | Some context => inr context
  | None =>
      inl ("INTERNAL ERROR: missing context with id = " +:+ pretty contextId)
  end.

(** [mainFrame()]: the tracked root, or the message of the failed
    assertion. *)
Definition FrameManager_mainFrame (m : FrameManager) : string + obj :=
  match getMainFrame (_frameTree m) with
  | Some mainFrame => inr mainFrame
  | None => inl "Requesting main frame too early!"
  end.

(** [frames()]; modelled from the spec: [FrameTree.frames()] lists the
    Frames of the keyed mapping. *)
Definition FrameManager_frames (m : FrameManager) : list obj :=
  map snd (frames (_frameTree m)).

(** [onAttachedToTarget(target)] up to the commands [initialize] sends:
    [targetType] and [targetId] are [target._getTargetInfo()]'s, [session]
    is [target._session()]. *)
Definition onAttachedToTarget (targetType targetId : string)
    (session : CDPSession) (m : FrameManager) : FrameManager :=
  if negb (String.eqb targetType "iframe") then m
  else
    match frame targetId m with
    | Some fr => update_frame fr (updateClient session false) m
    | None => m
    end.

(** ** More invariants *)

(** A string without a colon. *)
Fixpoint colonless (s : string) : bool :=
  match s with
  | EmptyString => true
  | String a s' => negb (Ascii.eqb a ":"%char) && colonless s'
  end.

(** Whether a registry entry is a context of [session]. *)
Definition belongs (session : CDPSession) (heap : gmap obj ExecutionContext)
    (entry : string * obj) : bool :=
  match heap !! entry.2 with
  | Some c => bool_decide (_client c = session)
  | None => false
  end.

(** A context-created event for the default realm of frame [frameId]. *)
Definition default_context (frameId : string) (contextId : Z) (name : string)
  : ExecutionContextDescription :=
  mkContextPayload contextId name (Some (mkAuxData (Some frameId) true)).

(** The tree is well keyed, its Frames and the tracked root have been
    constructed already, and the tracked root has no parent id. *)
Definition tidy (m : FrameManager) : Prop :=
  well_keyed m = true /\
  (forall k x, (k, x) ∈ frames (_frameTree m) -> x < nextObj m) /\
  (forall r, mainFrame (_frameTree m) = Some r ->
     r < nextObj m /\
     exists f, frameObjs m !! r = Some f /\ _parentId f = None).

(** Neither the tree nor the identity of any Frame changes. *)
Definition calm (m m' : FrameManager) : Prop :=
  frames (_frameTree m') = frames (_frameTree m) /\
  mainFrame (_frameTree m') = mainFrame (_frameTree m) /\
  same_ids (frameObjs m) (frameObjs m') /\
  nextObj m <= nextObj m'.

(** The Frame object is not in the tree. *)
Definition absent (x : obj) (m : FrameManager) : Prop :=
  forall k, (k, x) ∉ frames (_frameTree m).

(** What a handler adds to the log of [FrameAttached] notifications: each
    names a Frame constructed meanwhile, none twice. *)
Definition attaches (m m' : FrameManager) : Prop :=
  nextObj m <= nextObj m' /\
  exists suffix,
    emitted m' = emitted m ++ suffix /\
    NoDup (manager_notified FrameManagerEvent.FrameAttached suffix) /\
    forall x, x ∈ manager_notified FrameManagerEvent.FrameAttached suffix ->
              nextObj m <= x < nextObj m'.

(** The log of [FrameAttached] notifications names no Frame twice and only
    Frames constructed already. *)
Definition attached_once (m : FrameManager) : Prop :=
  NoDup (manager_notified FrameManagerEvent.FrameAttached (emitted m)) /\
  forall x, x ∈ manager_notified FrameManagerEvent.FrameAttached (emitted m) ->
            x < nextObj m.

(** The tasks that can take the root Frame registered under [tid] out of
    the tree or change its id: its explicit removal, a timer (the swap wait
    may time out) and a swap. *)
Definition may_unroot (tid : string) (task : Task) : bool :=
  match task with
  | Page_frameDetached frameId remove => String.eqb frameId tid
  | CDPSession_Swapped _ _ | Timer _ => true
  | _ => false
  end.

(** Every Frame object has been constructed already. *)
Definition bounded (m : FrameManager) : Prop :=
  forall y : obj, is_Some (frameObjs m !! y) -> y < nextObj m.

(** The Frames constructed before keep their ids and parent ids, and only
    newly constructed objects enter the heap. *)
Definition stable (m m' : FrameManager) : Prop :=
  nextObj m <= nextObj m' /\
  (forall y : obj, y < nextObj m ->
     ident <$> frameObjs m' !! y = ident <$> frameObjs m !! y) /\
  (forall y : obj, is_Some (frameObjs m' !! y) ->
     is_Some (frameObjs m !! y) \/ y < nextObj m').

(** Whether the task is a swap. *)
Definition is_swap (task : Task) : bool :=
  match task with CDPSession_Swapped _ _ => true | _ => false end.

(** Only newly constructed objects enter the heap of Frames. *)
Definition grows (m m' : FrameManager) : Prop :=
  nextObj m <= nextObj m' /\
  (forall y : obj, is_Some (frameObjs m' !! y) ->
     is_Some (frameObjs m !! y) \/ y < nextObj m').

(** ** Replaying a frame-tree snapshot *)

(** The payloads of a snapshot in pre-order, the order in which
    [#handleFrameTree] visits them. *)
Fixpoint payloads (frameTree : FrameTreePayload) : list FramePayload :=
  match frameTree with
  | FrameTreeNode fp children => fp :: flat_map payloads children
  end.

(** The parent id [#handleFrameTree] attaches a node under, when it has
    one. *)
Definition attach_parent (fp : FramePayload) : option string :=
  if truthy (payload_parentId fp) then payload_parentId fp else None.

(** What [#handleFrameTree] does for one node when the frame is not in the
    tree, no frame of the tree is its child and no navigation event for it
    has been received: a node with a parent id is attached, a node without
    one becomes a root Frame, and its navigation is queued. *)
Definition replay_node (session : CDPSession) (m : FrameManager)
    (fp : FramePayload) : FrameManager :=
  let m2 :=
    match attach_parent fp with
    | Some parentId =>
        emit (ManagerEmit FrameManagerEvent.FrameAttached (nextObj m))
          (tree_addFrame (nextObj m)
             (alloc_frame
                (new_CdpFrame (payload_id fp) (Some parentId) session) m))
    | None =>
        tree_addFrame (nextObj m)
          (alloc_frame (new_CdpFrame (payload_id fp) None (client m)) m)
    end in
  set_microtasks (microtasks m2 ++ [(nextObj m, (fp, Navigation))]) m2.

(** The node can be replayed in [m] as [replay_node] says. *)
Definition fresh_node (m : FrameManager) (fp : FramePayload) : Prop :=
  getById (payload_id fp) (_frameTree m) = None /\
  tree_childFrames (payload_id fp) (frameObjs m) (_frameTree m) = [] /\
  payload_id fp ∉ frameNavigatedReceived m.

(** No node names as its parent itself or a node that comes later. *)
Fixpoint parents_first (nodes : list FramePayload) : bool :=
  match nodes with
  | [] => true
  | fp :: rest =>
      forallb (fun fp' =>
                 negb (bool_decide
                         (attach_parent fp = Some (payload_id fp'))))
        (fp :: rest)
      && parents_first rest
  end.

(** The Frame a replayed node ends as, once its navigation has run. *)
Definition replayed_frame (session client : CDPSession) (fp : FramePayload)
  : CdpFrame :=
  _navigated fp
    (match attach_parent fp with
     | Some parentId => new_CdpFrame (payload_id fp) (Some parentId) session
     | None => new_CdpFrame (payload_id fp) None client
     end).

(** The positions of the nodes that have a parent id, from [base] on. *)
Fixpoint attached_positions (base : nat) (nodes : list FramePayload)
  : list obj :=
  match nodes with
  | [] => []
  | fp :: rest =>
      match attach_parent fp with
      | Some _ => base :: attached_positions (S base) rest
      | None => attached_positions (S base) rest
      end
  end.

(** Where the replayed nodes are filed and what is queued for them, when
    the first of them is constructed at [base]. *)
Fixpoint placed (base : nat) (nodes : list FramePayload)
  : list (string * obj) :=
  match nodes with
  | [] => []
  | fp :: rest => (payload_id fp, base) :: placed (S base) rest
  end.

Fixpoint queued (base : nat) (nodes : list FramePayload)
  : list (obj * Waiter) :=
  match nodes with
  | [] => []
  | fp :: rest => (base, (fp, Navigation)) :: queued (S base) rest
  end.

(** The notifications of a navigation that has run. *)
Definition navigated_notifications (x : obj) : list Notification :=
  [ManagerEmit FrameManagerEvent.FrameNavigated x;
   FrameEmit x (FrameEvent.FrameNavigated Navigation)].

(** The nodes can be replayed one after the other from [m]. *)
Definition replayable (m : FrameManager) (nodes : list FramePayload) : Prop :=
  tidy m /\
  Forall (fresh_node m) nodes /\
  NoDup (map payload_id nodes) /\
  parents_first nodes = true.

(** The Frame [replay_node] constructs for a node. *)
Definition node_frame (session client : CDPSession) (fp : FramePayload)
  : CdpFrame :=
  match attach_parent fp with
  | Some parentId => new_CdpFrame (payload_id fp) (Some parentId) session
  | None => new_CdpFrame (payload_id fp) None client
  end.

(** ** [#createIsolatedWorld] *)

(** The commands [#createIsolatedWorld] sends on a session. *)
Inductive Command : Type :=
  | Page_addScriptToEvaluateOnNewDocument (session : CDPSession)
      (worldName : string)
  | Page_createIsolatedWorld (session : CDPSession) (frameId worldName : string).

(** The key [`${session.id()}:${name}`] of [#isolatedWorlds]. *)
Definition world_key (session : CDPSession) (name : string) : string :=
  sessionId session +:+ ":" +:+ name.

(** [this.frames().filter(frame => frame.client === session)], as their
    current ids. *)
Definition frames_of (session : CDPSession) (m : FrameManager) : list string :=
  omap (fun fr : obj =>
          match frameObjs m !! fr with
          | Some f =>
              if bool_decide (frame_client f = session) then Some (_id f)
              else None
          | None => None
          end) (FrameManager_frames m).

(** [#createIsolatedWorld(session, name)] with nothing interleaved at its
    [await]s: the commands sent, the error the promise rejects with (the
    rejection of the first command, if any; the per-frame commands swallow
    theirs), and [#isolatedWorlds] afterwards. *)
Definition createIsolatedWorld (session : CDPSession) (name : string)
    (addScript_rejection : option string) (isolatedWorlds : gset string)
    (m : FrameManager) : list Command * option string * gset string :=
  let key := world_key session name in
  if bool_decide (key ∈ isolatedWorlds) then ([], None, isolatedWorlds)
  else
    match addScript_rejection with
    | Some error =>
        ([Page_addScriptToEvaluateOnNewDocument session name], Some error,
         isolatedWorlds)
    | None =>
        (Page_addScriptToEvaluateOnNewDocument session name
         :: map (fun frameId => Page_createIsolatedWorld session frameId name)
              (frames_of session m),
         None, {[key]} ∪ isolatedWorlds)
    end.

(** Calls of [#createIsolatedWorld] one after the other, each run to its
    end before the next starts and each on the state of the manager at its
    time: [#isolatedWorlds] after all of them. *)
Definition isolatedWorlds_after
    (calls : list (CDPSession * string * option string * FrameManager))
    (isolatedWorlds : gset string) : gset string :=
  foldl (fun worlds '(session, name, rejection, m) =>
           (createIsolatedWorld session name rejection worlds m).2)
        isolatedWorlds calls.

(** The call asks for the world [name] on the session with the id of
    [session], and its first command is answered. *)
Definition installed (session : CDPSession) (name : string)
    (call : CDPSession * string * option string * FrameManager) : Prop :=
  let '(session', name', rejection, _) := call in
  sessionId session' = sessionId session /\ name' = name /\ rejection = None.

End Cdp.

(** ** Concrete pages *)

Module Scenario.
Import Cdp.

Definition page : CDPSession := mkSession "page" "target-0".
Definition oopif : CDPSession := mkSession "oopif" "target-1".
Definition replacement : CDPSession := mkSession "prerender" "target-2".

Definition stack : nat := 16.

Definition deliver (tasks : list Task) (m : FrameManager)
  : option FrameManager :=
  forEach (handle stack) tasks m.

Definition after (tasks : list Task) : FrameManager :=
  default (new_FrameManager page 0) (deliver tasks (new_FrameManager page 0)).

Definition navigate (frameId loaderId url : string) : Task :=
  Page_frameNavigated (mkFramePayload frameId None loaderId url) Navigation.

(** The root frame [A], loaded by loader [L1]. *)
Definition rootA : FrameManager := after [navigate "A" "L1" "http://a/"].

(** [A] with a child [B]. *)
Definition rootA_childB : FrameManager :=
  after [navigate "A" "L1" "http://a/"; Page_frameAttached page "B" "A"].

(** [A] with a child [B] and a grandchild [C]. *)
Definition rootA_B_C : FrameManager :=
  after [navigate "A" "L1" "http://a/"; Page_frameAttached page "B" "A";
         Page_frameAttached page "C" "B"].

(** [A], [B], [C] with a caller waiting on [A] (Deferred 7). *)
Definition rootA_B_C_waiting : FrameManager :=
  update_frame 0 (register_wait 7) rootA_B_C.

(** The subtree of [A] in [rootA_B_C]. *)
Definition treeA_B_C : Subtree := Sub 0 [Sub 1 [Sub 2 []]].

(** The Frame object of [A] as the manager holds it in [rootA]. *)
Definition frameA : CdpFrame :=
  {| _id := "A"; _parentId := None; frame_client := page;
     _url := "http://a/"; _loaderId := "L1";
     lifecycle := mkLifecycle false false false; detached := false;
     mainRealm := mkWorld None; isolatedRealm := mkWorld None;
     pendingWaits := [] |}.

Definition frameA_waiting : CdpFrame := register_wait 7 frameA.

Definition frameB : CdpFrame := new_CdpFrame "B" (Some "A") page.

(** A ["load"] event of the superseded loader [L0]. *)
Definition stale_load : LifecycleEventEvent := mkLifecycleEvent "A" "L0" "load".

(** A context-created event naming the utility world for frame [A]. *)
Definition utility_context (contextId : Z) : ExecutionContextDescription :=
  mkContextPayload contextId UTILITY_WORLD_NAME
    (Some (mkAuxData (Some "A") false)).

End Scenario.

(* ===================================================================== *)
(** * cdp/Page.ts *)
(* ===================================================================== *)

Module CdpPage.

(** ** [#buildMetricsObject] *)

(** [const supportedMetrics = new Set<string>([...])] *)
Definition supportedMetrics : gset string :=
  list_to_set
    ["Timestamp"; "Documents"; "Frames"; "JSEventListeners"; "Nodes";
     "LayoutCount"; "RecalcStyleCount"; "LayoutDuration";
     "RecalcStyleDuration"; "ScriptDuration"; "TaskDuration";
     "JSHeapUsedSize"; "JSHeapTotalSize"].

(** [Protocol.Performance.Metric]; the function never looks into the
    value. *)
Record Metric (V : Type) : Type := mkMetric {
  metric_name : string;
  metric_value : V;
}.
Arguments mkMetric {V} _ _.
Arguments metric_name {V} _.
Arguments metric_value {V} _.

(** [#buildMetricsObject(metrics?)]: [metrics || []] is walked in order and
    [result[metric.name] = metric.value] is assigned for the supported
    names. *)
Definition buildMetricsObject {V} (metrics : option (list (Metric V)))
  : gmap string V :=
  foldl (fun result metric =>
           if bool_decide (metric_name metric ∈ supportedMetrics)
           then <[metric_name metric := metric_value metric]> result
           else result)
    ∅ (default [] metrics).

(** The value of the last metric of the list that carries [name]. *)
Definition last_reported {V} (name : string) (metrics : list (Metric V))
  : option V :=
  metric_value <$> last (filter (fun m => metric_name m = name) metrics).

(** ** [screenshot]: the format of the capture *)

(** [String.prototype.lastIndexOf] for a one-character needle: the index of
    its last occurrence, [-1] when there is none. *)
Fixpoint lastIndexOf_from (i : Z) (s : string) (c : Ascii.ascii) (found : Z) : Z :=
  match s with
  | EmptyString => found
  | String a s' =>
      lastIndexOf_from (i + 1) s' c (if Ascii.eqb a c then i else found)
  end.

Definition lastIndexOf (s : string) (c : Ascii.ascii) : Z :=
  lastIndexOf_from 0 s c (-1).

(** [s.slice(start)] for [start >= 0]. *)
Fixpoint slice_nat (start : nat) (s : string) : string :=
  match start, s with
  | O, _ => s
  | S n, EmptyString => EmptyString
  | S n, String _ s' => slice_nat n s'
  end.

Definition slice (s : string) (start : Z) : string :=
  slice_nat (Z.to_nat start) s.

(** [String.prototype.toLowerCase] on the letters [A]..[Z]; no other
    character lower-cases to a letter of [png], [jpeg], [jpg] or [webp], so
    the [switch] below sees what the source sees. *)
Definition lower_ascii (a : Ascii.ascii) : Ascii.ascii :=
  let n := Ascii.nat_of_ascii a in
  if (65 <=? n) && (n <=? 90) then Ascii.ascii_of_nat (n + 32) else a.

Fixpoint toLowerCase (s : string) : string :=
  match s with
  | EmptyString => EmptyString
  | String a s' => String (lower_ascii a) (toLowerCase s')
  end.

(** The two members of [ScreenshotOptions] that decide the format. *)
Record ScreenshotOptions : Type := mkScreenshotOptions {
  option_type : option string;
  option_path : option string;
}.

(** [switch (extension) { ... }]: the format, or the [Error] thrown. *)
Definition switch_extension (extension : string) : string + string :=
  if String.eqb extension "png" then inl "png"
  else if String.eqb extension "jpeg" || String.eqb extension "jpg"
  then inl "jpeg"
  else if String.eqb extension "webp" then inl "webp"
  else inr ("Unsupported screenshot type for extension `." +:+ extension
            +:+ "`").

(** The head of [screenshot(options)]: [screenshotType] as it stands when
    the checks on [options.quality] begin, or the [Error] thrown before. *)
Definition screenshotType (options : ScreenshotOptions) : string + string :=
  if Cdp.truthy (option_type options) then
    inl (default "" (option_type options))
  else if Cdp.truthy (option_path options) then
    let filePath := default "" (option_path options) in
    let extension :=
      toLowerCase (slice filePath (lastIndexOf filePath "."%char + 1)) in
    switch_extension extension
  else inl "png".

(** A string without a dot. *)
Fixpoint dotless (s : string) : bool :=
  match s with
  | EmptyString => true
  | String a s' => negb (Ascii.eqb a "."%char) && dotless s'
  end.

(** ** [exposeFunction] and [removeExposedFunction] *)

(** [pptrFunction: Function | {default: Function}] *)
Inductive PptrFunction : Type :=
  | PlainFunction (f : obj)
  | WithDefault (default : obj).

(** [new Binding(name, fn)] *)
Record Binding : Type := mkBinding {
  binding_name : string;
  binding_fn : obj;
}.

(** The fields [#bindings] and [#exposedFunctions]. *)
Record Exposed : Type := mkExposed {
  bindings : gmap string Binding;
  exposedFunctions : gmap string string;
}.

(** What the browser answers to the commands of one call: each [send] either
    rejects with an error or resolves; [Page.addScriptToEvaluateOnNewDocument]
    resolves with an identifier. *)
Record ExposeReplies : Type := mkExposeReplies {
  addBinding : option string;          (* the rejection, if any *)
  addScript : string + string;         (* identifier, or the rejection *)
}.

Record RemoveReplies : Type := mkRemoveReplies {
  removeBinding : option string;
  removeScript : option string;
}.

Definition already_exists (name : string) : string :=
  "Failed to add page binding with name " +:+ name +:+ ": window['" +:+ name
  +:+ "'] already exists!".

Definition does_not_exist (name : string) : string :=
  "Failed to remove page binding with name " +:+ name +:+ ": window['"
  +:+ name +:+ "'] does not exists!".

(** [exposeFunction(name, pptrFunction)] with nothing interleaved at its
    [await]s: the error the returned promise rejects with, if any, and the
    fields afterwards.  The evaluations in the frames swallow their errors. *)
Definition exposeFunction (name : string) (pptrFunction : PptrFunction)
    (replies : ExposeReplies) (st : Exposed) : option string * Exposed :=
  if bool_decide (is_Some (bindings st !! name)) then
    (Some (already_exists name), st)
  else
    let binding :=
      match pptrFunction with
      | PlainFunction f => mkBinding name f
      | WithDefault f => mkBinding name f
      end in
    let st1 := mkExposed (<[name := binding]> (bindings st))
                 (exposedFunctions st) in
    match addBinding replies with
    | Some error => (Some error, st1)
    | None =>
        match addScript replies with
        | inr error => (Some error, st1)
        | inl identifier =>
            (None,
             mkExposed (bindings st1)
               (<[name := identifier]> (exposedFunctions st1)))
        end
    end.

(** [removeExposedFunction(name)], likewise. *)
Definition removeExposedFunction (name : string) (replies : RemoveReplies)
    (st : Exposed) : option string * Exposed :=
  match exposedFunctions st !! name with
  | None => (Some (does_not_exist name), st)
  | Some exposedFun =>
      if negb (Cdp.truthy (Some exposedFun)) then
        (Some (does_not_exist name), st)
      else
        match removeBinding replies with
        | Some error => (Some error, st)
        | None =>
            match removeScript replies with
            | Some error => (Some error, st)
            | None =>
                (None,
                 mkExposed (delete name (bindings st))
                   (delete name (exposedFunctions st)))
            end
        end
  end.

(** Calls made on the page, with the browser's answers. *)
Inductive ExposeCall : Type :=
  | Expose (name : string) (pptrFunction : PptrFunction)
      (replies : ExposeReplies)
  | Remove (name : string) (replies : RemoveReplies).

Definition call_name (c : ExposeCall) : string :=
  match c with Expose name _ _ | Remove name _ => name end.

Definition expose_call (c : ExposeCall) (st : Exposed)
  : option string * Exposed :=
  match c with
  | Expose name pptrFunction replies =>
      exposeFunction name pptrFunction replies st
  | Remove name replies => removeExposedFunction name replies st
  end.

(** The calls in order; the outcome of each. *)
Fixpoint expose_calls (cs : list ExposeCall) (st : Exposed)
  : list (option string) :=
  match cs with
  | [] => []
  | c :: cs' =>
      let '(outcome, st') := expose_call c st in
      outcome :: expose_calls cs' st'
  end.

(** A name that has a binding but no exposed function. *)
Definition half_exposed (name : string) (st : Exposed) : Prop :=
  is_Some (bindings st !! name) /\ exposedFunctions st !! name = None.

(** What a call under a half-exposed name rejects with. *)
Definition refusal (c : ExposeCall) : string :=
  match c with
  | Expose name _ _ => already_exists name
  | Remove name _ => does_not_exist name
  end.

End CdpPage.

(* ===================================================================== *)
(** * Properties of the decorators *)
(* ===================================================================== *)

Module DecoratorsSpec.
Import Decorators.

Lemma wm_get_set_eq es k v : wm_get (wm_set es k v) k = Some v.
Proof.
  induction es as [|[k' v'] es IH]; simpl.
  - by rewrite Nat.eqb_refl.
  - destruct (Nat.eqb k' k) eqn:E; simpl; rewrite E; auto.
Qed.

Lemma wm_get_set_ne es k k' v :
  k ≠ k' -> wm_get (wm_set es k v) k' = wm_get es k'.
Proof.
  intros Hne. induction es as [|[k0 v0] es IH]; simpl.
  - destruct (Nat.eqb k k') eqn:E; [apply Nat.eqb_eq in E; done | done].
  - destruct (Nat.eqb k0 k) eqn:E; simpl.
    + apply Nat.eqb_eq in E. subst k0.
      destruct (Nat.eqb k k') eqn:E'; [apply Nat.eqb_eq in E'; done | done].
    + destruct (Nat.eqb k0 k'); auto.
Qed.

Lemma mem_empty p : mem p (TrieNode []) = match p with [] => true | _ => false end.
Proof. by destruct p. Qed.

Lemma walk_fresh args : forall t, (walk args t).1 = negb (mem args t).
Proof.
  induction args as [|a rest IH]; intros t; simpl; [done|].
  destruct (wm_get (entries t) a) as [sub|] eqn:E; [|by destruct (walk rest _)].
  specialize (IH sub). by destruct (walk rest sub).
Qed.

Lemma walk_mem args : forall t p,
  mem p (walk args t).2 = mem p t || prefix_b p args.
Proof.
  induction args as [|a rest IH]; intros t p; simpl.
  - destruct p; simpl; [done | by rewrite orb_false_r].
  - destruct p as [|k q]; [by destruct (wm_get _ _); destruct (walk _ _)|].
    destruct (wm_get (entries t) a) as [sub|] eqn:E.
    + specialize (IH sub q). destruct (walk rest sub) as [fr sub']. simpl in *.
      destruct (Nat.eqb k a) eqn:Eka.
      * apply Nat.eqb_eq in Eka. subst k. by rewrite wm_get_set_eq, E.
      * apply Nat.eqb_neq in Eka. rewrite wm_get_set_ne by done.
        by rewrite orb_false_r.
    + specialize (IH (TrieNode []) q).
      destruct (walk rest (TrieNode [])) as [fr sub']. simpl in *.
      destruct (Nat.eqb k a) eqn:Eka.
      * apply Nat.eqb_eq in Eka. subst k. rewrite wm_get_set_eq, E, IH.
        rewrite mem_empty. by destruct q.
      * apply Nat.eqb_neq in Eka. rewrite wm_get_set_ne by done.
        by rewrite orb_false_r.
Qed.

Lemma prefix_b_same_length p : forall args,
  length p = length args -> prefix_b p args = bool_decide (p = args).
Proof.
  induction p as [|k p IH]; intros [|a args] Hlen; simpl in *; try done.
  rewrite IH by lia.
  destruct (Nat.eqb k a) eqn:E; simpl.
  - apply Nat.eqb_eq in E. subst.
    apply bool_decide_ext. split; [by intros -> | by intros [= ->]].
  - apply Nat.eqb_neq in E. symmetry. apply bool_decide_eq_false.
    by intros [= ? ?].
Qed.

Section MemoFacts.
Context {R : Type} (target : list obj -> R).

Lemma cache_holds_step d earlier st args :
  cache_holds d earlier st -> length args = d ->
  cache_holds d (args :: earlier)
    (mkMemo (walk args (cache st)).2 (Z.of_nat d)).
Proof.
  intros [Hd Hmem] Hlen. split; [done|]. intros p Hp. simpl.
  rewrite walk_mem, Hmem by done.
  rewrite prefix_b_same_length by lia. unfold list_obj_eqb.
  destruct (existsb _ earlier), (bool_decide (p = [])),
    (bool_decide (p = args)); done.
Qed.

Lemma run_described_from calls : forall d earlier st,
  cache_holds d earlier st ->
  run target calls st = described_from target d earlier calls.
Proof.
  induction calls as [|args calls IH]; intros d earlier st Hinv; [done|].
  pose proof Hinv as [Hd Hmem]. simpl. unfold decorated.
  rewrite Hd. rewrite (proj2 (Z.eqb_neq (Z.of_nat d) (-1))) by lia.
  destruct (Nat.eqb (length args) d) eqn:Hlen; simpl.
  - apply Nat.eqb_eq in Hlen.
    rewrite (proj2 (Z.eqb_eq (Z.of_nat d) (Z.of_nat (length args))))
      by lia.
    simpl. pose proof (walk_fresh args (cache st)) as Hfresh.
    pose proof (cache_holds_step _ _ _ _ Hinv Hlen) as Hnext.
    destruct (walk args (cache st)) as [fresh cache'] eqn:Hw.
    simpl in Hfresh, Hnext. rewrite Hfresh, Hmem, negb_involutive by done.
    destruct (existsb (list_obj_eqb args) earlier) eqn:Hex; simpl.
    + f_equal. by apply IH.
    + destruct args as [|a args]; simpl; f_equal; by apply IH.
  - apply Nat.eqb_neq in Hlen.
    rewrite (proj2 (Z.eqb_neq (Z.of_nat d) (Z.of_nat (length args))))
      by lia.
    simpl. f_equal. apply IH. by split.
Qed.

Lemma cache_holds_init d :
  cache_holds d [] (mkMemo (TrieNode []) (Z.of_nat d)).
Proof.
  split; [done|]. intros p _. simpl. rewrite mem_empty.
  destruct p; done.
Qed.

Lemma decorated_first args :
  decorated target args memo_init
  = decorated target args (mkMemo (TrieNode []) (Z.of_nat (length args))).
Proof.
  unfold decorated, memo_init. simpl.
  by rewrite (proj2 (Z.eqb_neq (Z.of_nat (length args)) (-1))) by lia.
Qed.

Lemma run_described calls :
  run target calls memo_init = described target calls.
Proof.
  destruct calls as [|first calls]; [done|].
  transitivity
    (run target (first :: calls)
       (mkMemo (TrieNode []) (Z.of_nat (length first)))).
  - simpl. by rewrite decorated_first.
  - apply run_described_from, cache_holds_init.
Qed.

Lemma described_from_at_most_once args calls : forall d earlier,
  invocations_with args calls (described_from target d earlier calls)
  <= (if existsb (list_obj_eqb args) earlier then 0 else 1).
Proof.
  induction calls as [|c calls IH]; intros d earlier; simpl; [lia|].
  destruct (Nat.eqb (length c) d); simpl.
  - destruct (existsb (list_obj_eqb c) earlier) eqn:Hex; simpl.
    + rewrite andb_false_r. simpl. specialize (IH d (c :: earlier)).
      simpl in IH. destruct (list_obj_eqb args c) eqn:Hac; simpl in IH.
      * unfold list_obj_eqb in Hac. apply bool_decide_eq_true in Hac.
        subst c. rewrite Hex. lia.
      * destruct (existsb (list_obj_eqb args) earlier); lia.
    + specialize (IH d (c :: earlier)). simpl in IH.
      unfold list_obj_eqb at 1 in IH.
      destruct (bool_decide (c = args)) eqn:Hca.
      * apply bool_decide_eq_true in Hca. subst c.
        rewrite bool_decide_eq_true_2 in IH by done. simpl in IH.
        rewrite Hex. destruct args; simpl; lia.
      * rewrite bool_decide_eq_false_2 in IH
          by (apply bool_decide_eq_false in Hca; congruence).
        simpl in *. destruct (existsb (list_obj_eqb args) earlier); lia.
  - rewrite andb_false_r. simpl. apply IH.
Qed.
End MemoFacts.

(** C9 (as amended).  From a freshly decorated method, any sequence of calls
    behaves as [described]: the first call fixes the arity; a call of another
    arity throws without invoking the target; a call of the right arity
    invokes the target and returns its result exactly when its tuple is
    non-empty and was not passed before, and returns undefined otherwise (in
    particular a call with no arguments never invokes the target).  Hence no
    tuple reaches the target more than once. *)
Theorem invokeAtMostOnceForArguments_behaviour
    {R : Type} (target : list obj -> R) (calls : list (list obj)) :
  run target calls memo_init = described target calls /\
  forall args,
    invocations_with args calls (run target calls memo_init) <= 1.
Proof.
  split; [apply run_described|].
  intros args. rewrite run_described. destruct calls as [|first calls].
  - simpl. lia.
  - unfold described.
    pose proof (described_from_at_most_once target args (first :: calls)
                  (length first) []) as H.
    simpl in H. simpl. lia.
Qed.

(** C9 as first stated fails on a method called with no arguments: the very
    first call with the empty tuple returns undefined and the target is not
    invoked, where the statement promises an invocation. *)
Lemma invokeAtMostOnceForArguments_empty_tuple :
  run (fun _ : list obj => 7) [[]] memo_init = [ReturnedUndefined] /\
  claimed (fun _ : list obj => 7) [[]] = [Invoked 7] /\
  run (fun _ : list obj => 7) [[]] memo_init
  <> claimed (fun _ : list obj => 7) [[]].
Proof. split; [reflexivity | split; [reflexivity | discriminate]]. Qed.

Section MoveableFacts.
Variable Class : ClassProto.
#[local] Abbreviation D := (moveable Class).

Lemma call_defined c st :
  defines Class c = true -> is_Some (call D c st).
Proof.
  destruct c; simpl; unfold moveable; simpl; intros ->; eauto.
Qed.

Lemma call_move_arms o st st' :
  call D (CallMove o) st = Some st' ->
  o ∈ instances st' /\ bodies st' = bodies st.
Proof.
  simpl. destruct (_ || _); simpl; [|done].
  intros [= <-]. simpl. split; [set_solver | done].
Qed.

Lemma wrapped_other original this o st :
  this <> o ->
  (o ∈ instances (wrapped original this st) <-> o ∈ instances st).
Proof.
  intros Hne. unfold wrapped. case_bool_decide; simpl; set_solver.
Qed.

Lemma call_other c o st st' :
  receiver c <> o -> call D c st = Some st' ->
  (o ∈ instances st' <-> o ∈ instances st).
Proof.
  intros Hne. destruct c as [o'|o'|o']; simpl in *.
  - destruct (_ || _); simpl; [|done]. intros [= <-]. simpl. set_solver.
  - destruct (definesDispose Class); simpl; [|done]. intros [= <-].
    by apply wrapped_other.
  - destruct (definesAsyncDispose Class); simpl; [|done]. intros [= <-].
    by apply wrapped_other.
Qed.

Lemma calls_others cs o : forall st st',
  Forall (fun c => receiver c <> o) cs -> calls D cs st = Some st' ->
  (o ∈ instances st' <-> o ∈ instances st).
Proof.
  induction cs as [|c cs IH]; intros st st' Hall; simpl.
  - by intros [= <-].
  - inversion Hall as [|? ? Hc Hcs]; subst.
    destruct (call D c st) as [st1|] eqn:E; [|done]. intros Hrest.
    rewrite (IH _ _ Hcs Hrest). by eapply call_other.
Qed.

Lemma call_not_move c o st st' :
  is_move_of o c = false -> call D c st = Some st' ->
  o ∉ instances st -> o ∉ instances st'.
Proof.
  destruct c as [o'|o'|o']; simpl.
  - intros Hne. apply Nat.eqb_neq in Hne.
    destruct (_ || _); simpl; [|done]. intros [= <-]. simpl. set_solver.
  - intros _. destruct (definesDispose Class); simpl; [|done].
    intros [= <-]. unfold wrapped. case_bool_decide; simpl; set_solver.
  - intros _. destruct (definesAsyncDispose Class); simpl; [|done].
    intros [= <-]. unfold wrapped. case_bool_decide; simpl; set_solver.
Qed.

Lemma calls_never_moved cs o : forall st st',
  existsb (is_move_of o) cs = false -> calls D cs st = Some st' ->
  o ∉ instances st -> o ∉ instances st'.
Proof.
  induction cs as [|c cs IH]; intros st st'; simpl.
  - by intros _ [= <-].
  - intros [Hc Hcs]%orb_false_elim.
    destruct (call D c st) as [st1|] eqn:E; [|done]. intros Hrest Hst.
    eapply IH; [done..|]. by eapply call_not_move.
Qed.

(** A disposal call on an instance marked by [move]: suppressed, and the
    mark is consumed. *)
Lemma disposal_suppressed c b st :
  defines Class c = true -> body_of c = Some b ->
  receiver c ∈ instances st ->
  exists st', call D c st = Some st' /\ bodies st' = bodies st /\
              receiver c ∉ instances st'.
Proof.
  destruct c as [o|o|o]; simpl; intros Hdef Hb Hin; [done|..];
    rewrite Hdef; simpl; eexists; (split; [done|]); unfold wrapped;
    rewrite bool_decide_eq_true_2 by done; simpl; set_solver.
Qed.

(** A disposal call on an unmarked instance runs the original body. *)
Lemma disposal_runs c b st :
  defines Class c = true -> body_of c = Some b ->
  receiver c ∉ instances st ->
  exists st', call D c st = Some st' /\ bodies st' = bodies st ++ [b].
Proof.
  destruct c as [o|o|o]; simpl; intros Hdef Hb Hin; [done|..];
    rewrite Hdef; simpl; eexists; (split; [done|]); unfold wrapped;
    rewrite bool_decide_eq_false_2 by done; simpl; congruence.
Qed.
End MoveableFacts.

(** C10.  For a class decorated with [moveable] that defines the disposal
    methods used, and any instance [o]: after [o.move()], whatever happens to
    other instances in between, the next disposal call on [o] (dispose or
    asyncDispose) runs no original body, and the disposal call on [o] after
    that one runs its original body; and an instance on which [move] was
    never called runs the original body on disposal. *)
Theorem moveable_suppression_one_shot
    (Class : ClassProto) (o : obj) (c1 c2 : MethodCall) (b1 b2 : BodyRun)
    (before between : list MethodCall) (st s1 : MoveState) :
  receiver c1 = o -> receiver c2 = o ->
  body_of c1 = Some b1 -> body_of c2 = Some b2 ->
  defines Class c1 = true -> defines Class c2 = true ->
  Forall (fun c => receiver c <> o) before ->
  Forall (fun c => receiver c <> o) between ->
  calls (moveable Class) (CallMove o :: before) st = Some s1 ->
  (exists s2,
      call (moveable Class) c1 s1 = Some s2 /\ bodies s2 = bodies s1 /\
      forall s3, calls (moveable Class) between s2 = Some s3 ->
        exists s4, call (moveable Class) c2 s3 = Some s4 /\
                   bodies s4 = bodies s3 ++ [b2]) /\
  (forall cs s,
      existsb (is_move_of o) cs = false ->
      calls (moveable Class) cs move_init = Some s ->
      exists s', call (moveable Class) c2 s = Some s' /\
                 bodies s' = bodies s ++ [b2]).
Proof.
  intros Hr1 Hr2 Hb1 Hb2 Hd1 Hd2 Hbefore Hbetween Hrun. split.
  - change (calls (moveable Class) (CallMove o :: before) st)
      with (match call (moveable Class) (CallMove o) st with
            | Some st' => calls (moveable Class) before st'
            | None => None
            end) in Hrun.
    destruct (call (moveable Class) (CallMove o) st) as [s0|] eqn:Emove;
      [|done].
    apply call_move_arms in Emove as [Harmed _].
    apply (calls_others Class before o s0 s1 Hbefore) in Hrun.
    apply Hrun in Harmed. rewrite <- Hr1 in Harmed.
    destruct (disposal_suppressed Class c1 b1 s1 Hd1 Hb1 Harmed)
      as (s2 & Hcall & Hbodies & Hout).
    exists s2. split; [done|]. split; [done|]. intros s3 Hbetw.
    apply (calls_others Class between o s2 s3 Hbetween) in Hbetw.
    apply (disposal_runs Class c2 b2 s3 Hd2 Hb2).
    rewrite Hr2. rewrite Hbetw. by rewrite <- Hr1.
  - intros cs s Hnomove Hcs.
    apply (disposal_runs Class c2 b2 s Hd2 Hb2). rewrite Hr2.
    eapply calls_never_moved; [done..|]. simpl. set_solver.
Qed.

Lemma moveable_suppression_one_shot_witness :
  let Class := mkProto true true in
  let o := 1 in
  let c1 := CallAsyncDispose 1 in
  let c2 := CallDispose 1 in
  let before := [CallMove 2] in
  let between := [CallDispose 2; CallDispose 3] in
  let s1 := mkMove ({[2]} ∪ ({[1]} ∪ ∅)) [] in
  (exists s2,
      call (moveable Class) c1 s1 = Some s2 /\ bodies s2 = bodies s1 /\
      forall s3, calls (moveable Class) between s2 = Some s3 ->
        exists s4, call (moveable Class) c2 s3 = Some s4 /\
                   bodies s4 = bodies s3 ++ [DisposeBody 1]) /\
  (forall cs s,
      existsb (is_move_of o) cs = false ->
      calls (moveable Class) cs move_init = Some s ->
      exists s', call (moveable Class) c2 s = Some s' /\
                 bodies s' = bodies s ++ [DisposeBody 1]).
Proof.
  intros Class o c1 c2 before between s1.
  apply (moveable_suppression_one_shot Class o c1 c2
           (AsyncDisposeBody 1) (DisposeBody 1) before between move_init s1);
    try reflexivity.
  - repeat constructor; simpl; lia.
  - repeat constructor; simpl; lia.
Defined.


(** ** More on [moveable]: what decides a suppression *)

Section MoveLast.
Variable Class : ClassProto.
#[local] Abbreviation D' := (moveable Class).

Lemma last_call_on_cons o c cs :
  last_call_on o (c :: cs)
  = if bool_decide (receiver c = o)
    then match last_call_on o cs with Some c' => Some c' | None => Some c end
    else last_call_on o cs.
Proof.
  unfold last_call_on. case_bool_decide as H.
  - rewrite filter_cons_True by done.
    destruct (filter _ cs) as [|c' l] eqn:E; [done|].
    change (last (c :: c' :: l)) with (last (c' :: l)).
    destruct (last (c' :: l)) eqn:El; [done|].
    by apply last_None in El.
  - by rewrite filter_cons_False by done.
Qed.

Lemma last_call_on_receiver o cs c :
  last_call_on o cs = Some c -> receiver c = o.
Proof.
  unfold last_call_on. intros H%last_Some_elem_of.
  by apply list_elem_of_filter in H as [? _].
Qed.

Lemma call_on_receiver c st st' :
  call D' c st = Some st' ->
  (receiver c ∈ instances st' <-> c = CallMove (receiver c)).
Proof.
  destruct c as [o|o|o]; simpl.
  - destruct (_ || _); simpl; [|done]. intros [= <-]. simpl. set_solver.
  - destruct (definesDispose Class); simpl; [|done]. intros [= <-].
    unfold wrapped. case_bool_decide; simpl; set_solver.
  - destruct (definesAsyncDispose Class); simpl; [|done]. intros [= <-].
    unfold wrapped. case_bool_decide; simpl; set_solver.
Qed.

(** An instance is marked exactly when the last call made on it was
    [move]. *)
Lemma calls_marked_iff cs o : forall st s,
  calls D' cs st = Some s ->
  (o ∈ instances s <->
   match last_call_on o cs with
   | Some c => c = CallMove o
   | None => o ∈ instances st
   end).
Proof.
  induction cs as [|c cs IH]; intros st s; simpl.
  - by intros [= <-].
  - destruct (call D' c st) as [st1|] eqn:E; [|done]. intros Hrest.
    rewrite (IH _ _ Hrest), last_call_on_cons.
    case_bool_decide as Hc.
    + destruct (last_call_on o cs); [done|].
      subst o. by apply call_on_receiver in E.
    + destruct (last_call_on o cs); [done|]. by eapply call_other.
Qed.
End MoveLast.

(** X1.  On a freshly loaded module, after any sequence of [move],
    [dispose] and [asyncDispose] calls on any instances of a class decorated
    with [moveable], a disposal call is suppressed exactly when the most
    recent earlier call on the same instance was [move]; otherwise it runs
    its original body.  Moves are not counted: several [move] calls in a row
    suppress one disposal only. *)
Theorem moveable_suppressed_iff_last_call_move
    (Class : ClassProto) (cs : list MethodCall) (c : MethodCall)
    (b : BodyRun) (s : MoveState) :
  defines Class c = true -> body_of c = Some b ->
  calls (moveable Class) cs move_init = Some s ->
  exists s', call (moveable Class) c s = Some s' /\
             bodies s' = bodies s ++ disposal_effect cs c b.
Proof.
  intros Hdef Hb Hcs.
  pose proof (calls_marked_iff Class cs (receiver c) _ _ Hcs) as Hmark.
  unfold disposal_effect.
  destruct (last_call_on (receiver c) cs) as [c'|] eqn:Hlast.
  - pose proof (last_call_on_receiver _ _ _ Hlast) as Hrc.
    destruct c' as [o'|o'|o']; simpl in Hrc; subst o'.
    + destruct (disposal_suppressed Class c b s Hdef Hb) as (s' & ? & ? & _);
        [by apply Hmark|].
      exists s'. by rewrite app_nil_r.
    + apply (disposal_runs Class c b s Hdef Hb). by rewrite Hmark.
    + apply (disposal_runs Class c b s Hdef Hb). by rewrite Hmark.
  - apply (disposal_runs Class c b s Hdef Hb). rewrite Hmark. set_solver.
Qed.

Lemma moveable_suppressed_iff_last_call_move_witness :
  let Class := mkProto true false in
  let cs := [CallMove 1; CallMove 1; CallDispose 1; CallMove 2] in
  exists s',
    call (moveable Class) (CallDispose 1) (mkMove ({[2]} ∪ ∅) []) = Some s' /\
    bodies s' = [DisposeBody 1].
Proof.
  intros Class cs.
  apply (moveable_suppressed_iff_last_call_move Class cs (CallDispose 1)
           (DisposeBody 1) (mkMove ({[2]} ∪ ∅) [])); reflexivity.
Defined.

(** ** More on [invokeAtMostOnceForArguments]: a first call without
    arguments *)

Lemma described_from_nullary {R} (target : list obj -> R) calls :
  forall earlier,
    described_from target 0 earlier calls
    = map (fun args : list obj =>
             match args with
             | [] => ReturnedUndefined
             | _ :: _ => Threw wrong_arity_message
             end) calls.
Proof.
  induction calls as [|args calls IH]; intros earlier; [done|].
  destruct args as [|a args]; simpl.
  - destruct (existsb _ earlier); simpl; f_equal; apply IH.
  - f_equal. apply IH.
Qed.

(** X2.  A decorated method whose first call passes no arguments never
    reaches its target, whatever is called afterwards: every later call
    without arguments returns undefined and every call with arguments
    throws the wrong-arity error. *)
Theorem invokeAtMostOnceForArguments_nullary_first
    {R : Type} (target : list obj -> R) (calls : list (list obj)) :
  run target ([] :: calls) memo_init
  = map (fun args : list obj =>
           match args with
           | [] => ReturnedUndefined
           | _ :: _ => Threw wrong_arity_message
           end) ([] :: calls).
Proof.
  rewrite run_described. unfold described.
  change (length (@nil obj)) with 0. apply described_from_nullary.
Qed.

End DecoratorsSpec.

(* ===================================================================== *)
(** * Properties of the frame manager *)
(* ===================================================================== *)

Module FrameManagerSpec.
Import Cdp Scenario.

(** ** The insertion-ordered map *)

Section MapFacts.
Context {V : Type}.
Implicit Types (l : list (string * V)) (k : string) (v : V).

Lemma map_get_set_eq l k v : map_get (map_set l k v) k = Some v.
Proof.
  induction l as [|[k' v'] l IH]; simpl.
  - by rewrite String.eqb_refl.
  - destruct (String.eqb k' k) eqn:E; simpl; rewrite E; auto.
Qed.

Lemma map_get_set_ne l k k' v :
  k <> k' -> map_get (map_set l k v) k' = map_get l k'.
Proof.
  intros Hne. induction l as [|[k0 v0] l IH]; simpl.
  - by rewrite (proj2 (String.eqb_neq k k')).
  - destruct (String.eqb k0 k) eqn:E; simpl.
    + apply String.eqb_eq in E. subst k0.
      by rewrite (proj2 (String.eqb_neq k k')).
    + destruct (String.eqb k0 k'); auto.
Qed.

Lemma map_get_delete_eq l k : map_get (map_delete l k) k = None.
Proof.
  unfold map_delete. induction l as [|[k' v'] l IH]; [done|].
  rewrite filter_cons. simpl.
  destruct (String.eqb k' k) eqn:E; simpl; [done|]. by rewrite E.
Qed.

Lemma map_get_delete_ne l k k' :
  k <> k' -> map_get (map_delete l k) k' = map_get l k'.
Proof.
  intros Hne. unfold map_delete.
  induction l as [|[k0 v0] l IH]; [done|].
  rewrite filter_cons. simpl.
  destruct (String.eqb k0 k) eqn:E; simpl.
  - apply String.eqb_eq in E. subst k0.
    by rewrite (proj2 (String.eqb_neq k k')).
  - by rewrite IH.
Qed.

Lemma map_get_Some_elem l k v : map_get l k = Some v -> (k, v) ∈ l.
Proof.
  induction l as [|[k' v'] l IH]; simpl; [done|].
  destruct (String.eqb k' k) eqn:E.
  - apply String.eqb_eq in E. intros [= ->]. subst. left.
  - intros H. right. auto.
Qed.
End MapFacts.

Lemma context_key_inj session i j :
  context_key session i = context_key session j -> i = j.
Proof.
  unfold context_key. intros H.
  apply (inj (String.app _)) in H. apply (inj (String.app _)) in H.
  by apply (inj pretty) in H.
Qed.

(** ** Stale lifecycle events *)

Lemma _onLifecycleEvent_stale loaderId name f :
  loaderId <> _loaderId f -> _onLifecycleEvent loaderId name f = f.
Proof.
  intros Hne. unfold _onLifecycleEvent.
  by rewrite (proj2 (String.eqb_neq _ _) Hne).
Qed.

(** C7 (as amended).  For a Frame registered in the tree and a lifecycle
    event whose loader id is not the Frame's current one, no Frame changes
    (lifecycle flags, URL and loader id included), nor do the tree, the
    context registry or any other part of the manager; but the handler does
    not drop the event: it still emits [LifecycleEvent] on the manager and on
    the Frame.  Only an event for an unknown frame id is dropped whole. *)
Theorem onLifecycleEvent_stale_loader
    (m : FrameManager) (event : LifecycleEventEvent) (fr : obj) (f : CdpFrame) :
  frame (lifecycle_frameId event) m = Some fr ->
  frameObjs m !! fr = Some f ->
  lifecycle_loaderId event <> _loaderId f ->
  let m' := onLifecycleEvent event m in
  frameObjs m' = frameObjs m /\
  _frameTree m' = _frameTree m /\
  contextIdToContext m' = contextIdToContext m /\
  contextObjs m' = contextObjs m /\
  failedWaits m' = failedWaits m /\
  awaitingSwap m' = awaitingSwap m /\
  microtasks m' = microtasks m /\
  emitted m' =
    emitted m ++ [ManagerEmit FrameManagerEvent.LifecycleEvent fr;
                  FrameEmit fr FrameEvent.LifecycleEvent] /\
  (forall other, frame (lifecycle_frameId other) m = None ->
                 onLifecycleEvent other m = m).
Proof.
  intros Hfr Hf Hstale m'. subst m'. unfold onLifecycleEvent. rewrite Hfr.
  simpl. repeat split.
  - apply alter_id. intros x Hx. rewrite Hf in Hx. injection Hx as <-.
    by apply _onLifecycleEvent_stale.
  - by rewrite <- app_assoc.
  - intros other Hnone. unfold onLifecycleEvent. by rewrite Hnone.
Qed.

Lemma onLifecycleEvent_stale_loader_witness :
  let m' := onLifecycleEvent stale_load rootA in
  frameObjs m' = frameObjs rootA /\
  _frameTree m' = _frameTree rootA /\
  contextIdToContext m' = contextIdToContext rootA /\
  contextObjs m' = contextObjs rootA /\
  failedWaits m' = failedWaits rootA /\
  awaitingSwap m' = awaitingSwap rootA /\
  microtasks m' = microtasks rootA /\
  emitted m' =
    emitted rootA ++ [ManagerEmit FrameManagerEvent.LifecycleEvent 0;
                      FrameEmit 0 FrameEvent.LifecycleEvent] /\
  (forall other, frame (lifecycle_frameId other) rootA = None ->
                 onLifecycleEvent other rootA = rootA).
Proof.
  apply (onLifecycleEvent_stale_loader rootA stale_load 0 frameA).
  - vm_compute. reflexivity.
  - vm_compute. reflexivity.
  - vm_compute. discriminate.
Defined.

(** C7 as first stated fails: the ["load"] event of the superseded loader
    [L0] for frame [A] (current loader [L1]) is not dropped without trace;
    two [LifecycleEvent] notifications come out of it. *)
Lemma onLifecycleEvent_stale_still_notifies :
  lifecycle_loaderId stale_load <> "L1" /\
  (_loaderId <$> frameObjs rootA !! 0) = Some "L1" /\
  emitted (onLifecycleEvent stale_load rootA) =
    emitted rootA ++ [ManagerEmit FrameManagerEvent.LifecycleEvent 0;
                      FrameEmit 0 FrameEvent.LifecycleEvent] /\
  onLifecycleEvent stale_load rootA <> rootA.
Proof.
  split; [vm_compute; discriminate|]. split; [vm_compute; reflexivity|].
  split; [vm_compute; reflexivity|].
  intros H. apply (f_equal emitted) in H. vm_compute in H. discriminate.
Qed.

(** ** Well-keyed trees *)

Lemma well_keyed_lookup m frameId fr :
  well_keyed m = true -> frame frameId m = Some fr ->
  exists f, frameObjs m !! fr = Some f /\ _id f = frameId.
Proof.
  unfold well_keyed, frame, getById.
  intros [_ Hall]%andb_prop Hget. apply map_get_Some_elem in Hget.
  rewrite forallb_forall in Hall.
  apply list_elem_of_In, Hall in Hget. unfold keyed_entry in Hget.
  simpl in Hget. destruct (frameObjs m !! fr) as [f|]; [|done].
  exists f. split; [done|]. by apply String.eqb_eq.
Qed.

Lemma alter_lookup_insert (h : gmap obj CdpFrame) r g f :
  h !! r = Some f -> alter g r h = <[r := g f]> h.
Proof.
  intros Hf. apply map_eq. intros i. destruct (decide (r = i)) as [->|Hne].
  - by rewrite lookup_alter_eq, lookup_insert_eq, Hf.
  - by rewrite lookup_alter_ne, lookup_insert_ne.
Qed.

(** ** Duplicate attach *)

Lemma onFrameAttached_existing session frameId parentFrameId m fr f :
  frame frameId m = Some fr -> frameObjs m !! fr = Some f ->
  onFrameAttached session frameId parentFrameId m
  = if isOOPFrame f m then update_frame fr (updateClient session false) m
    else m.
Proof. intros Hfr Hf. unfold onFrameAttached. by rewrite Hfr, Hf. Qed.

Lemma onFrameAttached_registers session frameId parentFrameId m :
  well_keyed m = true ->
  exists fr f,
    frame frameId (onFrameAttached session frameId parentFrameId m) = Some fr /\
    frameObjs (onFrameAttached session frameId parentFrameId m) !! fr = Some f.
Proof.
  intros Hwf. destruct (frame frameId m) as [fr|] eqn:Hfr.
  - destruct (well_keyed_lookup _ _ _ Hwf Hfr) as (f & Hf & _).
    rewrite (onFrameAttached_existing _ _ _ _ _ _ Hfr Hf).
    destruct (isOOPFrame f m).
    + exists fr, (updateClient session false f). split; [done|].
      simpl. by rewrite lookup_alter_eq, Hf.
    + by exists fr, f.
  - unfold onFrameAttached. rewrite Hfr. unfold tree_addFrame, alloc_frame.
    simpl. rewrite lookup_insert_eq. simpl.
    exists (nextObj m), (new_CdpFrame frameId (Some parentFrameId) session).
    split; [|by rewrite lookup_insert_eq].
    unfold frame, getById. simpl. apply map_get_set_eq.
Qed.

(** C4 (as amended).  Of two attach events carrying the same frame id, the
    second constructs no Frame object, leaves the tree as it is and emits no
    notification.  It rebinds the existing Frame's session to the event's
    session only when that Frame is out-of-process (its session is not the
    manager's own); on an in-process Frame the duplicate has no effect. *)
Theorem onFrameAttached_duplicate
    (m : FrameManager) (s1 s2 : CDPSession) (frameId p1 p2 : string) :
  well_keyed m = true ->
  let m1 := onFrameAttached s1 frameId p1 m in
  let m2 := onFrameAttached s2 frameId p2 m1 in
  exists fr f,
    frame frameId m1 = Some fr /\ frameObjs m1 !! fr = Some f /\
    nextObj m2 = nextObj m1 /\
    dom (frameObjs m2) = dom (frameObjs m1) /\
    _frameTree m2 = _frameTree m1 /\
    emitted m2 = emitted m1 /\
    microtasks m2 = microtasks m1 /\
    contextIdToContext m2 = contextIdToContext m1 /\
    contextObjs m2 = contextObjs m1 /\
    client m2 = client m1 /\
    frameObjs m2 =
      <[fr := if isOOPFrame f m1 then updateClient s2 false f else f]>
        (frameObjs m1).
Proof.
  intros Hwf m1 m2.
  destruct (onFrameAttached_registers s1 frameId p1 m Hwf) as (fr & f & Hfr & Hf).
  fold m1 in Hfr, Hf. exists fr, f. split; [done|]. split; [done|].
  subst m2. rewrite (onFrameAttached_existing _ _ _ _ _ _ Hfr Hf).
  destruct (isOOPFrame f m1); simpl.
  - rewrite (alter_lookup_insert _ _ _ _ Hf).
    repeat split; try done. apply dom_insert_lookup_L. by exists f.
  - repeat split; try done. symmetry. by apply insert_id.
Qed.

Lemma onFrameAttached_duplicate_witness :
  well_keyed rootA = true /\
  let m1 := onFrameAttached page "B" "A" rootA in
  let m2 := onFrameAttached oopif "B" "A" m1 in
  exists fr f,
    frame "B" m1 = Some fr /\ frameObjs m1 !! fr = Some f /\
    nextObj m2 = nextObj m1 /\
    dom (frameObjs m2) = dom (frameObjs m1) /\
    _frameTree m2 = _frameTree m1 /\
    emitted m2 = emitted m1 /\
    microtasks m2 = microtasks m1 /\
    contextIdToContext m2 = contextIdToContext m1 /\
    contextObjs m2 = contextObjs m1 /\
    client m2 = client m1 /\
    frameObjs m2 =
      <[fr := if isOOPFrame f m1 then updateClient oopif false f else f]>
        (frameObjs m1).
Proof.
  split; [vm_compute; reflexivity|].
  apply (onFrameAttached_duplicate rootA page oopif "B" "A" "A").
  vm_compute; reflexivity.
Defined.

(** C4 as first stated fails: frame [B] is attached in-process by the page
    session; a second attach for [B] arriving on another session does not
    rebind [B] to that session (it does nothing at all). *)
Lemma onFrameAttached_duplicate_keeps_session :
  let m1 := onFrameAttached page "B" "A" rootA in
  let m2 := onFrameAttached oopif "B" "A" m1 in
  frame "B" m2 = Some 1 /\
  (frame_client <$> frameObjs m2 !! 1) = Some page /\
  (frame_client <$> frameObjs m2 !! 1) <> Some oopif /\
  m2 = m1.
Proof.
  split; [vm_compute; reflexivity|]. split; [vm_compute; reflexivity|].
  split; [vm_compute; discriminate|]. vm_compute; reflexivity.
Qed.

(** ** Worlds and execution contexts *)

Lemma world_holds_setContext_eq m w c :
  is_Some (frameObjs m !! w.1) ->
  world_holds (world_setContext w c m) w = Some c.
Proof.
  intros [f Hf]. unfold world_holds, world_setContext, update_frame. simpl.
  rewrite lookup_alter_eq, Hf. simpl. by destruct (w.2).
Qed.

Lemma world_holds_setContext_ne m w w' c :
  w <> w' -> world_holds (world_setContext w c m) w' = world_holds m w'.
Proof.
  intros Hne. unfold world_holds, world_setContext, update_frame. simpl.
  destruct (decide (w.1 = w'.1)) as [Heq|Hne1].
  - rewrite Heq, lookup_alter_eq. destruct (frameObjs m !! w'.1) as [f|]; [|done].
    simpl. destruct w as [r k], w' as [r' k']. simpl in *. subst r'.
    destruct k, k'; try done; exfalso; by apply Hne.
  - by rewrite lookup_alter_ne.
Qed.

Lemma world_holds_registry m reg w :
  world_holds (set_contextIdToContext reg m) w = world_holds m w.
Proof. done. Qed.

Lemma world_holds_alloc_context m c w :
  world_holds (alloc_context c m) w = world_holds m w.
Proof. done. Qed.

(** A World that holds a context keeps it through any context-created
    event: the utility World is only ever bound when it is empty. *)
Lemma onExecutionContextCreated_keeps_utility m contextPayload session fr c0 :
  world_holds m (fr, PUPPETEER_WORLD) = Some c0 ->
  world_holds (onExecutionContextCreated contextPayload session m)
    (fr, PUPPETEER_WORLD) = Some c0.
Proof.
  intros Hheld. unfold onExecutionContextCreated.
  destruct (match auxData_frameId contextPayload with
            | Some frameId => frame frameId m | None => None end)
    as [fr'|]; [|done].
  destruct (frameObjs m !! fr') as [f|] eqn:Hf; [|done].
  destruct (negb (bool_decide (frame_client f = session))); [done|].
  destruct (auxData_isDefault contextPayload).
  - rewrite world_holds_registry, world_holds_setContext_ne by congruence.
    by rewrite world_holds_alloc_context.
  - destruct (String.eqb _ _); simpl; [|done].
    destruct (hasContext (isolatedRealm f)) eqn:Hhas; simpl; [done|].
    rewrite world_holds_registry.
    destruct (decide (fr' = fr)) as [->|Hne].
    + unfold world_holds in Hheld. simpl in Hheld. rewrite Hf in Hheld.
      simpl in Hheld. unfold hasContext in Hhas. by rewrite Hheld in Hhas.
    + rewrite world_holds_setContext_ne by congruence.
      by rewrite world_holds_alloc_context.
Qed.

(** When the utility World of the named frame holds a context, a further
    utility-world context for it changes nothing at all. *)
Lemma onExecutionContextCreated_utility_noop m contextPayload session
    frameId fr c0 :
  names_utility_world frameId contextPayload = true ->
  frame frameId m = Some fr ->
  world_holds m (fr, PUPPETEER_WORLD) = Some c0 ->
  onExecutionContextCreated contextPayload session m = m.
Proof.
  unfold names_utility_world.
  intros [[Hid Hnd]%andb_prop Hname]%andb_prop Hfr Hheld.
  apply bool_decide_eq_true in Hid. apply negb_true_iff in Hnd.
  unfold onExecutionContextCreated. rewrite Hid, Hfr, Hnd, Hname.
  unfold world_holds in Hheld. simpl in Hheld.
  destruct (frameObjs m !! fr) as [f|]; [|done]. simpl in Hheld.
  destruct (negb (bool_decide (frame_client f = session))); [done|].
  simpl. unfold hasContext. by rewrite Hheld.
Qed.

(** The utility World of a frame changes hands in a context-created event
    only if it was empty and the event names the utility world. *)
Lemma onExecutionContextCreated_binds_only_empty m contextPayload session fr :
  world_holds (onExecutionContextCreated contextPayload session m)
    (fr, PUPPETEER_WORLD) <> world_holds m (fr, PUPPETEER_WORLD) ->
  world_holds m (fr, PUPPETEER_WORLD) = None /\
  context_name contextPayload = UTILITY_WORLD_NAME /\
  auxData_isDefault contextPayload = false /\
  world_holds (onExecutionContextCreated contextPayload session m)
    (fr, PUPPETEER_WORLD) = Some (nextObj m).
Proof.
  intros Hchg.
  destruct (world_holds m (fr, PUPPETEER_WORLD)) as [c0|] eqn:Hheld.
  { exfalso. apply Hchg.
    by apply onExecutionContextCreated_keeps_utility. }
  split; [done|]. revert Hchg. unfold onExecutionContextCreated.
  destruct (match auxData_frameId contextPayload with
            | Some frameId => frame frameId m | None => None end)
    as [fr'|]; [|by rewrite Hheld].
  destruct (frameObjs m !! fr') as [f|] eqn:Hf; [|by rewrite Hheld].
  destruct (negb (bool_decide (frame_client f = session)));
    [by rewrite Hheld|].
  destruct (auxData_isDefault contextPayload).
  - rewrite world_holds_registry, world_holds_setContext_ne by congruence.
    rewrite world_holds_alloc_context. by rewrite Hheld.
  - destruct (String.eqb _ _) eqn:Hname; simpl; [|by rewrite Hheld].
    destruct (hasContext (isolatedRealm f)); simpl; [by rewrite Hheld|].
    rewrite world_holds_registry. intros Hchg.
    apply String.eqb_eq in Hname. split; [done|]. split; [done|].
    destruct (decide (fr' = fr)) as [->|Hne].
    + apply world_holds_setContext_eq. simpl. by exists f.
    + exfalso. apply Hchg.
      rewrite world_holds_setContext_ne by congruence.
      by rewrite world_holds_alloc_context.
Qed.

(** The first utility-world context of a frame is constructed, bound and
    registered. *)
Lemma onExecutionContextCreated_first_utility m contextPayload session
    frameId fr f :
  names_utility_world frameId contextPayload = true ->
  frame frameId m = Some fr ->
  frameObjs m !! fr = Some f ->
  frame_client f = session ->
  context (isolatedRealm f) = None ->
  let m1 := onExecutionContextCreated contextPayload session m in
  world_holds m1 (fr, PUPPETEER_WORLD) = Some (nextObj m) /\
  contextObjs m1 !! nextObj m
    = Some (mkContext session (context_id contextPayload)
              (context_name contextPayload) (Some (fr, PUPPETEER_WORLD))) /\
  getExecutionContextById (context_id contextPayload) session m1
    = Some (nextObj m) /\
  nextObj m1 = S (nextObj m) /\
  frame frameId m1 = Some fr /\
  (forall i, i <> context_id contextPayload ->
     getExecutionContextById i session m1
     = getExecutionContextById i session m).
Proof.
  unfold names_utility_world.
  intros [[Hid Hnd]%andb_prop Hname]%andb_prop Hfr Hf Hclient Hempty.
  apply bool_decide_eq_true in Hid. apply negb_true_iff in Hnd.
  cbv zeta. unfold onExecutionContextCreated.
  rewrite Hid, Hfr, Hf, Hnd, Hname. simpl.
  rewrite bool_decide_eq_true_2 by done. simpl.
  unfold hasContext. rewrite Hempty. simpl.
  split; [|split; [|split; [|split; [|split]]]].
  - rewrite world_holds_registry. apply world_holds_setContext_eq.
    simpl. by exists f.
  - simpl. by rewrite lookup_insert_eq, Hclient.
  - unfold getExecutionContextById. simpl. apply map_get_set_eq.
  - done.
  - done.
  - intros i Hi. unfold getExecutionContextById. simpl.
    apply map_get_set_ne. intros Heq. apply context_key_inj in Heq. done.
Qed.

(** C8 (as amended).  Of two context-created events on the frame's own
    session that both name the reserved utility world for the same frame
    (whose utility World is empty to begin with), the first constructs one
    ExecutionContext, binds it to the utility World and registers it; the
    second is dropped before any ExecutionContext is constructed for it: the
    state does not change, the World still holds the first context, and
    registry lookup by the second event's context id finds what it found
    before the two events (nothing, for an id not seen before). *)
Theorem utility_context_created_twice
    (m : FrameManager) (session : CDPSession)
    (first second : ExecutionContextDescription)
    (frameId : string) (fr : obj) (f : CdpFrame) :
  names_utility_world frameId first = true ->
  names_utility_world frameId second = true ->
  frame frameId m = Some fr ->
  frameObjs m !! fr = Some f ->
  frame_client f = session ->
  context (isolatedRealm f) = None ->
  let m1 := onExecutionContextCreated first session m in
  let m2 := onExecutionContextCreated second session m1 in
  m2 = m1 /\
  nextObj m2 = S (nextObj m) /\
  world_holds m2 (fr, PUPPETEER_WORLD) = Some (nextObj m) /\
  contextObjs m2 !! nextObj m
    = Some (mkContext session (context_id first) (context_name first)
              (Some (fr, PUPPETEER_WORLD))) /\
  getExecutionContextById (context_id first) session m2 = Some (nextObj m) /\
  (context_id second <> context_id first ->
   getExecutionContextById (context_id second) session m2
   = getExecutionContextById (context_id second) session m).
Proof.
  intros Hfirst Hsecond Hfr Hf Hclient Hempty m1 m2.
  destruct (onExecutionContextCreated_first_utility m first session frameId
              fr f Hfirst Hfr Hf Hclient Hempty)
    as (Hheld & Hctx & Hget & Hnext & Hfr1 & Hother).
  fold m1 in Hheld, Hctx, Hget, Hnext, Hfr1, Hother.
  assert (m2 = m1) as Heq.
  { subst m2. by eapply onExecutionContextCreated_utility_noop. }
  rewrite Heq. repeat split; try done. intros Hne. by apply Hother.
Qed.

Lemma utility_context_created_twice_witness :
  let m1 := onExecutionContextCreated (utility_context 1) page rootA in
  let m2 := onExecutionContextCreated (utility_context 2) page m1 in
  m2 = m1 /\
  nextObj m2 = S (nextObj rootA) /\
  world_holds m2 (0, PUPPETEER_WORLD) = Some (nextObj rootA) /\
  contextObjs m2 !! nextObj rootA
    = Some (mkContext page 1 UTILITY_WORLD_NAME (Some (0, PUPPETEER_WORLD))) /\
  getExecutionContextById 1 page m2 = Some (nextObj rootA) /\
  ((2 <> 1)%Z ->
   getExecutionContextById 2 page m2 = getExecutionContextById 2 page rootA).
Proof.
  apply (utility_context_created_twice rootA page (utility_context 1)
           (utility_context 2) "A" 0 frameA);
    vm_compute; reflexivity.
Defined.

(** C8 as first stated fails: after two utility-world context-created events
    (context ids 1 and 2) for frame [A] on its session, the second context is
    not reachable by registry lookup; only the first was ever registered. *)
Lemma second_utility_context_not_registered :
  let m1 := onExecutionContextCreated (utility_context 1) page rootA in
  let m2 := onExecutionContextCreated (utility_context 2) page m1 in
  getExecutionContextById 2 page m2 = None /\
  getExecutionContextById 1 page m2 = Some 1 /\
  world_holds m2 (0, PUPPETEER_WORLD) = Some 1 /\
  contextIdToContext m2 = [("page:1", 1)].
Proof. vm_compute. repeat split; reflexivity. Qed.

(** ** Removing one frame *)

Lemma Subtree_rect' (P : Subtree -> Prop) :
  (forall r kids, Forall P kids -> P (Sub r kids)) -> forall t, P t.
Proof.
  intros Hnode. fix IH 1. intros [r kids]. apply Hnode.
  induction kids as [|k kids IHkids]; constructor; [apply IH | apply IHkids].
Qed.

Lemma distinct_map_get {V} (l : list (string * V)) k v :
  distinct (map fst l) = true -> (k, v) ∈ l -> map_get l k = Some v.
Proof.
  induction l as [|[k0 v0] l IH]; simpl; [by intros _ ?%elem_of_nil|].
  intros [Hhead Htail]%andb_prop [Heq|Hin]%elem_of_cons.
  - injection Heq as -> ->. by rewrite String.eqb_refl.
  - destruct (String.eqb k0 k) eqn:E; [|by apply IH].
    apply String.eqb_eq in E. subst k0. exfalso.
    apply negb_true_iff in Hhead.
    assert (existsb (String.eqb k) (map fst l) = true) as Hex; [|congruence].
    apply existsb_exists. exists k. split; [|apply String.eqb_refl].
    apply in_map_iff. exists (k, v). split; [done|]. by apply list_elem_of_In.
Qed.

Lemma distinct_filter {V} (P : string * V -> bool) (l : list (string * V)) :
  distinct (map fst l) = true -> distinct (map fst (filter P l)) = true.
Proof.
  induction l as [|e l IH]; [done|]. simpl.
  intros [Hhead Htail]%andb_prop. rewrite filter_cons.
  destruct (decide (P e)); [|by apply IH]. simpl. apply andb_true_intro.
  split; [|by apply IH]. apply negb_true_iff. apply negb_true_iff in Hhead.
  destruct (existsb _ (map fst (filter P l))) eqn:Hex; [|done].
  rewrite <- Hhead. symmetry. apply existsb_exists.
  apply existsb_exists in Hex as (k & Hin & Hk). exists k. split; [|done].
  apply in_map_iff in Hin as (e' & <- & Hin). apply in_map_iff. exists e'.
  split; [done|]. apply list_elem_of_In.
  apply list_elem_of_In in Hin. by apply list_elem_of_filter in Hin as [_ ?].
Qed.

Section DetachOne.
Variables (x : obj) (m : FrameManager).

Lemma detach_one_frameObjs :
  frameObjs (detach_one x m)
  = match frameObjs m !! x with
    | Some f => <[x := dispose_frame f]> (frameObjs m)
    | None => frameObjs m
    end.
Proof.
  unfold detach_one, tree_removeFrame, frame_dispose.
  destruct (frameObjs m !! x) as [f|] eqn:Hx; simpl.
  - by rewrite lookup_insert_eq.
  - by rewrite Hx.
Qed.

Lemma detach_one_tree :
  _frameTree (detach_one x m)
  = match frameObjs m !! x with
    | Some f => removeFrame f (_frameTree m)
    | None => _frameTree m
    end.
Proof.
  unfold detach_one, tree_removeFrame, frame_dispose.
  destruct (frameObjs m !! x) as [f|] eqn:Hx; simpl.
  - by rewrite lookup_insert_eq.
  - by rewrite Hx.
Qed.

Lemma detach_one_emitted :
  emitted (detach_one x m) = emitted m ++ detach_notifications x.
Proof.
  unfold detach_one, tree_removeFrame, frame_dispose.
  destruct (frameObjs m !! x) as [f|] eqn:Hx; simpl.
  - rewrite lookup_insert_eq. simpl. by rewrite <- app_assoc.
  - rewrite Hx. simpl. by rewrite <- app_assoc.
Qed.

Lemma detach_one_failedWaits :
  failedWaits (detach_one x m)
  = failedWaits m
    ++ match frameObjs m !! x with
       | Some f => map (fun d => (d, TargetClosed)) (pendingWaits f)
       | None => []
       end.
Proof.
  unfold detach_one, tree_removeFrame, frame_dispose.
  destruct (frameObjs m !! x) as [f|] eqn:Hx; simpl.
  - by rewrite lookup_insert_eq.
  - rewrite Hx. simpl. by rewrite app_nil_r.
Qed.

Lemma detach_one_rest :
  client (detach_one x m) = client m /\
  contextIdToContext (detach_one x m) = contextIdToContext m /\
  contextObjs (detach_one x m) = contextObjs m /\
  nextObj (detach_one x m) = nextObj m /\
  awaitingSwap (detach_one x m) = awaitingSwap m /\
  microtasks (detach_one x m) = microtasks m /\
  frameNavigatedReceived (detach_one x m) = frameNavigatedReceived m /\
  now (detach_one x m) = now m.
Proof.
  unfold detach_one, tree_removeFrame, frame_dispose.
  destruct (frameObjs m !! x) as [f|] eqn:Hx; simpl.
  - by rewrite lookup_insert_eq.
  - by rewrite Hx.
Qed.

(** Disposal changes neither the id nor the parent id of any Frame. *)
Lemma detach_one_lookup y :
  frameObjs (detach_one x m) !! y
  = (fun f => if decide (x = y) then dispose_frame f else f)
      <$> frameObjs m !! y.
Proof.
  rewrite detach_one_frameObjs.
  destruct (frameObjs m !! x) as [f|] eqn:Hx.
  - destruct (decide (x = y)) as [<-|Hne].
    + by rewrite lookup_insert_eq, Hx.
    + rewrite lookup_insert_ne by done. by destruct (frameObjs m !! y).
  - destruct (decide (x = y)) as [<-|Hne].
    + by rewrite Hx.
    + by destruct (frameObjs m !! y).
Qed.
End DetachOne.

Lemma live_spec m x :
  live m x = true <->
  exists f, frameObjs m !! x = Some f /\ frame (_id f) m = Some x.
Proof.
  unfold live. split.
  - destruct (frameObjs m !! x) as [f|]; [|done].
    destruct (frame (_id f) m) as [y|] eqn:Hy; [|done].
    intros ->%Nat.eqb_eq. eauto.
  - intros (f & -> & ->). apply Nat.eqb_refl.
Qed.

Lemma well_keyed_entry m k z :
  well_keyed m = true -> (k, z) ∈ frames (_frameTree m) ->
  frame k m = Some z /\ exists f, frameObjs m !! z = Some f /\ _id f = k.
Proof.
  unfold well_keyed. intros [Hd Hall]%andb_prop Hin. split.
  - by apply distinct_map_get.
  - rewrite forallb_forall in Hall.
    apply list_elem_of_In, Hall in Hin. unfold keyed_entry in Hin.
    simpl in Hin. destruct (frameObjs m !! z) as [f|]; [|done].
    exists f. split; [done|]. by apply String.eqb_eq.
Qed.

Lemma children_are_entries m y c :
  c ∈ frame_childFrames y m ->
  exists fy fc k,
    frameObjs m !! y = Some fy /\ (k, c) ∈ frames (_frameTree m) /\
    frameObjs m !! c = Some fc /\ _parentId fc = Some (_id fy).
Proof.
  unfold frame_childFrames. destruct (frameObjs m !! y) as [fy|]; [|by intros ?%elem_of_nil].
  unfold tree_childFrames. intros ([k z] & Hin & Hsome)%list_elem_of_omap.
  simpl in Hsome. destruct (frameObjs m !! z) as [fc|] eqn:Hz; [|done].
  unfold is_child_of in Hsome.
  destruct (_parentId fc) as [p|] eqn:Hp; [|done].
  destruct (String.eqb p (_id fy)) eqn:E; [|done].
  injection Hsome as ->. apply String.eqb_eq in E. subst p.
  exists fy, fc, k. by rewrite Hz.
Qed.

Lemma well_keyed_detach_one x m :
  well_keyed m = true -> well_keyed (detach_one x m) = true.
Proof.
  intros Hwf. pose proof Hwf as [Hd Hall]%andb_prop. unfold well_keyed.
  rewrite detach_one_tree.
  assert (forall e, keyed_entry (frameObjs m) e = true ->
                    keyed_entry (frameObjs (detach_one x m)) e = true) as Hk.
  { intros e. unfold keyed_entry. rewrite detach_one_lookup.
    destruct (frameObjs m !! e.2) as [f|]; simpl; [|done].
    by destruct (decide (x = e.2)). }
  apply andb_true_intro.
  destruct (frameObjs m !! x) as [f|]; simpl.
  - split; [by apply distinct_filter|].
    rewrite forallb_forall in Hall. apply forallb_forall. intros e Hin.
    apply Hk, Hall. apply list_elem_of_In.
    apply list_elem_of_In in Hin. by apply list_elem_of_filter in Hin as [_ ?].
  - split; [done|]. rewrite forallb_forall in Hall. apply forallb_forall.
    intros e Hin. by apply Hk, Hall.
Qed.

Lemma live_detach_one_other x y m :
  live m x = true -> live m y = true -> y <> x ->
  live (detach_one x m) y = true.
Proof.
  intros (fx & Hx & Hfx)%live_spec (fy & Hy & Hfy)%live_spec Hne.
  apply live_spec. exists fy. split.
  - rewrite detach_one_lookup, Hy. simpl. by rewrite decide_False.
  - unfold frame, getById in *. rewrite detach_one_tree, Hx. simpl.
    rewrite map_get_delete_ne; [done|]. intros Heq. rewrite Heq in Hfx.
    congruence.
Qed.

Lemma omap_filter_irrelevant {A B} (g : A -> option B) (P : A -> bool)
    (l : list A) :
  (forall e, e ∈ l -> P e = false -> g e = None) ->
  omap g (filter P l) = omap g l.
Proof.
  induction l as [|e l IH]; intros Hirr; [done|].
  rewrite filter_cons. simpl.
  destruct (decide (P e)) as [HP|HP].
  - simpl. destruct (g e); [f_equal|]; apply IH; intros e' Hin;
      apply Hirr; by right.
  - simpl. rewrite (Hirr e); [|left|by destruct (P e)].
    apply IH. intros e' Hin. apply Hirr. by right.
Qed.

(** Removing a live frame [x] leaves the children of [y] alone unless [x] is
    one of them. *)
Lemma children_detach_one_other x y m :
  well_keyed m = true -> live m x = true ->
  x ∉ frame_childFrames y m ->
  frame_childFrames y (detach_one x m) = frame_childFrames y m.
Proof.
  intros Hwf (fx & Hx & Hfx)%live_spec Hnot.
  pose proof (detach_one_tree x m) as Htree. rewrite Hx in Htree.
  pose proof (detach_one_lookup x m) as Hlook.
  unfold frame_childFrames in *. rewrite Hlook, Htree.
  destruct (frameObjs m !! y) as [fy|] eqn:Hy; [|done].
  cbn [fmap option_fmap option_map].
  replace (_id (if decide (x = y) then dispose_frame fy else fy))
    with (_id fy) by (by destruct (decide (x = y))).
  unfold tree_childFrames in *. cbn [frames removeFrame]. unfold map_delete.
  transitivity
    (omap (fun e : string * obj =>
             match frameObjs m !! e.2 with
             | Some f => if is_child_of (_id fy) f then Some e.2 else None
             | None => None
             end)
       (filter (fun e => negb (String.eqb e.1 (_id fx)))
          (frames (_frameTree m)))).
  - apply list_omap_ext, Forall_Forall2_diag, Forall_forall. intros e _.
    rewrite Hlook.
    destruct (frameObjs m !! e.2) as [f|]; [|done].
    cbn [fmap option_fmap option_map].
    by destruct (decide (x = e.2)).
  - apply omap_filter_irrelevant. intros [k z] Hin HP.
    cbn [fst snd] in *.
    apply negb_false_iff, String.eqb_eq in HP. subst k.
    destruct (well_keyed_entry m _ _ Hwf Hin) as [Hz _].
    rewrite Hfx in Hz. injection Hz as <-. rewrite Hx.
    destruct (is_child_of (_id fy) fx) eqn:Hc; [|done].
    exfalso. apply Hnot. apply list_elem_of_omap. exists (_id fx, x).
    split; [done|]. cbn [fst snd]. by rewrite Hx, Hc.
Qed.

Lemma shape_unfold m r kids :
  shape m (Sub r kids) = true <->
  live m r = true /\ frame_childFrames r m = map root_of kids /\
  Forall (fun k => shape m k = true) kids.
Proof.
  simpl. rewrite !andb_true_iff, bool_decide_eq_true, forallb_forall.
  rewrite Forall_forall. setoid_rewrite list_elem_of_In. tauto.
Qed.

Lemma root_in_postorder t : root_of t ∈ postorder t.
Proof. destruct t as [r kids]. simpl. apply elem_of_app. right. left. Qed.

Lemma kid_postorder_subset k kids x :
  k ∈ kids -> x ∈ postorder k -> x ∈ flat_map postorder kids.
Proof.
  intros Hk Hx. apply list_elem_of_In, in_flat_map. exists k.
  split; by apply list_elem_of_In.
Qed.

(** Removing a live frame outside a subtree leaves the subtree as it is. *)
Lemma shape_detach_one_other x m t :
  well_keyed m = true -> live m x = true -> x ∉ postorder t ->
  shape m t = true -> shape (detach_one x m) t = true.
Proof.
  intros Hwf Hx. induction t as [r kids IH] using Subtree_rect'.
  intros Hnot (Hr & Hkids & Hall)%shape_unfold. apply shape_unfold.
  simpl in Hnot. apply not_elem_of_app in Hnot as [Hnk Hnr].
  apply not_elem_of_cons in Hnr as [Hnr _].
  split; [by apply live_detach_one_other|]. split.
  - rewrite children_detach_one_other; [done..|]. rewrite Hkids.
    intros (k & -> & Hk)%list_elem_of_fmap. apply Hnk.
    eapply kid_postorder_subset; [done|]. apply root_in_postorder.
  - rewrite Forall_forall in IH, Hall. apply Forall_forall. intros k Hk.
    apply IH; [done| |by apply Hall]. intros Hin. apply Hnk.
    by eapply kid_postorder_subset.
Qed.

Lemma shape_all_live m t :
  shape m t = true -> Forall (fun y => live m y = true) (postorder t).
Proof.
  induction t as [r kids IH] using Subtree_rect'.
  intros (Hr & _ & Hall)%shape_unfold. simpl. apply Forall_app. split.
  - apply Forall_forall. intros y Hy.
    apply list_elem_of_In, in_flat_map in Hy as (k & Hk & Hy).
    apply list_elem_of_In in Hk, Hy. rewrite Forall_forall in IH, Hall.
    specialize (IH k Hk (Hall k Hk)). rewrite Forall_forall in IH. by apply IH.
  - by constructor.
Qed.

(** ** Removing a list of frames *)

Lemma detach_all_app l1 l2 m :
  detach_all (l1 ++ l2) m = detach_all l2 (detach_all l1 m).
Proof. unfold detach_all. apply foldl_app. Qed.

Lemma detach_all_emitted l : forall m,
  emitted (detach_all l m) = emitted m ++ flat_map detach_notifications l.
Proof.
  induction l as [|x l IH]; intros m; simpl; [by rewrite app_nil_r|].
  change (detach_all (x :: l) m) with (detach_all l (detach_one x m)).
  rewrite IH, detach_one_emitted. by rewrite <- app_assoc.
Qed.

Lemma detach_all_preserves l : forall m,
  well_keyed m = true -> Forall (fun y => live m y = true) l -> NoDup l ->
  well_keyed (detach_all l m) = true /\
  (forall y, live m y = true -> y ∉ l -> live (detach_all l m) y = true) /\
  (forall t, shape m t = true -> (forall y, y ∈ l -> y ∉ postorder t) ->
             shape (detach_all l m) t = true).
Proof.
  induction l as [|x l IH]; intros m Hwf Hlive Hnd; [done|].
  apply Forall_cons in Hlive as [Hx Hlive].
  apply NoDup_cons in Hnd as [Hxl Hnd].
  change (detach_all (x :: l) m) with (detach_all l (detach_one x m)).
  destruct (IH (detach_one x m)) as (Hwf' & Hlive' & Hshape').
  - by apply well_keyed_detach_one.
  - rewrite Forall_forall in Hlive. apply Forall_forall. intros y Hy.
    apply live_detach_one_other; [done|by apply Hlive|]. by intros ->.
  - done.
  - split; [done|]. split.
    + intros y Hy Hnot. apply not_elem_of_cons in Hnot as [Hne Hnot].
      apply Hlive'; [|done]. by apply live_detach_one_other.
    + intros t Ht Hdisj. apply Hshape'.
      * apply shape_detach_one_other; [done..| |done]. apply Hdisj. left.
      * intros y Hy. apply Hdisj. by right.
Qed.

(** ** Recursive detach *)

Lemma removeFramesRecursively_unfold stack x m :
  removeFramesRecursively (S stack) x m
  = match forEach (removeFramesRecursively stack) (frame_childFrames x m) m with
    | Some m1 => Some (detach_one x m1)
    | None => None
    end.
Proof. reflexivity. Qed.

Lemma height_kid k kids :
  k ∈ kids -> height k <= foldr Nat.max 0 (map height kids).
Proof.
  induction kids as [|k' kids IH]; [by intros ?%elem_of_nil|].
  intros [->|Hin]%elem_of_cons; simpl; [lia|]. specialize (IH Hin). lia.
Qed.

(** The children loop over well-formed, pairwise disjoint subtrees removes
    them one subtree after the other, each deepest-first. *)
Lemma forEach_remove_kids stack
    (IH : forall t m, height t <= stack -> well_keyed m = true ->
            shape m t = true -> NoDup (postorder t) ->
            removeFramesRecursively stack (root_of t) m
            = Some (detach_all (postorder t) m)) :
  forall kids m,
    Forall (fun k => height k <= stack) kids -> well_keyed m = true ->
    Forall (fun k => shape m k = true) kids ->
    NoDup (flat_map postorder kids) ->
    forEach (removeFramesRecursively stack) (map root_of kids) m
    = Some (detach_all (flat_map postorder kids) m).
Proof.
  induction kids as [|k ks IHks]; intros m Hh Hwf Hshape Hnd; [done|].
  apply Forall_cons in Hh as [Hk Hks].
  apply Forall_cons in Hshape as [Hsk Hsks].
  simpl in Hnd. apply NoDup_app in Hnd as (Hndk & Hdisj & Hndks).
  simpl. rewrite IH by done.
  destruct (detach_all_preserves (postorder k) m Hwf (shape_all_live _ _ Hsk)
              Hndk) as (Hwf' & _ & Hkeep).
  rewrite IHks; [by rewrite detach_all_app|done..| |done].
  rewrite Forall_forall in Hsks. apply Forall_forall. intros k' Hk'.
  apply Hkeep; [by apply Hsks|]. intros y Hy Hy'. apply (Hdisj y Hy).
  by eapply kid_postorder_subset.
Qed.

(** Given room on the stack, [#removeFramesRecursively] returns, and what it
    has done is the post-order removal list applied in order. *)
Lemma removeFramesRecursively_postorder stack : forall t m,
  height t <= stack -> well_keyed m = true -> shape m t = true ->
  NoDup (postorder t) ->
  removeFramesRecursively stack (root_of t) m
  = Some (detach_all (postorder t) m).
Proof.
  induction stack as [|stack IH]; intros [r kids] m Hh Hwf Hshape Hnd.
  - simpl in Hh. lia.
  - apply shape_unfold in Hshape as (Hr & Hkids & Hall).
    simpl in Hnd. apply NoDup_app in Hnd as (Hndk & _ & _).
    cbn [root_of]. rewrite removeFramesRecursively_unfold, Hkids.
    rewrite (forEach_remove_kids stack IH); [|..|done|done|done].
    + cbn [postorder]. by rewrite detach_all_app.
    + apply Forall_forall. intros k Hk. apply height_kid in Hk.
      simpl in Hh. lia.
Qed.

Lemma map_get_delete_None {V} (l : list (string * V)) k k' :
  map_get l k = None -> map_get (map_delete l k') k = None.
Proof.
  intros Hnone. destruct (decide (k' = k)) as [->|Hne].
  - apply map_get_delete_eq.
  - by rewrite map_get_delete_ne.
Qed.

Lemma detach_one_keeps_unresolvable x m k :
  frame k m = None -> frame k (detach_one x m) = None.
Proof.
  unfold frame, getById. rewrite detach_one_tree.
  destruct (frameObjs m !! x); [|done]. simpl. apply map_get_delete_None.
Qed.

Lemma detach_all_keeps_unresolvable l : forall m k,
  frame k m = None -> frame k (detach_all l m) = None.
Proof.
  induction l as [|x l IH]; intros m k Hk; [done|].
  change (detach_all (x :: l) m) with (detach_all l (detach_one x m)).
  by apply IH, detach_one_keeps_unresolvable.
Qed.

Lemma detach_all_unresolvable l : forall m x f,
  x ∈ l -> frameObjs m !! x = Some f -> frame (_id f) (detach_all l m) = None.
Proof.
  induction l as [|y l IH]; intros m x f Hin Hf; [by apply elem_of_nil in Hin|].
  change (detach_all (y :: l) m) with (detach_all l (detach_one y m)).
  destruct (decide (x = y)) as [->|Hne].
  - apply detach_all_keeps_unresolvable. unfold frame, getById.
    rewrite detach_one_tree, Hf. simpl. apply map_get_delete_eq.
  - apply elem_of_cons in Hin as [?|Hin]; [done|].
    pose proof (detach_one_lookup y m x) as Hlook. rewrite Hf in Hlook.
    cbn [fmap option_fmap option_map] in Hlook.
    rewrite decide_False in Hlook by congruence. by eapply IH.
Qed.

Lemma manager_notified_app event ns1 ns2 :
  manager_notified event (ns1 ++ ns2)
  = manager_notified event ns1 ++ manager_notified event ns2.
Proof. unfold manager_notified. apply omap_app. Qed.

Lemma manager_notified_detached l :
  manager_notified FrameManagerEvent.FrameDetached
    (flat_map detach_notifications l) = l.
Proof. induction l as [|x l IH]; [done|]. simpl. by rewrite IH. Qed.

Lemma postorder_length t :
  length (postorder t) = S (length (descendants t)).
Proof.
  destruct t as [r kids]. unfold descendants. simpl.
  rewrite length_app. simpl. lia.
Qed.

(** C6.  Let [t] be what the tree holds at and below the frame registered
    under [frameId], with [N] frames below the root.  Given room on the
    stack, the frame-detached event with reason ["remove"] returns; the
    manager has emitted exactly [N + 1] further [FrameDetached]
    notifications, for the frames of [t] deepest-first (each followed by the
    frame's own [FrameDetached]); and afterwards none of these frames' ids
    resolves in the tree. *)
Theorem recursive_detach_complete
    (m : FrameManager) (stack : nat) (frameId : string) (t : Subtree) :
  well_keyed m = true ->
  frame frameId m = Some (root_of t) ->
  shape m t = true ->
  NoDup (postorder t) ->
  height t <= stack ->
  exists m',
    onFrameDetached stack frameId remove m = Some m' /\
    emitted m' = emitted m ++ flat_map detach_notifications (postorder t) /\
    manager_notified FrameManagerEvent.FrameDetached (emitted m')
    = manager_notified FrameManagerEvent.FrameDetached (emitted m)
      ++ postorder t /\
    length (postorder t) = S (length (descendants t)) /\
    (forall x f, x ∈ postorder t -> frameObjs m !! x = Some f ->
                 frame (_id f) m' = None).
Proof.
  intros Hwf Hfr Hshape Hnd Hh. exists (detach_all (postorder t) m).
  split; [|split; [|split; [|split]]].
  - unfold onFrameDetached. rewrite Hfr.
    by apply removeFramesRecursively_postorder.
  - apply detach_all_emitted.
  - by rewrite detach_all_emitted, manager_notified_app,
      manager_notified_detached.
  - apply postorder_length.
  - intros x f Hx Hf. by eapply detach_all_unresolvable.
Qed.

Lemma recursive_detach_complete_witness :
  let t := Sub 0 [Sub 1 [Sub 2 []]] in
  exists m',
    onFrameDetached 3 "A" remove rootA_B_C = Some m' /\
    emitted m' = emitted rootA_B_C ++ flat_map detach_notifications [2; 1; 0] /\
    manager_notified FrameManagerEvent.FrameDetached (emitted m')
    = manager_notified FrameManagerEvent.FrameDetached (emitted rootA_B_C)
      ++ [2; 1; 0] /\
    length (postorder t) = S (length (descendants t)) /\
    (forall x f, x ∈ postorder t -> frameObjs rootA_B_C !! x = Some f ->
                 frame (_id f) m' = None).
Proof.
  intros t.
  apply (recursive_detach_complete rootA_B_C 3 "A" t).
  - vm_compute. reflexivity.
  - vm_compute. reflexivity.
  - vm_compute. reflexivity.
  - apply (bool_decide_unpack _). vm_compute. exact I.
  - vm_compute. lia.
Defined.

(** ** What removal leaves in place *)

Lemma detach_all_rest l : forall m,
  client (detach_all l m) = client m /\
  contextIdToContext (detach_all l m) = contextIdToContext m /\
  contextObjs (detach_all l m) = contextObjs m /\
  nextObj (detach_all l m) = nextObj m /\
  awaitingSwap (detach_all l m) = awaitingSwap m /\
  microtasks (detach_all l m) = microtasks m /\
  frameNavigatedReceived (detach_all l m) = frameNavigatedReceived m /\
  now (detach_all l m) = now m.
Proof.
  induction l as [|x l IH]; intros m; [done|].
  change (detach_all (x :: l) m) with (detach_all l (detach_one x m)).
  destruct (IH (detach_one x m)) as (-> & -> & -> & -> & -> & -> & -> & ->).
  apply detach_one_rest.
Qed.

Lemma detach_all_lookup_other l : forall m y,
  y ∉ l -> frameObjs (detach_all l m) !! y = frameObjs m !! y.
Proof.
  induction l as [|x l IH]; intros m y Hy; [done|].
  apply not_elem_of_cons in Hy as [Hne Hy].
  change (detach_all (x :: l) m) with (detach_all l (detach_one x m)).
  rewrite IH by done. rewrite detach_one_lookup.
  destruct (frameObjs m !! y); [|done]. simpl. by rewrite decide_False.
Qed.

Lemma has_parent_detach_one x y m :
  has_parent m y -> has_parent (detach_one x m) y.
Proof.
  intros (f & p & Hf & Hp). unfold has_parent. rewrite detach_one_lookup, Hf.
  simpl.
  destruct (decide (x = y)); eauto.
Qed.

Lemma detach_one_mainFrame x m :
  has_parent m x ->
  mainFrame (_frameTree (detach_one x m)) = mainFrame (_frameTree m).
Proof.
  intros (f & p & Hf & Hp). rewrite detach_one_tree, Hf. simpl.
  by rewrite Hp.
Qed.

Lemma detach_all_mainFrame l : forall m,
  Forall (has_parent m) l ->
  mainFrame (_frameTree (detach_all l m)) = mainFrame (_frameTree m).
Proof.
  induction l as [|x l IH]; intros m Hall; [done|].
  apply Forall_cons in Hall as [Hx Hl].
  change (detach_all (x :: l) m) with (detach_all l (detach_one x m)).
  rewrite IH; [by apply detach_one_mainFrame|].
  eapply Forall_impl; [done|]. intros y. apply has_parent_detach_one.
Qed.

Lemma child_has_parent m y c :
  c ∈ frame_childFrames y m -> has_parent m c.
Proof.
  intros (fy & fc & k & _ & _ & Hc & Hp)%children_are_entries.
  by exists fc, (_id fy).
Qed.

Lemma shape_descendants_have_parent m t :
  shape m t = true -> Forall (has_parent m) (descendants t).
Proof.
  induction t as [r kids IH] using Subtree_rect'.
  intros (_ & Hkids & Hall)%shape_unfold. unfold descendants. simpl.
  apply Forall_forall. intros y Hy.
  apply list_elem_of_In, in_flat_map in Hy as (k & Hk & Hy).
  apply list_elem_of_In in Hk, Hy. rewrite Forall_forall in IH, Hall.
  specialize (IH k Hk (Hall k Hk)). destruct k as [rk kk].
  simpl in Hy. apply elem_of_app in Hy as [Hy|Hy].
  - rewrite Forall_forall in IH. by apply IH.
  - apply list_elem_of_singleton in Hy as ->.
    apply (child_has_parent m r). rewrite Hkids.
    apply list_elem_of_fmap. by exists (Sub rk kk).
Qed.

Lemma omap_cons_match {A B} (g : A -> option B) e l :
  omap g (e :: l)
  = match g e with Some y => y :: omap g l | None => omap g l end.
Proof. reflexivity. Qed.

Lemma omap_filter_snd {A} (g : A -> option obj) (P : A -> bool)
    (snd' : A -> obj) (x : obj) (l : list A) :
  (forall e, e ∈ l -> g e = Some (snd' e) \/ g e = None) ->
  (forall e, e ∈ l -> P e = false <-> snd' e = x) ->
  omap g (filter P l) = filter (fun c => c <> x) (omap g l).
Proof.
  induction l as [|e l IH]; intros Hg HP; [done|].
  rewrite filter_cons.
  assert (omap g (filter P l) = filter (fun c => c <> x) (omap g l)) as IH'.
  { apply IH; intros e' He'; [apply Hg | apply HP]; by right. }
  destruct (decide (P e)) as [Hp|Hp]; rewrite !omap_cons_match.
  - destruct (Hg e) as [Hs|Hn]; [left|..].
    + rewrite Hs. rewrite filter_cons, decide_True; [by rewrite IH'|].
      intros Hx. apply (HP e) in Hx; [|left]. rewrite Hx in Hp. done.
    + by rewrite Hn.
  - destruct (Hg e) as [Hs|Hn]; [left|..].
    + rewrite Hs. rewrite filter_cons, decide_False; [done|].
      intros Hx. apply Hx. apply (HP e); [left|]. by destruct (P e).
    + by rewrite Hn.
Qed.

(** Removing a live frame takes just that frame out of every list of
    children. *)
Lemma children_detach_one x y m :
  well_keyed m = true -> live m x = true ->
  frame_childFrames y (detach_one x m)
  = filter (fun c => c <> x) (frame_childFrames y m).
Proof.
  intros Hwf (fx & Hx & Hfx)%live_spec.
  pose proof (detach_one_tree x m) as Htree. rewrite Hx in Htree.
  pose proof (detach_one_lookup x m) as Hlook.
  unfold frame_childFrames in *. rewrite Hlook, Htree.
  destruct (frameObjs m !! y) as [fy|] eqn:Hy; [|done].
  cbn [fmap option_fmap option_map].
  replace (_id (if decide (x = y) then dispose_frame fy else fy))
    with (_id fy) by (by destruct (decide (x = y))).
  unfold tree_childFrames in *. cbn [frames removeFrame]. unfold map_delete.
  transitivity
    (omap (fun e : string * obj =>
             match frameObjs m !! e.2 with
             | Some f => if is_child_of (_id fy) f then Some e.2 else None
             | None => None
             end)
       (filter (fun e => negb (String.eqb e.1 (_id fx)))
          (frames (_frameTree m)))).
  - apply list_omap_ext, Forall_Forall2_diag, Forall_forall. intros e _.
    rewrite Hlook.
    destruct (frameObjs m !! e.2) as [f|]; [|done].
    cbn [fmap option_fmap option_map].
    by destruct (decide (x = e.2)).
  - apply (omap_filter_snd _ _ snd).
    + intros e _. destruct (frameObjs m !! e.2) as [f|]; [|by right].
      destruct (is_child_of (_id fy) f); [by left | by right].
    + intros [k z] Hin. cbn [fst snd].
      destruct (well_keyed_entry m _ _ Hwf Hin) as (Hz & f & Hf & Hk).
      rewrite negb_false_iff, String.eqb_eq. split.
      * intros ->. rewrite Hfx in Hz. by injection Hz.
      * intros ->. rewrite Hx in Hf. injection Hf as <-. done.
Qed.

Lemma filter_keep_all {A} (P : A -> Prop) `{!forall x, Decision (P x)}
    (l : list A) :
  (forall x, x ∈ l -> P x) -> filter P l = l.
Proof.
  induction l as [|a l IH]; intros Hall; [done|].
  rewrite filter_cons_True by (apply Hall; left).
  f_equal. apply IH. intros x Hx. apply Hall. by right.
Qed.

Lemma filter_drop_all {A} (P : A -> Prop) `{!forall x, Decision (P x)}
    (l : list A) :
  (forall x, x ∈ l -> ~ P x) -> filter P l = [].
Proof.
  induction l as [|a l IH]; intros Hall; [done|].
  rewrite filter_cons_False by (apply Hall; left).
  apply IH. intros x Hx. apply Hall. by right.
Qed.

Lemma children_detach_all l : forall m y,
  well_keyed m = true -> Forall (fun x => live m x = true) l -> NoDup l ->
  frame_childFrames y (detach_all l m)
  = filter (fun c => c ∉ l) (frame_childFrames y m).
Proof.
  induction l as [|x l IH]; intros m y Hwf Hlive Hnd.
  - simpl. symmetry. apply filter_keep_all. intros c _. apply not_elem_of_nil.
  - apply Forall_cons in Hlive as [Hx Hlive].
    apply NoDup_cons in Hnd as [Hxl Hnd].
    change (detach_all (x :: l) m) with (detach_all l (detach_one x m)).
    rewrite IH; [|by apply well_keyed_detach_one| |done].
    + rewrite children_detach_one by done. rewrite list_filter_filter.
      apply list_filter_iff. intros c. rewrite not_elem_of_cons. tauto.
    + rewrite Forall_forall in Hlive. apply Forall_forall. intros z Hz.
      apply live_detach_one_other; [done|by apply Hlive|]. by intros ->.
Qed.

(** ** Disconnect, then no swap *)

Lemma removeFramesRecursively_leaf stack x m :
  1 <= stack -> well_keyed m = true -> live m x = true ->
  frame_childFrames x m = [] ->
  removeFramesRecursively stack x m = Some (detach_one x m).
Proof.
  intros Hs Hwf Hx Hc.
  apply (removeFramesRecursively_postorder stack (Sub x []) m); [done..| |].
  - apply shape_unfold. by rewrite Hc.
  - simpl. apply NoDup_singleton.
Qed.

(** C2.  Let [t] be what the tree holds at and below the main Frame when its
    session disconnects, no swap wait being pending.  Then
    [#onClientDisconnect] returns having removed every descendant at once,
    deepest-first, while the main Frame stays registered and tracked as the
    root, with a swap wait due [TIME_FOR_WAITING_FOR_SWAP] = 100 ms later.
    Until the deadline, time passing changes nothing.  When the deadline is
    reached with no swap signal, the main Frame is removed exactly as the
    frame-detached event with reason ["remove"] would remove it: it no
    longer resolves, no root is tracked, [FrameDetached] is emitted, and
    every wait pending on the Frame has failed with [TargetClosed]. *)
Theorem disconnect_without_swap
    (m : FrameManager) (stack : nat) (t : Subtree) (fmain : CdpFrame) :
  well_keyed m = true ->
  getMainFrame (_frameTree m) = Some (root_of t) ->
  frameObjs m !! root_of t = Some fmain ->
  _parentId fmain = None ->
  shape m t = true ->
  NoDup (postorder t) ->
  height t <= stack ->
  awaitingSwap m = [] ->
  let main := root_of t in
  let deadline := (now m + 100)%Z in
  exists m1,
    onClientDisconnect stack m = Some m1 /\
    emitted m1 = emitted m ++ flat_map detach_notifications (descendants t) /\
    (forall x f, x ∈ descendants t -> frameObjs m !! x = Some f ->
                 frame (_id f) m1 = None) /\
    frame_childFrames main m1 = [] /\
    frame (_id fmain) m1 = Some main /\
    getMainFrame (_frameTree m1) = Some main /\
    frameObjs m1 !! main = Some fmain /\
    TIME_FOR_WAITING_FOR_SWAP = 100%Z /\
    awaitingSwap m1 = [(main, deadline)] /\
    (forall time, (time < deadline)%Z ->
       elapse stack time m1 = Some (set_now (Z.max (now m) time) m1)) /\
    (forall time, (deadline <= time)%Z ->
       exists m2,
         elapse stack time m1 = Some m2 /\
         onFrameDetached stack (_id fmain) remove
           (set_now (Z.max (now m) time) (set_awaitingSwap [] m1)) = Some m2 /\
         frame (_id fmain) m2 = None /\
         getMainFrame (_frameTree m2) = None /\
         emitted m2 = emitted m1 ++ detach_notifications main /\
         awaitingSwap m2 = [] /\
         (forall d, d ∈ pendingWaits fmain ->
                    (d, TargetClosed) ∈ failedWaits m2)).
Proof.
  intros Hwf Hmain Hfmain Hroot Hshape Hnd Hh Hnone main deadline.
  destruct t as [r kids]. cbn [root_of] in *. subst main.
  pose proof Hshape as (Hr & Hkids & Hall)%shape_unfold.
  pose proof Hnd as Hnd'. simpl in Hnd'.
  apply NoDup_app in Hnd' as (Hndk & Hdisj & _).
  set (D := flat_map postorder kids) in *.
  assert (r ∉ D) as HrD.
  { intros Hin. apply (Hdisj r Hin). left. }
  assert (Forall (fun y => live m y = true) D) as HliveD.
  { pose proof (shape_all_live _ _ Hshape) as Hl. simpl in Hl.
    by apply Forall_app in Hl as [? _]. }
  destruct (detach_all_preserves D m Hwf HliveD Hndk) as (Hwf1 & Hlive1 & _).
  destruct (detach_all_rest D m)
    as (_ & _ & _ & _ & Hawait1 & _ & _ & Hnow1).
  set (m1' := detach_all D m) in *.
  assert (forEach (removeFramesRecursively stack) (map root_of kids) m
          = Some m1') as Hloop.
  { apply (forEach_remove_kids stack (removeFramesRecursively_postorder stack));
      [|done..].
    apply Forall_forall. intros k Hk. apply height_kid in Hk. simpl in Hh. lia. }
  assert (frame_childFrames r m1' = []) as Hnokids.
  { unfold m1'. rewrite children_detach_all by done. rewrite Hkids.
    apply filter_drop_all. intros c (k & -> & Hk)%list_elem_of_fmap Hc.
    apply Hc. eapply kid_postorder_subset; [done|]. apply root_in_postorder. }
  assert (frameObjs m1' !! r = Some fmain) as Hf1.
  { unfold m1'. by rewrite detach_all_lookup_other. }
  assert (live m1' r = true) as Hr1 by (by apply Hlive1).
  assert (frame (_id fmain) m1' = Some r) as Hres1.
  { apply live_spec in Hr1 as (f & Hf & Hfr). rewrite Hf1 in Hf.
    by injection Hf as <-. }
  assert (mainFrame (_frameTree m1') = Some r) as Hmain1.
  { unfold m1'. rewrite detach_all_mainFrame; [done|].
    apply (shape_descendants_have_parent m (Sub r kids) Hshape). }
  eexists. split.
  { unfold onClientDisconnect. rewrite Hmain, Hkids, Hloop. reflexivity. }
  rewrite Hawait1, Hnow1, Hnone. cbn [app].
  split; [apply detach_all_emitted|].
  split; [intros x f Hx Hf; by eapply detach_all_unresolvable|].
  split; [done|]. split; [done|]. split; [done|]. split; [done|].
  split; [done|]. split; [done|]. split.
  - intros time Hlt. unfold elapse. cbn [awaitingSwap set_awaitingSwap].
    rewrite filter_cons_False
      by (cbn [snd]; intros Hle%Is_true_true%Z.leb_le;
          unfold deadline, TIME_FOR_WAITING_FOR_SWAP in *; lia).
    rewrite filter_cons_True
      by (cbn [snd]; apply Is_true_true, negb_true_iff, Z.leb_gt;
          unfold deadline, TIME_FOR_WAITING_FOR_SWAP in *; lia).
    rewrite !filter_nil. cbn [forEach now set_awaitingSwap].
    rewrite Hnow1. reflexivity.
  - intros time Hle. unfold elapse. cbn [awaitingSwap set_awaitingSwap].
    rewrite filter_cons_True
      by (cbn [snd]; apply Is_true_true, Z.leb_le;
          unfold deadline, TIME_FOR_WAITING_FOR_SWAP in *; lia).
    rewrite filter_cons_False
      by (cbn [snd]; intros Hgt%Is_true_true%negb_true_iff%Z.leb_gt;
          unfold deadline, TIME_FOR_WAITING_FOR_SWAP in *; lia).
    rewrite !filter_nil. cbn [forEach fst now set_awaitingSwap].
    rewrite Hnow1.
    set (M := set_now (Z.max (now m) time)
                (set_awaitingSwap []
                   (set_awaitingSwap [(r, (now m + TIME_FOR_WAITING_FOR_SWAP)%Z)]
                      m1'))).
    assert (removeFramesRecursively stack r M = Some (detach_one r M)) as Hrm.
    { apply removeFramesRecursively_leaf; [simpl in Hh; lia|done..]. }
    exists (detach_one r M). rewrite Hrm.
    split; [done|]. split.
    { unfold onFrameDetached.
      change (frame (_id fmain) M) with (frame (_id fmain) m1').
      by rewrite Hres1. }
    split.
    { unfold frame, getById. rewrite detach_one_tree.
      change (frameObjs M) with (frameObjs m1'). rewrite Hf1. simpl.
      apply map_get_delete_eq. }
    split.
    { unfold getMainFrame. rewrite detach_one_tree.
      change (frameObjs M) with (frameObjs m1'). rewrite Hf1. simpl.
      by rewrite Hroot. }
    split; [by rewrite detach_one_emitted|].
    split; [by destruct (detach_one_rest r M) as (_ & _ & _ & _ & -> & _)|].
    intros d Hd. rewrite detach_one_failedWaits.
    change (frameObjs M) with (frameObjs m1'). rewrite Hf1.
    apply elem_of_app. right. apply list_elem_of_fmap. by exists d.
Qed.

Lemma disconnect_without_swap_witness :
  exists m1 m2,
    onClientDisconnect 3 rootA_B_C_waiting = Some m1 /\
    emitted m1
    = emitted rootA_B_C_waiting ++ flat_map detach_notifications [2; 1] /\
    frame "A" m1 = Some 0 /\
    awaitingSwap m1 = [(0, 100%Z)] /\
    elapse 3 99 m1 = Some (set_now 99 m1) /\
    elapse 3 100 m1 = Some m2 /\
    frame "A" m2 = None /\
    (7, TargetClosed) ∈ failedWaits m2.
Proof.
  destruct (disconnect_without_swap rootA_B_C_waiting 3 treeA_B_C
              frameA_waiting)
    as (m1 & Hrun & Hemit & _ & _ & Hres & _ & _ & _ & Hawait & Hearly & Hlate).
  - vm_compute. reflexivity.
  - vm_compute. reflexivity.
  - vm_compute. reflexivity.
  - reflexivity.
  - vm_compute. reflexivity.
  - apply (bool_decide_unpack _). vm_compute. exact I.
  - vm_compute. lia.
  - vm_compute. reflexivity.
  - destruct (Hlate 100%Z) as (m2 & Hel & _ & Hgone & _ & _ & _ & Hwaits).
    { vm_compute. discriminate. }
    exists m1, m2. split; [exact Hrun|]. split; [exact Hemit|].
    split; [exact Hres|]. split; [exact Hawait|].
    split; [apply (Hearly 99%Z); reflexivity|].
    split; [exact Hel|]. split; [exact Hgone|].
    apply Hwaits. vm_compute. left.
Defined.

(** ** Main-frame navigation *)

(** C3, where the code departs from it.  The page has its main Frame [A]
    (object 0).  A frame-navigated event with no parent id, a new loader id
    and the frame id [Z] does not update the existing main Frame in place:
    the lookup by the event's id finds nothing, so a second Frame object
    (object 1) is constructed and registered under [Z], while object 0 keeps
    the id [A] and stays the tracked root. *)
Theorem onFrameNavigated_new_id_constructs_frame :
  let event := navigate "Z" "L2" "http://z/" in
  exists m',
    getMainFrame (_frameTree rootA) = Some 0 /\
    handle stack event rootA = Some m' /\
    nextObj rootA = 1 /\ nextObj m' = 2 /\
    frameObjs rootA !! 1 = None /\
    frameObjs m' !! 1
    = Some {| _id := "Z"; _parentId := None; frame_client := page;
              _url := "http://z/"; _loaderId := "L2";
              lifecycle := mkLifecycle false false false; detached := false;
              mainRealm := mkWorld None; isolatedRealm := mkWorld None;
              pendingWaits := [] |} /\
    frame "Z" m' = Some 1 /\
    frame "A" m' = Some 0 /\
    frameObjs m' !! 0 = Some frameA /\
    getMainFrame (_frameTree m') = Some 0.
Proof.
  intros event. vm_compute. eexists. split; [reflexivity|].
  split; [reflexivity|]. vm_compute. repeat split; reflexivity.
Qed.

(** The scenario of C3 in which the event carries the id of the existing main
    Frame: with root [A] and child [B], navigating [A] under the new loader
    [L2] detaches [B] first, keeps the Frame object of [A] registered under
    [A], updates its URL and loader id, and leaves its worlds empty. *)
Lemma navigate_root_detaches_children :
  let event := navigate "A" "L2" "http://a/next" in
  exists m',
    handle stack event rootA_childB = Some m' /\
    frame "B" m' = None /\
    (detached <$> frameObjs m' !! 1) = Some true /\
    frame "A" m' = Some 0 /\
    getMainFrame (_frameTree m') = Some 0 /\
    frameObjs m' !! 0
    = Some {| _id := "A"; _parentId := None; frame_client := page;
              _url := "http://a/next"; _loaderId := "L2";
              lifecycle := mkLifecycle false false false; detached := false;
              mainRealm := mkWorld None; isolatedRealm := mkWorld None;
              pendingWaits := [] |} /\
    emitted m'
    = emitted rootA_childB
      ++ [ManagerEmit FrameManagerEvent.FrameDetached 1;
          FrameEmit 1 FrameEvent.FrameDetached;
          ManagerEmit FrameManagerEvent.FrameNavigated 0;
          FrameEmit 0 (FrameEvent.FrameNavigated Navigation)].
Proof.
  intros event. vm_compute. eexists. split; [reflexivity|].
  vm_compute. repeat split; reflexivity.
Qed.

(** ** What the frame handlers leave alone *)

Lemma quiet_refl m : quiet m m.
Proof.
  split; [done|]. split; [done|]. split; [done|]. exists [].
  split; [by rewrite app_nil_r|]. by intros x ?%elem_of_nil.
Qed.

Lemma quiet_trans m1 m2 m3 : quiet m1 m2 -> quiet m2 m3 -> quiet m1 m3.
Proof.
  intros (Hc1 & Hr1 & Hn1 & s1 & He1 & Hs1) (Hc2 & Hr2 & Hn2 & s2 & He2 & Hs2).
  split; [congruence|]. split; [congruence|]. split; [lia|]. exists (s1 ++ s2).
  split; [by rewrite He2, He1, app_assoc|].
  intros x. rewrite manager_notified_app.
  intros [Hx|Hx]%elem_of_app; [by apply Hs1|]. apply Hs2 in Hx. lia.
Qed.

Lemma quiet_log m m' suffix :
  client m' = client m ->
  contextIdToContext m' = contextIdToContext m ->
  nextObj m <= nextObj m' ->
  emitted m' = emitted m ++ suffix ->
  manager_notified FrameManagerEvent.FrameAttached suffix = [] ->
  quiet m m'.
Proof.
  intros Hc Hr Hn He Hs. split; [done|]. split; [done|]. split; [done|].
  exists suffix. split; [done|]. rewrite Hs. by intros x ?%elem_of_nil.
Qed.

Lemma quiet_same m m' :
  client m' = client m ->
  contextIdToContext m' = contextIdToContext m ->
  nextObj m' = nextObj m -> emitted m' = emitted m -> quiet m m'.
Proof.
  intros Hc Hr Hn He. apply (quiet_log m m' []); [done|done|lia| |done].
  by rewrite app_nil_r.
Qed.

Lemma quiet_update_frame x g m : quiet m (update_frame x g m).
Proof. by apply quiet_same. Qed.

Lemma quiet_tree_addFrame x m : quiet m (tree_addFrame x m).
Proof.
  unfold tree_addFrame. destruct (frameObjs m !! x); [|apply quiet_refl].
  destruct (addFrame _ _ _). by apply quiet_same.
Qed.

Lemma quiet_tree_removeFrame x m : quiet m (tree_removeFrame x m).
Proof.
  unfold tree_removeFrame. destruct (frameObjs m !! x); [|apply quiet_refl].
  by apply quiet_same.
Qed.

Lemma quiet_alloc_frame f m : quiet m (alloc_frame f m).
Proof. apply (quiet_log _ _ []); simpl; [done|done|lia|by rewrite app_nil_r|done]. Qed.

Lemma quiet_detach_one x m : quiet m (detach_one x m).
Proof.
  destruct (detach_one_rest x m) as (Hc & Hr & _ & Hn & _).
  apply (quiet_log _ _ (detach_notifications x)); [done|done|lia| |done].
  apply detach_one_emitted.
Qed.

Lemma forEach_preserves {A S} (R : S -> S -> Prop) (body : A -> S -> option S)
    (P : A -> Prop) (l : list A) :
  (forall s, R s s) -> (forall s1 s2 s3, R s1 s2 -> R s2 s3 -> R s1 s3) ->
  (forall a s s', P a -> body a s = Some s' -> R s s') ->
  Forall P l ->
  forall s s', forEach body l s = Some s' -> R s s'.
Proof.
  intros Hrefl Htrans Hbody. induction 1 as [|a l Ha Hl IH]; intros s s'; simpl.
  - intros [= <-]. apply Hrefl.
  - destruct (body a s) as [s1|] eqn:E; [|done]. intros Hrest.
    eapply Htrans; [by eapply Hbody|by apply IH].
Qed.

Lemma removeFramesRecursively_quiet stack : forall x m m',
  removeFramesRecursively stack x m = Some m' -> quiet m m'.
Proof.
  induction stack as [|stack IH]; intros x m m'; [done|].
  rewrite removeFramesRecursively_unfold.
  destruct (forEach _ _ m) as [m1|] eqn:Hloop; [|done]. intros [= <-].
  eapply quiet_trans; [|apply quiet_detach_one].
  eapply (forEach_preserves quiet _ (fun _ => True));
    [apply quiet_refl|apply quiet_trans| |by apply Forall_true|done].
  intros a s s' _. apply IH.
Qed.

Lemma forEach_remove_quiet stack l m m' :
  forEach (removeFramesRecursively stack) l m = Some m' -> quiet m m'.
Proof.
  eapply (forEach_preserves quiet _ (fun _ => True));
    [apply quiet_refl|apply quiet_trans| |by apply Forall_true].
  intros a s s' _. apply removeFramesRecursively_quiet.
Qed.

Lemma quiet_onFrameAttached session frameId parentFrameId m :
  quiet m (onFrameAttached session frameId parentFrameId m).
Proof.
  unfold onFrameAttached. destruct (frame frameId m) as [fr|].
  - destruct (frameObjs m !! fr) as [f|]; [|apply quiet_refl].
    destruct (isOOPFrame f m); [apply quiet_update_frame|apply quiet_refl].
  - pose proof (quiet_tree_addFrame (nextObj m)
                  (alloc_frame (new_CdpFrame frameId (Some parentFrameId)
                                  session) m))
      as (Hc & Hr & Hn & s & He & Hs).
    split; [done|]. split; [done|]. split; [simpl in *; lia|].
    exists (s ++ [ManagerEmit FrameManagerEvent.FrameAttached (nextObj m)]).
    split; [simpl in *; by rewrite He, app_assoc|].
    intros x. rewrite manager_notified_app.
    intros [Hx|Hx]%elem_of_app; [apply Hs in Hx; simpl in Hx; lia|].
    simpl in Hx. apply list_elem_of_singleton in Hx. lia.
Qed.

Lemma quiet_set_microtasks q m : quiet m (set_microtasks q m).
Proof. by apply quiet_same. Qed.

Lemma quiet_set_frameTree t m : quiet m (set_frameTree t m).
Proof. by apply quiet_same. Qed.

Lemma quiet_set_frameNavigatedReceived s m :
  quiet m (set_frameNavigatedReceived s m).
Proof. by apply quiet_same. Qed.

Lemma onFrameNavigated_quiet stack framePayload navigationType m m' :
  onFrameNavigated stack framePayload navigationType m = Some m' ->
  quiet m m'.
Proof.
  unfold onFrameNavigated.
  set (found := getById (payload_id framePayload) (_frameTree m)).
  destruct (match found with
            | Some fr => forEach _ (frame_childFrames fr m) m
            | None => Some m end) as [m1|] eqn:Hloop; [|done].
  assert (quiet m m1) as Hq1.
  { destruct found; [by eapply forEach_remove_quiet|].
    injection Hloop as <-. apply quiet_refl. }
  set (m2 := if negb (truthy (payload_parentId framePayload)) then _ else m1).
  assert (quiet m1 m2) as Hq2.
  { subst m2. destruct (negb _); [|apply quiet_refl]. destruct found.
    - eapply quiet_trans; [apply quiet_tree_removeFrame|].
      eapply quiet_trans; [apply quiet_update_frame|].
      apply quiet_tree_addFrame.
    - eapply quiet_trans; [apply quiet_alloc_frame|].
      apply quiet_tree_addFrame. }
  destruct (waitForFrame _ _ (_frameTree m2)) as [[fr|] t]; intros [= <-].
  - eapply quiet_trans; [done|]. eapply quiet_trans; [done|].
    apply quiet_set_microtasks.
  - eapply quiet_trans; [done|]. eapply quiet_trans; [done|].
    apply quiet_set_frameTree.
Qed.

Lemma quiet_navigated_continuation task m :
  quiet m (navigated_continuation task m).
Proof.
  destruct task as [fr [p ty]].
  apply (quiet_log _ _ [ManagerEmit FrameManagerEvent.FrameNavigated fr;
                        FrameEmit fr (FrameEvent.FrameNavigated ty)]);
    simpl; [done|done|lia|by rewrite <- app_assoc|done].
Qed.

Lemma quiet_foldl_continuations tasks : forall m,
  quiet m (foldl (fun m task => navigated_continuation task m) m tasks).
Proof.
  induction tasks as [|task tasks IH]; intros m; [apply quiet_refl|].
  simpl. eapply quiet_trans; [apply quiet_navigated_continuation|apply IH].
Qed.

Lemma quiet_drain m : quiet m (drain m).
Proof.
  unfold drain. eapply quiet_trans; [apply (quiet_set_microtasks [])|].
  apply quiet_foldl_continuations.
Qed.

Lemma FrameTreePayload_rect' (P : FrameTreePayload -> Prop) :
  (forall fp children, Forall P children -> P (FrameTreeNode fp children)) ->
  forall t, P t.
Proof.
  intros Hnode. fix IH 1. intros [fp children]. apply Hnode.
  induction children as [|c cs IHcs]; constructor; [apply IH | apply IHcs].
Qed.

Lemma handleFrameTree_unfold stack session fp children m :
  handleFrameTree stack session (FrameTreeNode fp children) m
  = let m1 :=
      match payload_parentId fp with
      | Some parentId =>
          if truthy (Some parentId)
          then onFrameAttached session (payload_id fp) parentId m
          else m
      | None => m
      end in
    match (if negb (bool_decide (payload_id fp ∈ frameNavigatedReceived m1))
           then onFrameNavigated stack fp Navigation m1
           else Some (set_frameNavigatedReceived
                        (frameNavigatedReceived m1 ∖ {[payload_id fp]}) m1))
    with
    | None => None
    | Some m2 => forEach (handleFrameTree stack session) children m2
    end.
Proof.
  simpl. destruct (if negb _ then _ else _) as [m2|]; [|done].
  generalize m2. clear. induction children as [|c cs IH]; intros m2; [done|].
  simpl. destruct (handleFrameTree stack session c m2); [apply IH|done].
Qed.

Lemma handleFrameTree_quiet stack session frameTree : forall m m',
  handleFrameTree stack session frameTree m = Some m' -> quiet m m'.
Proof.
  induction frameTree as [fp children IH] using FrameTreePayload_rect'.
  intros m m'. rewrite handleFrameTree_unfold. cbv zeta.
  set (m1 := match payload_parentId fp with Some _ => _ | None => m end).
  assert (quiet m m1) as Hq1.
  { subst m1. destruct (payload_parentId fp); [|apply quiet_refl].
    destruct (truthy _); [apply quiet_onFrameAttached|apply quiet_refl]. }
  destruct (if negb _ then _ else _) as [m2|] eqn:Hnav; [|done].
  assert (quiet m1 m2) as Hq2.
  { destruct (negb _).
    - by eapply onFrameNavigated_quiet.
    - injection Hnav as <-. apply quiet_set_frameNavigatedReceived. }
  intros Hkids. eapply quiet_trans; [done|]. eapply quiet_trans; [done|].
  revert Hkids. generalize m2 m'. clear -IH.
  induction IH as [|c cs Hc Hcs IHcs]; intros m2 m'; simpl.
  - intros [= <-]. apply quiet_refl.
  - destruct (handleFrameTree stack session c m2) as [m3|] eqn:E; [|done].
    intros Hrest. eapply quiet_trans; [by apply Hc|by apply IHcs].
Qed.

Lemma quiet_onLifecycleEvent event m : quiet m (onLifecycleEvent event m).
Proof.
  unfold onLifecycleEvent. destruct (frame _ m) as [fr|]; [|apply quiet_refl].
  apply (quiet_log _ _ [ManagerEmit FrameManagerEvent.LifecycleEvent fr;
                        FrameEmit fr FrameEvent.LifecycleEvent]);
    simpl; [done|done|lia|by rewrite <- app_assoc|done].
Qed.

Lemma quiet_onFrameStartedLoading frameId m :
  quiet m (onFrameStartedLoading frameId m).
Proof.
  unfold onFrameStartedLoading.
  destruct (frame _ m); [apply quiet_update_frame|apply quiet_refl].
Qed.

Lemma quiet_onFrameStoppedLoading frameId m :
  quiet m (onFrameStoppedLoading frameId m).
Proof.
  unfold onFrameStoppedLoading.
  destruct (frame _ m) as [fr|]; [|apply quiet_refl].
  apply (quiet_log _ _ [ManagerEmit FrameManagerEvent.LifecycleEvent fr;
                        FrameEmit fr FrameEvent.LifecycleEvent]);
    simpl; [done|done|lia|by rewrite <- app_assoc|done].
Qed.

Lemma quiet_onFrameNavigatedWithinDocument frameId url m :
  quiet m (onFrameNavigatedWithinDocument frameId url m).
Proof.
  unfold onFrameNavigatedWithinDocument.
  destruct (frame _ m) as [fr|]; [|apply quiet_refl].
  apply (quiet_log _ _
           [ManagerEmit FrameManagerEvent.FrameNavigatedWithinDocument fr;
            FrameEmit fr FrameEvent.FrameNavigatedWithinDocument;
            ManagerEmit FrameManagerEvent.FrameNavigated fr;
            FrameEmit fr (FrameEvent.FrameNavigated Navigation)]);
    simpl; [done|done|lia|by rewrite <- !app_assoc|done].
Qed.

Lemma onFrameDetached_quiet stack frameId reason m m' :
  onFrameDetached stack frameId reason m = Some m' -> quiet m m'.
Proof.
  unfold onFrameDetached. destruct (frame _ m) as [fr|].
  - destruct reason; [apply removeFramesRecursively_quiet|].
    intros [= <-].
    apply (quiet_log _ _ [ManagerEmit FrameManagerEvent.FrameSwapped fr;
                          FrameEmit fr FrameEvent.FrameSwapped]);
      simpl; [done|done|lia|by rewrite <- app_assoc|done].
  - intros [= <-]. apply quiet_refl.
Qed.

Lemma onClientDisconnect_quiet stack m m' :
  onClientDisconnect stack m = Some m' -> quiet m m'.
Proof.
  unfold onClientDisconnect.
  destruct (getMainFrame _) as [main|]; [|intros [= <-]; apply quiet_refl].
  destruct (forEach _ _ m) as [m1|] eqn:Hloop; [|done]. intros [= <-].
  eapply quiet_trans; [by eapply forEach_remove_quiet|]. by apply quiet_same.
Qed.

Lemma elapse_quiet stack time m m' :
  elapse stack time m = Some m' -> quiet m m'.
Proof.
  unfold elapse. intros Hrun.
  eapply quiet_trans; [|eapply (forEach_preserves quiet _ (fun _ => True));
    [apply quiet_refl|apply quiet_trans| |by apply Forall_true|exact Hrun]].
  - by apply quiet_same.
  - intros a s s' _. apply removeFramesRecursively_quiet.
Qed.

Lemma quiet_emit_FrameSwappedByActivation fr m :
  quiet m (emit_FrameSwappedByActivation fr m).
Proof.
  apply (quiet_log _ _ [FrameEmit fr FrameEvent.FrameSwappedByActivation]);
    simpl; [done|done|lia|done|done].
Qed.

(** ** The registry of execution contexts *)

Lemma registry_fresh_quiet m m' :
  quiet m m' -> registry_fresh m -> registry_fresh m'.
Proof.
  intros (_ & Hr & Hn & _) [Hnd Hb]. unfold registry_fresh. rewrite Hr.
  split; [done|]. intros c Hc. apply Hb in Hc. lia.
Qed.

Lemma registry_fresh_new c t : registry_fresh (new_FrameManager c t).
Proof. split; [constructor|]. by intros x ?%elem_of_nil. Qed.

Lemma map_set_values_elem {V} (l : list (string * V)) k v c :
  c ∈ map snd (map_set l k v) -> c = v \/ c ∈ map snd l.
Proof.
  induction l as [|[k' v'] l IH]; simpl.
  - intros ?%list_elem_of_singleton. by left.
  - destruct (String.eqb k' k); simpl.
    + intros [->|Hc]%elem_of_cons; [by left|]. right. by right.
    + intros [->|Hc]%elem_of_cons; [right; left|].
      destruct (IH Hc); [by left|]. right. by right.
Qed.

Lemma map_set_values_NoDup {V} (l : list (string * V)) k v :
  NoDup (map snd l) -> v ∉ map snd l -> NoDup (map snd (map_set l k v)).
Proof.
  induction l as [|[k' v'] l IH]; simpl; intros Hnd Hv.
  - apply NoDup_singleton.
  - apply NoDup_cons in Hnd as [Hv' Hnd].
    apply not_elem_of_cons in Hv as [Hne Hv].
    destruct (String.eqb k' k); simpl; apply NoDup_cons.
    + done.
    + split; [|by apply IH]. intros [->|Hc]%map_set_values_elem; done.
Qed.

Lemma map_delete_values_elem {V} (l : list (string * V)) k c :
  c ∈ map snd (map_delete l k) -> c ∈ map snd l.
Proof.
  unfold map_delete. intros ([k' v'] & -> & Hin)%list_elem_of_fmap.
  apply list_elem_of_filter in Hin as [_ Hin].
  apply list_elem_of_fmap. by exists (k', v').
Qed.

Lemma map_delete_values_NoDup {V} (l : list (string * V)) k :
  NoDup (map snd l) -> NoDup (map snd (map_delete l k)).
Proof.
  unfold map_delete. induction l as [|[k' v'] l IH]; [done|]. simpl.
  intros [Hv Hnd]%NoDup_cons. rewrite filter_cons.
  destruct (decide _); [|by apply IH]. simpl. apply NoDup_cons.
  split; [|by apply IH]. intros Hc. apply Hv.
  by apply (map_delete_values_elem l k).
Qed.

Lemma registry_fresh_delete m m1 key :
  contextIdToContext m1 = contextIdToContext m -> nextObj m1 = nextObj m ->
  registry_fresh m ->
  registry_fresh
    (set_contextIdToContext (map_delete (contextIdToContext m1) key) m1).
Proof.
  intros Hr Hn [Hnd Hb]. unfold registry_fresh. simpl. rewrite Hr, Hn.
  split; [by apply map_delete_values_NoDup|].
  intros c Hc%map_delete_values_elem. by apply Hb.
Qed.

Lemma registry_fresh_created contextPayload session m :
  registry_fresh m ->
  registry_fresh (onExecutionContextCreated contextPayload session m).
Proof.
  intros [Hnd Hb]. unfold onExecutionContextCreated.
  destruct (match auxData_frameId contextPayload with
            | Some frameId => frame frameId m | None => None end)
    as [fr|]; [|done].
  destruct (frameObjs m !! fr) as [f|]; [|done].
  destruct (negb _); [done|].
  destruct (if auxData_isDefault contextPayload then _ else _) as [k|]; [|done].
  unfold registry_fresh. simpl. split.
  - apply map_set_values_NoDup; [done|]. intros Hc%Hb. lia.
  - intros c [->|Hc]%map_set_values_elem; [lia|]. apply Hb in Hc. lia.
Qed.

Lemma registry_fresh_destroyed executionContextId session m :
  registry_fresh m ->
  registry_fresh (onExecutionContextDestroyed executionContextId session m).
Proof.
  intros Hfresh. unfold onExecutionContextDestroyed.
  destruct (map_get _ _) as [c|]; [|done].
  pose proof (registry_fresh_delete m m
                (context_key session executionContextId) eq_refl eq_refl Hfresh)
    as Hdel.
  cbn [contextObjs set_contextIdToContext].
  destruct (contextObjs m !! c) as [ctx|]; [|done].
  destruct (_world ctx); done.
Qed.

Lemma registry_fresh_clear_entry session m entry :
  registry_fresh m -> registry_fresh (clear_entry session m entry).
Proof.
  intros Hfresh. unfold clear_entry.
  destruct (contextObjs m !! entry.2) as [ctx|]; [|done].
  destruct (negb _); [done|].
  apply (registry_fresh_delete m); [by destruct (_world ctx)..|done].
Qed.

Lemma registry_fresh_foldl_clear session l : forall m,
  registry_fresh m -> registry_fresh (foldl (clear_entry session) m l).
Proof.
  induction l as [|e l IH]; intros m Hfresh; [done|].
  simpl. by apply IH, registry_fresh_clear_entry.
Qed.

Lemma registry_fresh_cleared session m :
  registry_fresh m -> registry_fresh (onExecutionContextsCleared session m).
Proof. apply registry_fresh_foldl_clear. Qed.

Lemma foldl_clear_entry_log session l : forall m,
  nextObj (foldl (clear_entry session) m l) = nextObj m /\
  emitted (foldl (clear_entry session) m l) = emitted m.
Proof.
  induction l as [|e l IH]; intros m; [done|].
  simpl. destruct (IH (clear_entry session m e)) as [-> ->].
  unfold clear_entry. destruct (contextObjs m !! e.2) as [ctx|]; [|done].
  destruct (negb _); [done|]. by destruct (_world ctx).
Qed.

Lemma cleared_log session m :
  nextObj (onExecutionContextsCleared session m) = nextObj m /\
  emitted (onExecutionContextsCleared session m) = emitted m.
Proof. apply foldl_clear_entry_log. Qed.

Lemma NoDup_filter_holds (o : option obj) (l : list obj) :
  NoDup l -> length (filter (fun c => o = Some c) l) <= 1.
Proof.
  destruct o as [c0|].
  - induction l as [|c l IH]; [simpl; lia|].
    intros [Hc Hnd]%NoDup_cons. rewrite filter_cons.
    destruct (decide (Some c0 = Some c)) as [[= ->]|Hne]; [|by apply IH].
    rewrite filter_drop_all; [simpl; lia|].
    intros x Hx [= ->]. done.
  - intros _. rewrite filter_drop_all; [simpl; lia|]. by intros x _ ?.
Qed.

Lemma registry_fresh_exclusive m w :
  registry_fresh m -> length (bound_contexts m w) <= 1.
Proof. intros [Hnd _]. by apply NoDup_filter_holds. Qed.

Lemma swapFrameTree_rebind_after_cleared newClient m :
  quiet (set_client newClient (onExecutionContextsCleared (client m) m))
    (swapFrameTree_rebind newClient m).1.
Proof.
  unfold swapFrameTree_rebind.
  set (m1 := onExecutionContextsCleared (client m) m).
  destruct (getMainFrame (_frameTree (set_client newClient m1))) as [fr|].
  - cbn [fst]. eapply quiet_trans; [|apply quiet_update_frame].
    eapply quiet_trans; [|apply quiet_tree_addFrame].
    eapply quiet_trans; [|apply quiet_update_frame].
    eapply quiet_trans; [|apply quiet_update_frame].
    eapply quiet_trans; [|apply quiet_update_frame].
    eapply quiet_trans; [|apply quiet_tree_removeFrame].
    by apply quiet_same.
  - apply quiet_refl.
Qed.

Lemma swapFrameTree_after_cleared stack newClient snapshot m m' :
  swapFrameTree stack newClient snapshot m = Some m' ->
  quiet (set_client newClient (onExecutionContextsCleared (client m) m)) m'.
Proof.
  unfold swapFrameTree.
  pose proof (swapFrameTree_rebind_after_cleared newClient m) as Hq.
  destruct (swapFrameTree_rebind newClient m) as [m1 held]. cbn [fst] in Hq.
  destruct (match snapshot with Some _ => _ | None => _ end) as [m2|] eqn:Hs;
    [|done].
  intros [= <-]. eapply quiet_trans; [exact Hq|].
  eapply quiet_trans; [apply (quiet_drain m1)|].
  assert (quiet (drain m1) m2) as Hq2.
  { destruct snapshot; [by eapply handleFrameTree_quiet|].
    injection Hs as <-. apply quiet_refl. }
  eapply quiet_trans; [exact Hq2|].
  eapply quiet_trans; [apply quiet_drain|].
  destruct held; [apply quiet_emit_FrameSwappedByActivation|apply quiet_refl].
Qed.

(** Every task keeps the registry fresh. *)
Lemma handle_registry_fresh stack task m m' :
  registry_fresh m -> handle stack task m = Some m' -> registry_fresh m'.
Proof.
  intros Hfresh. destruct task; simpl.
  - intros [= <-]. eapply registry_fresh_quiet; [|done].
    eapply quiet_trans; [apply quiet_onFrameAttached|apply quiet_drain].
  - destruct (onFrameNavigated _ _ _ _) as [m1|] eqn:E; [|done].
    intros [= <-]. eapply registry_fresh_quiet; [|done].
    eapply quiet_trans; [apply quiet_set_frameNavigatedReceived|].
    eapply quiet_trans; [by eapply onFrameNavigated_quiet|apply quiet_drain].
  - intros [= <-]. eapply registry_fresh_quiet; [|done].
    eapply quiet_trans; [apply quiet_onFrameNavigatedWithinDocument|].
    apply quiet_drain.
  - destruct (onFrameDetached _ _ _ _) as [m1|] eqn:E; [|done].
    intros [= <-]. eapply registry_fresh_quiet; [|done].
    eapply quiet_trans; [by eapply onFrameDetached_quiet|apply quiet_drain].
  - intros [= <-]. eapply registry_fresh_quiet; [|done].
    eapply quiet_trans; [apply quiet_onFrameStartedLoading|apply quiet_drain].
  - intros [= <-]. eapply registry_fresh_quiet; [|done].
    eapply quiet_trans; [apply quiet_onFrameStoppedLoading|apply quiet_drain].
  - intros [= <-]. eapply registry_fresh_quiet; [apply quiet_drain|].
    by apply registry_fresh_created.
  - intros [= <-]. eapply registry_fresh_quiet; [apply quiet_drain|].
    by apply registry_fresh_destroyed.
  - intros [= <-]. eapply registry_fresh_quiet; [apply quiet_drain|].
    by apply registry_fresh_cleared.
  - intros [= <-]. eapply registry_fresh_quiet; [|done].
    eapply quiet_trans; [apply quiet_onLifecycleEvent|apply quiet_drain].
  - destruct (handleFrameTree _ _ _ _) as [m1|] eqn:E; [|done].
    intros [= <-]. eapply registry_fresh_quiet; [|done].
    eapply quiet_trans; [by eapply handleFrameTree_quiet|apply quiet_drain].
  - destruct (onClientDisconnect _ _) as [m1|] eqn:E; [|done].
    intros [= <-]. eapply registry_fresh_quiet; [|done].
    eapply quiet_trans; [by eapply onClientDisconnect_quiet|apply quiet_drain].
  - intros Hswap. eapply registry_fresh_quiet;
      [by eapply swapFrameTree_after_cleared|].
    by apply (registry_fresh_cleared (client m)).
  - destruct (elapse _ _ _) as [m1|] eqn:E; [|done].
    intros [= <-]. eapply registry_fresh_quiet; [|done].
    eapply quiet_trans; [by eapply elapse_quiet|apply quiet_drain].
Qed.

(** C5.  In a manager whose registry is fresh (as it is from construction
    on), every task the manager handles leaves the registry fresh, and then
    no World holds more than one registered ExecutionContext.  For the
    utility World of a Frame in particular: if it holds a context, any
    context-created event leaves it holding that same context (the first
    one wins), and an event naming the reserved utility world for that Frame
    changes nothing at all; and whenever a context-created event does
    change what the utility World holds, the World held nothing before, the
    event names the utility world, and the World now holds the context just
    constructed. *)
Theorem world_context_exclusivity
    (stack : nat) (task : Task) (m m' : FrameManager)
    (contextPayload : ExecutionContextDescription) (session : CDPSession)
    (fr : obj) :
  registry_fresh m ->
  handle stack task m = Some m' ->
  let utility := (fr, PUPPETEER_WORLD) in
  let created := onExecutionContextCreated contextPayload session in
  (registry_fresh m' /\
   (forall w, length (bound_contexts m w) <= 1) /\
   (forall w, length (bound_contexts m' w) <= 1)) /\
  (forall c0, world_holds m' utility = Some c0 ->
     world_holds (created m') utility = Some c0) /\
  (forall c0 frameId,
     names_utility_world frameId contextPayload = true ->
     frame frameId m' = Some fr ->
     world_holds m' utility = Some c0 ->
     created m' = m') /\
  (world_holds (created m') utility <> world_holds m' utility ->
   world_holds m' utility = None /\
   context_name contextPayload = UTILITY_WORLD_NAME /\
   auxData_isDefault contextPayload = false /\
   world_holds (created m') utility = Some (nextObj m')).
Proof.
  intros Hfresh Hrun utility created.
  pose proof (handle_registry_fresh _ _ _ _ Hfresh Hrun) as Hfresh'.
  split; [|split; [|split]].
  - split; [done|]. split; intros w; by apply registry_fresh_exclusive.
  - intros c0. apply onExecutionContextCreated_keeps_utility.
  - intros c0 frameId. apply onExecutionContextCreated_utility_noop.
  - apply onExecutionContextCreated_binds_only_empty.
Qed.

Lemma world_context_exclusivity_witness :
  let m := onExecutionContextCreated (utility_context 1) page rootA in
  let task := Runtime_executionContextCreated (utility_context 2) page in
  exists m',
    handle stack task m = Some m' /\
    registry_fresh m' /\
    length (bound_contexts m' (0, PUPPETEER_WORLD)) <= 1 /\
    world_holds m' (0, PUPPETEER_WORLD) = Some 1 /\
    world_holds (onExecutionContextCreated (utility_context 3) page m')
      (0, PUPPETEER_WORLD) = Some 1 /\
    onExecutionContextCreated (utility_context 3) page m' = m'.
Proof.
  intros m task.
  assert (contextIdToContext m = [("page:1", 1)]) as Hreg
    by (vm_compute; reflexivity).
  assert (nextObj m = 2) as Hnext by (vm_compute; reflexivity).
  assert (registry_fresh m) as Hfresh.
  { unfold registry_fresh. rewrite Hreg, Hnext. simpl.
    split; [apply NoDup_singleton|].
    intros c ->%list_elem_of_singleton. lia. }
  assert (handle stack task m = Some m) as Hrun by (vm_compute; reflexivity).
  destruct (world_context_exclusivity stack task m m (utility_context 3) page 0
              Hfresh Hrun)
    as ((Hf' & _ & Hex) & Hkeep & Hnoop & _).
  assert (world_holds m (0, PUPPETEER_WORLD) = Some 1) as Hheld
    by (vm_compute; reflexivity).
  exists m. split; [exact Hrun|]. split; [exact Hf'|].
  split; [apply Hex|]. split; [exact Hheld|].
  split; [by apply Hkeep|].
  apply (Hnoop 1 "A"); [vm_compute; reflexivity..|exact Hheld].
Defined.

(** ** Swapping the frame tree *)

Lemma world_clearContext_core w m y :
  core <$> frameObjs (world_clearContext w m) !! y = core <$> frameObjs m !! y.
Proof.
  unfold world_clearContext, update_frame. simpl.
  destruct (decide (w.1 = y)) as [<-|Hne].
  - rewrite lookup_alter_eq. destruct (frameObjs m !! w.1); [|done].
    simpl. by destruct (w.2).
  - by rewrite lookup_alter_ne.
Qed.

Lemma clear_entry_frames session m entry :
  _frameTree (clear_entry session m entry) = _frameTree m /\
  client (clear_entry session m entry) = client m /\
  frameNavigatedReceived (clear_entry session m entry)
  = frameNavigatedReceived m /\
  awaitingSwap (clear_entry session m entry) = awaitingSwap m /\
  microtasks (clear_entry session m entry) = microtasks m /\
  forall y, core <$> frameObjs (clear_entry session m entry) !! y
            = core <$> frameObjs m !! y.
Proof.
  unfold clear_entry. destruct (contextObjs m !! entry.2) as [ctx|]; [|done].
  destruct (negb _); [done|]. destruct (_world ctx) as [w|]; [|done].
  repeat split; try done. intros y. simpl. apply world_clearContext_core.
Qed.

Lemma foldl_clear_entry_frames session l : forall m,
  let m' := foldl (clear_entry session) m l in
  _frameTree m' = _frameTree m /\
  client m' = client m /\
  frameNavigatedReceived m' = frameNavigatedReceived m /\
  awaitingSwap m' = awaitingSwap m /\
  microtasks m' = microtasks m /\
  forall y, core <$> frameObjs m' !! y = core <$> frameObjs m !! y.
Proof.
  induction l as [|e l IH]; intros m; [done|].
  simpl. destruct (IH (clear_entry session m e))
    as (-> & -> & -> & -> & -> & Hcore).
  destruct (clear_entry_frames session m e)
    as (-> & -> & -> & -> & -> & Hcore').
  repeat split; try done. intros y. by rewrite Hcore, Hcore'.
Qed.

Lemma cleared_frames session m :
  let m' := onExecutionContextsCleared session m in
  _frameTree m' = _frameTree m /\
  client m' = client m /\
  frameNavigatedReceived m' = frameNavigatedReceived m /\
  awaitingSwap m' = awaitingSwap m /\
  microtasks m' = microtasks m /\
  forall y, core <$> frameObjs m' !! y = core <$> frameObjs m !! y.
Proof. apply foldl_clear_entry_frames. Qed.


Lemma tree_removeFrame_eq x m f :
  frameObjs m !! x = Some f ->
  tree_removeFrame x m = set_frameTree (removeFrame f (_frameTree m)) m.
Proof. intros Hf. unfold tree_removeFrame. by rewrite Hf. Qed.

Lemma tree_addFrame_eq x m f :
  frameObjs m !! x = Some f ->
  tree_addFrame x m
  = set_microtasks
      (microtasks m ++ map (pair x) (addFrame x f (_frameTree m)).2)
      (set_frameTree (addFrame x f (_frameTree m)).1 m).
Proof.
  intros Hf. unfold tree_addFrame. rewrite Hf.
  by destruct (addFrame x f (_frameTree m)).
Qed.

Lemma update_frame_lookup x g m :
  frameObjs (update_frame x g m) !! x = g <$> frameObjs m !! x.
Proof. apply lookup_alter_eq. Qed.

(** The rebinding at the head of [swapFrameTree]: the main Frame object is
    filed under the new target's id, with the new session and empty worlds,
    and nothing is emitted or constructed. *)
Lemma swapFrameTree_rebind_spec newClient m r f :
  getMainFrame (_frameTree m) = Some r ->
  frameObjs m !! r = Some f ->
  _parentId f = None ->
  let tid := _targetId newClient in
  let m1 := (swapFrameTree_rebind newClient m).1 in
  (swapFrameTree_rebind newClient m).2 = Some r /\
  frame tid m1 = Some r /\
  getMainFrame (_frameTree m1) = Some r /\
  frameObjs m1 !! r
  = Some (mkFrame tid None newClient (_url f) (_loaderId f) (lifecycle f)
            (detached f) (mkWorld None) (mkWorld None) (pendingWaits f)) /\
  client m1 = newClient /\
  emitted m1 = emitted m /\
  nextObj m1 = nextObj m /\
  awaitingSwap m1 = awaitingSwap m /\
  (tid <> _id f -> frame (_id f) m1 = None).
Proof.
  intros Hmain Hf Hroot tid m1. subst m1. unfold swapFrameTree_rebind.
  destruct (cleared_frames (client m) m) as (Htree & _ & _ & Hawait & _ & Hcore).
  destruct (cleared_log (client m) m) as [Hnext Hemit].
  set (mc := onExecutionContextsCleared (client m) m) in *.
  cbn [_frameTree set_client]. rewrite Htree, Hmain.
  specialize (Hcore r). rewrite Hf in Hcore.
  destruct (frameObjs mc !! r) as [f0|] eqn:Hf0; [|done].
  injection Hcore as Hid Hpar Hcl Hurl Hld Hlc Hdet Hw.
  cbn [fst snd].
  set (m3 := set_frameNavigatedReceived _ (set_client newClient mc)).
  rewrite (tree_removeFrame_eq r m3 f0 Hf0).
  set (m4 := set_frameTree _ m3).
  set (m7 := world_clearContext (r, PUPPETEER_WORLD)
               (world_clearContext (r, MAIN_WORLD)
                  (update_frame r (updateId (_targetId newClient)) m4))).
  set (f7 := mkFrame tid None (frame_client f0) (_url f) (_loaderId f)
               (lifecycle f) (detached f) (mkWorld None) (mkWorld None)
               (pendingWaits f)).
  assert (frameObjs m7 !! r = Some f7) as Hf7.
  { unfold m7, world_clearContext. rewrite !update_frame_lookup.
    change (frameObjs m4) with (frameObjs mc). rewrite Hf0.
    cbn [fmap option_fmap option_map fst snd]. f_equal. unfold f7.
    cbn [set_world clearContext updateId _id _parentId frame_client _url
         _loaderId lifecycle detached mainRealm isolatedRealm pendingWaits
         worlds].
    by rewrite Hpar, Hroot, Hurl, Hld, Hlc, Hdet, Hw. }
  rewrite (tree_addFrame_eq r m7 f7 Hf7).
  assert (_frameTree m7 = removeFrame f0 (_frameTree m)) as Ht7.
  { unfold m7, m4, m3. cbn. by rewrite Htree. }
  rewrite Ht7. unfold addFrame, removeFrame.
  cbn [_parentId _id f7 mainFrame frames waitRequests fst snd]. rewrite Hpar, Hroot.
  cbn [frameObjs set_frameObjs set_microtasks set_frameTree _frameTree fst snd
       client emitted nextObj awaitingSwap update_frame].
  split; [done|]. split.
  { unfold frame, getById. cbn [frames _frameTree]. apply map_get_set_eq. }
  split; [done|]. split.
  { rewrite lookup_alter_eq, Hf7. done. }
  split; [done|]. split; [done|]. split; [done|]. split; [done|].
  intros Hne.
  change (map_get (map_set (map_delete (frames (_frameTree m)) (_id f0)) tid r)
            (_id f) = None).
  rewrite map_get_set_ne by done. rewrite Hid. apply map_get_delete_eq.
Qed.

(** ** The anchor: a root Frame that stays registered *)

Lemma same_ids_refl h : same_ids h h.
Proof. by intros y. Qed.

Lemma same_ids_trans h1 h2 h3 :
  same_ids h1 h2 -> same_ids h2 h3 -> same_ids h1 h3.
Proof. intros H12 H23 y. by rewrite H23, H12. Qed.

Lemma same_ids_alter g x h :
  (forall f, h !! x = Some f -> ident (g f) = ident f) ->
  same_ids h (alter g x h).
Proof.
  intros Hg y. destruct (decide (x = y)) as [<-|Hne].
  - rewrite lookup_alter_eq. destruct (h !! x) as [f|] eqn:Hf; [|done].
    simpl. f_equal. by apply Hg.
  - by rewrite lookup_alter_ne.
Qed.

Lemma same_ids_lookup h h' y f' :
  same_ids h h' -> h' !! y = Some f' ->
  exists f, h !! y = Some f /\ ident f = ident f'.
Proof.
  intros Hs Hf'. specialize (Hs y). rewrite Hf' in Hs.
  destruct (h !! y) as [f|]; [|done]. exists f. split; [done|].
  cbn [fmap option_fmap option_map] in Hs. congruence.
Qed.

Lemma same_ids_lookup_r h h' y f :
  same_ids h h' -> h !! y = Some f ->
  exists f', h' !! y = Some f' /\ ident f' = ident f.
Proof.
  intros Hs Hf. specialize (Hs y). rewrite Hf in Hs.
  destruct (h' !! y) as [f'|]; [|done]. exists f'. split; [done|].
  cbn [fmap option_fmap option_map] in Hs. congruence.
Qed.

Lemma keyed_entry_same_ids h h' e :
  same_ids h h' -> keyed_entry h' e = keyed_entry h e.
Proof.
  intros Hs. unfold keyed_entry. specialize (Hs e.2).
  destruct (h' !! e.2) as [f'|], (h !! e.2) as [f|]; try done.
  injection Hs as Hid _. by rewrite Hid.
Qed.

Lemma forallb_pointwise {A} (f g : A -> bool) (l : list A) :
  (forall e, f e = g e) -> forallb f l = forallb g l.
Proof. intros H. induction l as [|e l IH]; simpl; [done|]. by rewrite H, IH. Qed.

Lemma well_keyed_ext m m' :
  frames (_frameTree m') = frames (_frameTree m) ->
  same_ids (frameObjs m) (frameObjs m') ->
  well_keyed m' = well_keyed m.
Proof.
  intros Hfr Hs. unfold well_keyed. rewrite Hfr. f_equal.
  apply forallb_pointwise. intros e. by apply keyed_entry_same_ids.
Qed.

(** Whatever keeps the frames of the tree, the ids in the heap and the
    objects constructed so far keeps the anchor. *)
Lemma anchored_ext r tid m m' :
  frames (_frameTree m') = frames (_frameTree m) ->
  same_ids (frameObjs m) (frameObjs m') ->
  nextObj m <= nextObj m' ->
  anchored r tid m -> anchored r tid m'.
Proof.
  intros Hfr Hs Hn (Hwf & Hres & (f & Hf & Hroot) & Hfresh).
  split; [by rewrite (well_keyed_ext m m')|]. split.
  { unfold frame, getById in *. by rewrite Hfr. }
  split.
  { destruct (same_ids_lookup_r _ _ _ _ Hs Hf) as (f' & Hf' & Hid).
    exists f'. split; [done|]. injection Hid as _ Hp. congruence. }
  intros k x. rewrite Hfr. intros Hin. apply Hfresh in Hin. lia.
Qed.

Lemma anchored_update_frame r tid x g m :
  (forall f, ident (g f) = ident f) ->
  anchored r tid m -> anchored r tid (update_frame x g m).
Proof.
  intros Hg. apply anchored_ext; [done| |done].
  apply same_ids_alter. intros f _. apply Hg.
Qed.

Lemma anchored_emit r tid n m : anchored r tid m -> anchored r tid (emit n m).
Proof. apply anchored_ext; [done|apply same_ids_refl|done]. Qed.

Lemma anchored_set_microtasks r tid q m :
  anchored r tid m -> anchored r tid (set_microtasks q m).
Proof. apply anchored_ext; [done|apply same_ids_refl|done]. Qed.

Lemma anchored_set_frameNavigatedReceived r tid s m :
  anchored r tid m -> anchored r tid (set_frameNavigatedReceived s m).
Proof. apply anchored_ext; [done|apply same_ids_refl|done]. Qed.

Lemma anchored_in_tree r tid m :
  anchored r tid m -> (tid, r) ∈ frames (_frameTree m) /\ r < nextObj m.
Proof.
  intros (_ & Hres & _ & Hfresh).
  apply map_get_Some_elem in Hres. split; [done|]. by eapply Hfresh.
Qed.

Lemma beside_same_ids r tid m m' x :
  same_ids (frameObjs m) (frameObjs m') ->
  beside r tid m x -> beside r tid m' x.
Proof.
  intros Hs [Hne Hid]. split; [done|]. intros fx' Hfx'.
  destruct (same_ids_lookup _ _ _ _ Hs Hfx') as (fx & Hfx & Hi).
  injection Hi as Hi _. rewrite <- Hi. by apply Hid.
Qed.

Lemma children_beside r tid m y c :
  anchored r tid m -> c ∈ frame_childFrames y m -> beside r tid m c.
Proof.
  intros (Hwf & Hres & (f & Hf & Hroot) & _)
         (fy & fc & k & _ & Hin & Hc & Hp)%children_are_entries.
  destruct (well_keyed_entry m _ _ Hwf Hin) as (Hk & f' & Hf' & Hid).
  rewrite Hc in Hf'. injection Hf' as <-. split.
  - intros ->. congruence.
  - intros fx Hfx. rewrite Hc in Hfx. injection Hfx as <-.
    intros Heq. assert (frame tid m = Some c) as Hc' by congruence.
    rewrite Hres in Hc'. injection Hc' as ->. congruence.
Qed.

Lemma same_ids_detach_one x m :
  same_ids (frameObjs m) (frameObjs (detach_one x m)).
Proof.
  intros y. rewrite detach_one_lookup. destruct (frameObjs m !! y); [|done].
  simpl. by destruct (decide (x = y)).
Qed.

Lemma anchored_detach_one r tid x m :
  anchored r tid m -> beside r tid m x -> anchored r tid (detach_one x m).
Proof.
  intros (Hwf & Hres & (f & Hf & Hroot) & Hfresh) [Hne Hid].
  destruct (detach_one_rest x m) as (_ & _ & _ & Hn & _).
  split; [by apply well_keyed_detach_one|]. split.
  { unfold frame, getById in *. rewrite detach_one_tree.
    destruct (frameObjs m !! x) as [fx|] eqn:Hfx; [|done]. simpl.
    rewrite map_get_delete_ne; [done|]. by apply Hid. }
  split.
  { exists f. split; [|done]. rewrite detach_one_lookup, Hf. simpl.
    by rewrite decide_False. }
  intros k y. rewrite detach_one_tree, Hn.
  destruct (frameObjs m !! x) as [fx|]; [|apply Hfresh]. simpl.
  intros [_ Hin]%list_elem_of_filter. by eapply Hfresh.
Qed.

Lemma forEach_remove_anchored r tid stack
    (IH : forall x m m', anchored r tid m -> beside r tid m x ->
            removeFramesRecursively stack x m = Some m' ->
            anchored r tid m' /\ same_ids (frameObjs m) (frameObjs m')) :
  forall cs m m',
    anchored r tid m -> Forall (beside r tid m) cs ->
    forEach (removeFramesRecursively stack) cs m = Some m' ->
    anchored r tid m' /\ same_ids (frameObjs m) (frameObjs m').
Proof.
  induction cs as [|c cs IHcs]; intros m m' Ha Hcs; simpl.
  - intros [= <-]. split; [done|apply same_ids_refl].
  - apply Forall_cons in Hcs as [Hc Hcs].
    destruct (removeFramesRecursively stack c m) as [m1|] eqn:E; [|done].
    destruct (IH _ _ _ Ha Hc E) as [Ha1 Hs1]. intros Hrest.
    destruct (IHcs m1 m' Ha1) as [Ha' Hs']; [|done|].
    + eapply Forall_impl; [done|]. intros x. by apply beside_same_ids.
    + split; [done|]. by eapply same_ids_trans.
Qed.

(** Removing frames beside the anchor keeps the anchor, whenever the
    recursion returns. *)
Lemma removeFramesRecursively_anchored r tid stack : forall x m m',
  anchored r tid m -> beside r tid m x ->
  removeFramesRecursively stack x m = Some m' ->
  anchored r tid m' /\ same_ids (frameObjs m) (frameObjs m').
Proof.
  induction stack as [|stack IH]; intros x m m' Ha Hx; [done|].
  rewrite removeFramesRecursively_unfold.
  destruct (forEach _ _ m) as [m1|] eqn:Hloop; [|done]. intros [= <-].
  assert (Forall (beside r tid m) (frame_childFrames x m)) as Hcs.
  { apply Forall_forall. intros c Hc. by eapply children_beside. }
  destruct (forEach_remove_anchored r tid stack IH _ _ _ Ha Hcs Hloop)
    as [Ha1 Hs1].
  split.
  - apply anchored_detach_one; [done|]. by eapply beside_same_ids.
  - eapply same_ids_trans; [done|]. apply same_ids_detach_one.
Qed.

Lemma children_loop_anchored r tid stack y m m' :
  anchored r tid m ->
  forEach (removeFramesRecursively stack) (frame_childFrames y m) m = Some m' ->
  anchored r tid m' /\ same_ids (frameObjs m) (frameObjs m').
Proof.
  intros Ha. apply (forEach_remove_anchored r tid stack); [|done|].
  - apply removeFramesRecursively_anchored.
  - apply Forall_forall. intros c Hc. by eapply children_beside.
Qed.

Lemma map_set_fresh {V} (l : list (string * V)) k v :
  map_get l k = None -> map_set l k v = l ++ [(k, v)].
Proof.
  induction l as [|[k' v'] l IH]; simpl; [done|].
  destruct (String.eqb k' k); [done|]. intros Hnone. by rewrite IH.
Qed.

Lemma map_get_None_not_key {V} (l : list (string * V)) k :
  map_get l k = None -> existsb (String.eqb k) (map fst l) = false.
Proof.
  induction l as [|[k' v'] l IH]; simpl; [done|].
  destruct (String.eqb k' k) eqn:E; [done|]. intros Hnone.
  rewrite String.eqb_sym, E. by apply IH.
Qed.

Lemma distinct_snoc l k :
  distinct l = true -> existsb (String.eqb k) l = false ->
  distinct (l ++ [k]) = true.
Proof.
  induction l as [|k' l IH]; simpl; [done|].
  intros [Hhead Htail]%andb_prop [Hne Hex]%orb_false_elim.
  apply andb_true_intro. split; [|by apply IH].
  rewrite existsb_app. simpl. apply negb_true_iff in Hhead.
  rewrite Hhead. simpl. rewrite orb_false_r.
  apply negb_true_iff. by rewrite String.eqb_sym.
Qed.

(** Filing a Frame under a key the tree does not hold. *)
Lemma well_keyed_append m m' k x f :
  well_keyed m = true ->
  map_get (frames (_frameTree m)) k = None ->
  frames (_frameTree m') = frames (_frameTree m) ++ [(k, x)] ->
  frameObjs m' !! x = Some f -> _id f = k ->
  (forall e, e ∈ frames (_frameTree m) ->
             keyed_entry (frameObjs m') e = keyed_entry (frameObjs m) e) ->
  well_keyed m' = true.
Proof.
  intros [Hd Hall]%andb_prop Hnone Hfr Hx Hid Hold. unfold well_keyed.
  rewrite Hfr, map_app, forallb_app. simpl.
  apply andb_true_intro. split.
  - apply distinct_snoc; [done|]. by apply map_get_None_not_key.
  - apply andb_true_intro. split.
    + rewrite forallb_forall in Hall. apply forallb_forall. intros e He.
      rewrite Hold by (by apply list_elem_of_In). by apply Hall.
    + unfold keyed_entry. simpl. rewrite Hx, Hid, String.eqb_refl. done.
Qed.

(** A newly constructed Frame is added beside the anchor. *)
Lemma anchored_add_new r tid k parent c m :
  anchored r tid m -> getById k (_frameTree m) = None ->
  anchored r tid
    (tree_addFrame (nextObj m) (alloc_frame (new_CdpFrame k parent c) m)).
Proof.
  intros Ha Hnone. pose proof Ha as (Hwf & Hres & (f & Hf & Hroot) & Hfresh).
  destruct (anchored_in_tree _ _ _ Ha) as [_ Hr].
  set (x := nextObj m). set (m1 := alloc_frame _ m).
  assert (frameObjs m1 !! x = Some (new_CdpFrame k parent c)) as Hx
    by apply lookup_insert_eq.
  rewrite (tree_addFrame_eq x m1 _ Hx).
  unfold getById in Hnone.
  assert (k <> tid) as Hk by (intros ->; unfold frame, getById in Hres; congruence).
  split; [|split; [|split]].
  - eapply (well_keyed_append m _ k x); [done|done| |exact Hx|done|].
    + cbn. by apply map_set_fresh.
    + intros [k' y] Hin%Hfresh. unfold keyed_entry. cbn.
      rewrite lookup_insert_ne; [done|]. unfold x. lia.
  - unfold frame, getById in *. cbn. by rewrite map_get_set_ne.
  - exists f. split; [|done]. cbn. rewrite lookup_insert_ne; [done|].
    unfold x. lia.
  - intros k' y. cbn. rewrite map_set_fresh by done.
    intros [Hin|Hin]%elem_of_app.
    + apply Hfresh in Hin. lia.
    + apply list_elem_of_singleton in Hin. injection Hin as -> ->.
      unfold x. lia.
Qed.

Lemma well_keyed_removeFrame m f :
  well_keyed m = true ->
  well_keyed (set_frameTree (removeFrame f (_frameTree m)) m) = true.
Proof.
  intros [Hd Hall]%andb_prop. unfold well_keyed. cbn.
  apply andb_true_intro. split; [by apply distinct_filter|].
  rewrite forallb_forall in Hall. apply forallb_forall. intros e He.
  apply Hall. apply list_elem_of_In.
  apply list_elem_of_In in He. by apply list_elem_of_filter in He as [_ ?].
Qed.

Lemma ident_updateId_same k f : _id f = k -> ident (updateId k f) = ident f.
Proof. intros <-. done. Qed.

(** Taking a Frame out of the tree and filing it again under its id. *)
Lemma anchored_readd r tid k fr ffr m :
  anchored r tid m ->
  frameObjs m !! fr = Some ffr -> _id ffr = k ->
  (k = tid -> fr = r) -> fr < nextObj m ->
  anchored r tid
    (tree_addFrame fr (update_frame fr (updateId k) (tree_removeFrame fr m))).
Proof.
  intros (Hwf & Hres & (f & Hf & Hroot) & Hfresh) Hfr Hid Hsame Hlt.
  rewrite (tree_removeFrame_eq fr m ffr Hfr).
  set (m1 := set_frameTree (removeFrame ffr (_frameTree m)) m).
  set (m2 := update_frame fr (updateId k) m1).
  assert (frameObjs m2 !! fr = Some (updateId k ffr)) as Hfr2.
  { unfold m2. rewrite update_frame_lookup. cbn. by rewrite Hfr. }
  rewrite (tree_addFrame_eq fr m2 _ Hfr2).
  assert (same_ids (frameObjs m) (frameObjs m2)) as Hs.
  { apply same_ids_alter. intros f' Hf'. apply ident_updateId_same.
    cbn in Hf'. congruence. }
  assert (map_get (frames (_frameTree m1)) k = None) as Hnone.
  { cbn. rewrite Hid. apply map_get_delete_eq. }
  assert (frames (_frameTree m1) = map_delete (frames (_frameTree m)) k)
    as Hfr1 by (cbn; by rewrite Hid).
  split; [|split; [|split]].
  - eapply (well_keyed_append m1 _ k fr (updateId k ffr));
      [by apply well_keyed_removeFrame|done| | |done|].
    + cbn. rewrite Hid. apply map_set_fresh. apply map_get_delete_eq.
    + cbn. rewrite lookup_alter_eq, Hfr. done.
    + intros e _. by apply keyed_entry_same_ids.
  - unfold frame, getById in *. cbn. rewrite Hid.
    destruct (decide (k = tid)) as [->|Hne].
    + rewrite (Hsame eq_refl). apply map_get_set_eq.
    + rewrite map_get_set_ne by done. by rewrite map_get_delete_ne.
  - destruct (same_ids_lookup_r _ _ _ _ Hs Hf) as (f' & Hf' & Hi).
    exists f'. split; [done|]. injection Hi as _ Hp. congruence.
  - intros k' y. cbn. rewrite Hid, map_set_fresh by apply map_get_delete_eq.
    intros [Hin|Hin]%elem_of_app.
    + apply list_elem_of_filter in Hin as [_ Hin]. by eapply Hfresh.
    + apply list_elem_of_singleton in Hin. by injection Hin as -> ->.
Qed.

Lemma anchored_onFrameAttached r tid session frameId parentFrameId m :
  anchored r tid m ->
  anchored r tid (onFrameAttached session frameId parentFrameId m).
Proof.
  intros Ha. unfold onFrameAttached.
  destruct (frame frameId m) as [fr|] eqn:Hfr.
  - destruct (frameObjs m !! fr) as [f|]; [|done].
    destruct (isOOPFrame f m); [|done]. by apply anchored_update_frame.
  - apply anchored_emit. by apply anchored_add_new.
Qed.

Lemma anchored_waitForFrame r tid frameId w m :
  anchored r tid m ->
  anchored r tid
    match waitForFrame frameId w (_frameTree m) with
    | (Some fr, _) => set_microtasks (microtasks m ++ [(fr, w)]) m
    | (None, t) => set_frameTree t m
    end.
Proof.
  intros Ha. unfold waitForFrame.
  destruct (getById frameId (_frameTree m)).
  - by apply anchored_set_microtasks.
  - revert Ha. apply anchored_ext; [done|apply same_ids_refl|done].
Qed.

Lemma onFrameNavigated_anchored r tid stack framePayload navigationType m m' :
  anchored r tid m ->
  onFrameNavigated stack framePayload navigationType m = Some m' ->
  anchored r tid m'.
Proof.
  intros Ha. unfold onFrameNavigated.
  set (k := payload_id framePayload).
  destruct (getById k (_frameTree m)) as [fr|] eqn:Hfound.
  - destruct (forEach _ _ m) as [m1|] eqn:Hloop; [|done].
    destruct (children_loop_anchored r tid stack fr m m1 Ha Hloop)
      as [Ha1 Hs1].
    pose proof (forEach_remove_quiet _ _ _ _ Hloop) as (_ & _ & Hn & _).
    pose proof Ha as (Hwf & Hres & _ & Hfresh).
    destruct (well_keyed_lookup m k fr Hwf Hfound) as (ffr & Hffr & Hid).
    destruct (same_ids_lookup_r _ _ _ _ Hs1 Hffr) as (ffr1 & Hffr1 & Hi).
    assert (anchored r tid
              (if negb (truthy (payload_parentId framePayload))
               then tree_addFrame fr
                      (update_frame fr (updateId k) (tree_removeFrame fr m1))
               else m1)) as Ha2.
    { destruct (negb _); [|done].
      apply (anchored_readd r tid k fr ffr1); [done|done| | |].
      - injection Hi as Hi _. congruence.
      - intros ->. unfold frame in Hres. congruence.
      - apply map_get_Some_elem in Hfound. apply Hfresh in Hfound. lia. }
    set (m2 := if negb _ then _ else m1) in *.
    pose proof (anchored_waitForFrame r tid k (framePayload, navigationType)
                  m2 Ha2) as Ha3.
    destruct (waitForFrame k _ (_frameTree m2)) as [[fr'|] t];
      by intros [= <-].
  - assert (anchored r tid
              (if negb (truthy (payload_parentId framePayload))
               then tree_addFrame (nextObj m)
                      (alloc_frame (new_CdpFrame k None (client m)) m)
               else m)) as Ha2.
    { destruct (negb _); [|done]. by apply anchored_add_new. }
    set (m2 := if negb _ then _ else m) in *.
    pose proof (anchored_waitForFrame r tid k (framePayload, navigationType)
                  m2 Ha2) as Ha3.
    destruct (waitForFrame k _ (_frameTree m2)) as [[fr'|] t];
      by intros [= <-].
Qed.

Lemma ident_navigated p f : ident (_navigated p f) = ident f.
Proof. unfold _navigated. by destruct (String.eqb _ _). Qed.

Lemma anchored_navigated_continuation r tid task m :
  anchored r tid m -> anchored r tid (navigated_continuation task m).
Proof.
  intros Ha. destruct task as [fr [p ty]]. unfold navigated_continuation.
  do 2 apply anchored_emit. apply anchored_update_frame; [|done].
  apply ident_navigated.
Qed.

Lemma anchored_drain r tid m : anchored r tid m -> anchored r tid (drain m).
Proof.
  intros Ha. unfold drain.
  assert (anchored r tid (set_microtasks [] m)) as Ha0
    by (by apply anchored_set_microtasks).
  revert Ha0. generalize (set_microtasks [] m). generalize (microtasks m).
  intros tasks. induction tasks as [|task tasks IH]; intros m0 Ha0; [done|].
  simpl. by apply IH, anchored_navigated_continuation.
Qed.

Lemma handleFrameTree_anchored r tid stack session frameTree : forall m m',
  anchored r tid m ->
  handleFrameTree stack session frameTree m = Some m' -> anchored r tid m'.
Proof.
  induction frameTree as [fp children IH] using FrameTreePayload_rect'.
  intros m m' Ha. rewrite handleFrameTree_unfold. cbv zeta.
  set (m1 := match payload_parentId fp with Some _ => _ | None => m end).
  assert (anchored r tid m1) as Ha1.
  { subst m1. destruct (payload_parentId fp); [|done].
    destruct (truthy _); [by apply anchored_onFrameAttached|done]. }
  destruct (if negb _ then _ else _) as [m2|] eqn:Hnav; [|done].
  assert (anchored r tid m2) as Ha2.
  { destruct (negb _).
    - by eapply onFrameNavigated_anchored.
    - injection Hnav as <-. by apply anchored_set_frameNavigatedReceived. }
  revert Ha2. generalize m2 m'. clear -IH.
  induction IH as [|c cs Hc Hcs IHcs]; intros m2 m' Ha2; simpl.
  - by intros [= <-].
  - destruct (handleFrameTree stack session c m2) as [m3|] eqn:E; [|done].
    intros Hrest. eapply IHcs; [|done]. by eapply Hc.
Qed.

Lemma anchored_emit_FrameSwappedByActivation r tid fr m :
  anchored r tid m -> anchored r tid (emit_FrameSwappedByActivation fr m).
Proof. apply anchored_ext; [done|apply same_ids_refl|done]. Qed.

(** ** Registry keys *)

Lemma colonless_app s t :
  colonless (s +:+ t) = colonless s && colonless t.
Proof.
  induction s as [|a s IH]; [done|].
  change (colonless (String a s +:+ t))
    with (negb (Ascii.eqb a ":"%char) && colonless (s +:+ t)).
  rewrite IH. simpl. by rewrite andb_assoc.
Qed.

Lemma pretty_N_char_colonless x : pretty_N_char x <> ":"%char.
Proof. unfold pretty_N_char. by repeat case_match. Qed.

Lemma pretty_N_go_colonless x : forall s,
  colonless s = true -> colonless (pretty_N_go x s) = true.
Proof.
  induction (N.lt_wf_0 x) as [x _ IH]; intros s Hs.
  assert (x = 0 \/ 0 < x)%N as [->|Hpos] by lia.
  - by rewrite pretty_N_go_0.
  - rewrite pretty_N_go_step by done. apply IH; [by apply N.div_lt|].
    simpl. rewrite Hs, andb_true_r. apply negb_true_iff, Ascii.eqb_neq.
    apply pretty_N_char_colonless.
Qed.

Lemma pretty_N_colonless (x : N) : colonless (pretty x) = true.
Proof.
  unfold pretty, pretty_N. case_decide; [done|].
  by apply pretty_N_go_colonless.
Qed.

Lemma pretty_Z_colonless (x : Z) : colonless (pretty x) = true.
Proof.
  destruct x as [|p|p]; [done|apply pretty_N_colonless|].
  change (pretty (Z.neg p)) with ("-" +:+ pretty (N.pos p)).
  rewrite colonless_app, pretty_N_colonless. done.
Qed.

Lemma split_at_last_colon s1 : forall s2 t1 t2,
  colonless t1 = true -> colonless t2 = true ->
  s1 +:+ ":" +:+ t1 = s2 +:+ ":" +:+ t2 -> s1 = s2 /\ t1 = t2.
Proof.
  induction s1 as [|a s1 IH]; intros [|b s2] t1 t2 H1 H2 Heq.
  - change (String ":" t1 = String ":" t2) in Heq. by injection Heq as ->.
  - exfalso. change (String ":" t1 = String b (s2 +:+ ":" +:+ t2)) in Heq.
    injection Heq as <- ->.
    rewrite colonless_app in H1. apply andb_prop in H1 as [_ H1].
    done.
  - exfalso. change (String a (s1 +:+ ":" +:+ t1) = String ":" t2) in Heq.
    injection Heq as -> <-.
    rewrite colonless_app in H2. apply andb_prop in H2 as [_ H2].
    done.
  - change (String a (s1 +:+ ":" +:+ t1) = String b (s2 +:+ ":" +:+ t2))
      in Heq.
    injection Heq as -> Heq. apply IH in Heq as [-> ->]; done.
Qed.

Lemma context_key_inj2 s1 s2 i1 i2 :
  context_key s1 i1 = context_key s2 i2 ->
  sessionId s1 = sessionId s2 /\ i1 = i2.
Proof.
  unfold context_key. intros H.
  apply split_at_last_colon in H as [Hs Hi];
    [|apply pretty_Z_colonless..].
  split; [done|]. by apply (inj pretty).
Qed.

Lemma context_key_ne s1 s2 i1 i2 :
  (sessionId s1, i1) <> (sessionId s2, i2) ->
  context_key s1 i1 <> context_key s2 i2.
Proof. intros Hne [? ?]%context_key_inj2. congruence. Qed.


(** X7.  Registry keys do not collide, so destroying a context forgets
    exactly one entry: afterwards lookup by the destroyed (session, context
    id) finds nothing, and lookup by any other pair of session id and
    context id finds what it found before.  [executionContextById] then
    fails its assertion for the destroyed id. *)
Theorem onExecutionContextDestroyed_forgets_one
    (executionContextId : Z) (session : CDPSession) (m : FrameManager) :
  let m' := onExecutionContextDestroyed executionContextId session m in
  getExecutionContextById executionContextId session m' = None /\
  executionContextById executionContextId session m'
  = inl ("INTERNAL ERROR: missing context with id = "
         +:+ pretty executionContextId) /\
  forall contextId session',
    (sessionId session', contextId) <> (sessionId session, executionContextId) ->
    getExecutionContextById contextId session' m'
    = getExecutionContextById contextId session' m.
Proof.
  intros m'.
  assert (contextIdToContext m'
          = map_delete (contextIdToContext m)
              (context_key session executionContextId)
          \/ (contextIdToContext m' = contextIdToContext m /\
              map_get (contextIdToContext m)
                (context_key session executionContextId) = None)) as Hreg.
  { subst m'. unfold onExecutionContextDestroyed.
    destruct (map_get _ _) as [context|] eqn:Hget; [left|by right].
    cbn [contextObjs set_contextIdToContext].
    destruct (contextObjs m !! context) as [c|]; [|done].
    destruct (_world c); done. }
  assert (getExecutionContextById executionContextId session m' = None)
    as Hnone.
  { unfold getExecutionContextById.
    destruct Hreg as [-> | [-> ?]]; [apply map_get_delete_eq | done]. }
  split; [done|]. split.
  - unfold executionContextById. by rewrite Hnone.
  - intros contextId session' Hne. unfold getExecutionContextById.
    destruct Hreg as [-> | [-> ?]]; [|done].
    apply map_get_delete_ne. apply not_eq_sym. by apply context_key_ne.
Qed.

(** ** Creating and destroying a default context *)





Lemma world_holds_clearContext w m : world_holds (world_clearContext w m) w = None.
Proof.
  unfold world_holds, world_clearContext, update_frame.
  cbn [frameObjs set_frameObjs]. rewrite lookup_alter_eq.
  destruct (frameObjs m !! w.1) as [f|]; [|done]. simpl.
  by destruct w as [x []].
Qed.





(** ** Clearing the contexts of a session *)

Lemma filter_ext_elem {A} (P Q : A -> Prop)
    `{!forall x, Decision (P x)} `{!forall x, Decision (Q x)} (l : list A) :
  (forall x, x ∈ l -> (P x <-> Q x)) -> filter P l = filter Q l.
Proof.
  induction l as [|a l IH]; intros Hall; [done|].
  assert (filter P l = filter Q l) as Hl.
  { apply IH. intros x Hx. apply Hall. by right. }
  destruct (decide (P a)) as [Ha|Ha].
  - rewrite !filter_cons_True; [by rewrite Hl| |done].
    apply (Hall a); [by left | done].
  - rewrite !filter_cons_False; [done| |done].
    intros Hq. apply Ha. apply (Hall a); [by left | done].
Qed.

Lemma clear_entry_registry session m entry :
  contextObjs (clear_entry session m entry) = contextObjs m /\
  contextIdToContext (clear_entry session m entry)
  = if belongs session (contextObjs m) entry
    then map_delete (contextIdToContext m) entry.1
    else contextIdToContext m.
Proof.
  unfold clear_entry, belongs.
  destruct (contextObjs m !! entry.2) as [c|]; [|done].
  case_bool_decide; simpl; [|done]. by destruct (_world c).
Qed.

Lemma foldl_clear_entry_registry session l : forall m,
  contextObjs (foldl (clear_entry session) m l) = contextObjs m /\
  contextIdToContext (foldl (clear_entry session) m l)
  = filter
      (fun e' : string * obj =>
         negb (existsb (fun e => belongs session (contextObjs m) e
                                 && String.eqb e'.1 e.1) l))
      (contextIdToContext m).
Proof.
  induction l as [|e l IH]; intros m.
  - split; [done|]. simpl. symmetry. by apply filter_keep_all.
  - cbn [foldl]. destruct (IH (clear_entry session m e)) as [Hobjs Hreg].
    destruct (clear_entry_registry session m e) as [Hobjs1 Hreg1].
    rewrite Hobjs, Hreg, Hobjs1, Hreg1. split; [done|].
    destruct (belongs session (contextObjs m) e) eqn:Hb.
    + unfold map_delete. rewrite list_filter_filter.
      apply filter_ext_elem. intros e' _. simpl. rewrite Hb. simpl.
      destruct (String.eqb e'.1 e.1); simpl; tauto.
    + apply filter_ext_elem. intros e' _. simpl. by rewrite Hb.
Qed.

Lemma distinct_same_key {V} (l : list (string * V)) k v v' :
  distinct (map fst l) = true -> (k, v) ∈ l -> (k, v') ∈ l -> v = v'.
Proof.
  intros Hd H1 H2.
  apply (distinct_map_get _ _ _ Hd) in H1, H2. congruence.
Qed.

Lemma world_holds_clearContext_other w' w m :
  world_holds m w = None -> world_holds (world_clearContext w' m) w = None.
Proof.
  intros Hnone. destruct (decide (w' = w)) as [->|Hne];
    [apply world_holds_clearContext|].
  unfold world_holds, world_clearContext, update_frame in *.
  cbn [frameObjs set_frameObjs].
  destruct (decide (w'.1 = w.1)) as [Heq|Hne1].
  - rewrite Heq, lookup_alter_eq.
    destruct (frameObjs m !! w.1) as [f|]; [|done]. simpl in *.
    destruct w as [r k], w' as [r' k']. simpl in *. subst r'.
    destruct k, k'; try done; exfalso; by apply Hne.
  - by rewrite lookup_alter_ne.
Qed.

Lemma clear_entry_world_none session m entry w :
  world_holds m w = None -> world_holds (clear_entry session m entry) w = None.
Proof.
  intros Hnone. unfold clear_entry.
  destruct (contextObjs m !! entry.2) as [c|]; [|done].
  destruct (negb _); [done|].
  destruct (_world c) as [w'|]; [|done].
  change (world_holds (world_clearContext w' m) w = None).
  by apply world_holds_clearContext_other.
Qed.

Lemma foldl_clear_entry_world_none session l : forall m w,
  world_holds m w = None ->
  world_holds (foldl (clear_entry session) m l) w = None.
Proof.
  induction l as [|e l IH]; intros m w Hnone; [done|].
  cbn [foldl]. apply IH. by apply clear_entry_world_none.
Qed.

Lemma foldl_clear_entry_worlds session l : forall m k c ctx w,
  (k, c) ∈ l -> contextObjs m !! c = Some ctx ->
  _client ctx = session -> _world ctx = Some w ->
  world_holds (foldl (clear_entry session) m l) w = None.
Proof.
  induction l as [|e l IH]; intros m k c ctx w Hin Hc Hs Hw;
    [by apply elem_of_nil in Hin|].
  cbn [foldl]. apply elem_of_cons in Hin as [<-|Hin].
  - apply foldl_clear_entry_world_none. unfold clear_entry. simpl.
    rewrite Hc, Hw. rewrite bool_decide_eq_true_2 by done. simpl.
    change (world_holds (world_clearContext w m) w = None).
    apply world_holds_clearContext.
  - eapply IH; [done| |done..].
    by rewrite (proj1 (clear_entry_registry session m e)).
Qed.

(** X10.  Clearing the execution contexts of a session removes from the
    registry exactly the contexts of that session, keeping every other
    entry in place and in order, and leaves every World such a context was
    bound to without a context. *)
Theorem onExecutionContextsCleared_clears_session
    (session : CDPSession) (m : FrameManager) :
  distinct (map fst (contextIdToContext m)) = true ->
  let m' := onExecutionContextsCleared session m in
  contextIdToContext m'
  = filter (fun e => negb (belongs session (contextObjs m) e))
      (contextIdToContext m) /\
  contextObjs m' = contextObjs m /\
  forall k c ctx w,
    (k, c) ∈ contextIdToContext m -> contextObjs m !! c = Some ctx ->
    _client ctx = session -> _world ctx = Some w ->
    world_holds m' w = None.
Proof.
  intros Hd m'. subst m'. unfold onExecutionContextsCleared.
  destruct (foldl_clear_entry_registry session (contextIdToContext m) m)
    as [Hobjs Hreg].
  split; [|split; [done|]].
  - rewrite Hreg. apply filter_ext_elem. intros [k' c'] Hin.
    destruct (belongs session (contextObjs m) (k', c')) eqn:Hb; simpl.
    + assert (existsb
                (fun e : string * obj =>
                   belongs session (contextObjs m) e && String.eqb k' e.1)
                (contextIdToContext m) = true) as ->; [|done].
      apply existsb_exists. exists (k', c'). split; [by apply list_elem_of_In|].
      by rewrite Hb, String.eqb_refl.
    + assert (existsb
                (fun e : string * obj =>
                   belongs session (contextObjs m) e && String.eqb k' e.1)
                (contextIdToContext m) = false) as ->; [|done].
      apply not_true_is_false. intros ([k c] & Hin' & Hkc)%existsb_exists.
      apply list_elem_of_In in Hin'.
      apply andb_prop in Hkc as [Hbel Hk]. apply String.eqb_eq in Hk.
      simpl in Hk. subst k.
      assert (c = c') by (by eapply distinct_same_key). subst c.
      congruence.
  - intros k c ctx w Hin Hc Hs Hw.
    by eapply foldl_clear_entry_worlds.
Qed.

Lemma onExecutionContextsCleared_clears_session_witness :
  let m := onExecutionContextCreated (utility_context 2) page
             (onExecutionContextCreated (default_context "A" 1 "") page
                rootA) in
  let m' := onExecutionContextsCleared page m in
  contextIdToContext m' = [] /\
  contextObjs m' = contextObjs m /\
  forall k c ctx w,
    (k, c) ∈ contextIdToContext m -> contextObjs m !! c = Some ctx ->
    _client ctx = page -> _world ctx = Some w ->
    world_holds m' w = None.
Proof.
  intros m m'.
  apply (onExecutionContextsCleared_clears_session page m).
  vm_compute. reflexivity.
Defined.

(** ** A frame-tree snapshot after a navigation event *)

Lemma forEach_remove_fnr stack : forall l m m',
  forEach (removeFramesRecursively stack) l m = Some m' ->
  frameNavigatedReceived m' = frameNavigatedReceived m.
Proof.
  induction stack as [|stack IH].
  - intros [|x l] m m'; simpl; [by intros [= <-] | done].
  - intros l m m'.
    apply (forEach_preserves
             (fun m m' => frameNavigatedReceived m' = frameNavigatedReceived m)
             _ (fun _ => True)); [done|congruence| |by apply Forall_true].
    intros x s s' _. rewrite removeFramesRecursively_unfold.
    destruct (forEach _ _ s) as [s1|] eqn:Hloop; [|done]. intros [= <-].
    apply IH in Hloop. rewrite <- Hloop.
    by destruct (detach_one_rest x s1) as (_ & _ & _ & _ & _ & _ & ? & _).
Qed.

Lemma tree_addFrame_fnr x m :
  frameNavigatedReceived (tree_addFrame x m) = frameNavigatedReceived m.
Proof.
  unfold tree_addFrame. destruct (frameObjs m !! x) as [f|]; [|done].
  by destruct (addFrame x f (_frameTree m)).
Qed.

Lemma tree_removeFrame_fnr x m :
  frameNavigatedReceived (tree_removeFrame x m) = frameNavigatedReceived m.
Proof.
  unfold tree_removeFrame. by destruct (frameObjs m !! x).
Qed.

Lemma onFrameNavigated_fnr stack framePayload navigationType m m' :
  onFrameNavigated stack framePayload navigationType m = Some m' ->
  frameNavigatedReceived m' = frameNavigatedReceived m.
Proof.
  unfold onFrameNavigated.
  destruct (match getById (payload_id framePayload) (_frameTree m) with
            | Some fr => _ | None => Some m end) as [m1|] eqn:Hloop; [|done].
  assert (frameNavigatedReceived m1 = frameNavigatedReceived m) as H1.
  { destruct (getById _ _); [by eapply forEach_remove_fnr | congruence]. }
  set (m2 := if negb _ then _ else m1).
  assert (frameNavigatedReceived m2 = frameNavigatedReceived m) as H2.
  { subst m2. destruct (negb _); [|done].
    destruct (getById _ _).
    - rewrite tree_addFrame_fnr.
      cbn [frameNavigatedReceived update_frame set_frameObjs].
      by rewrite tree_removeFrame_fnr.
    - rewrite tree_addFrame_fnr. exact H1. }
  destruct (waitForFrame _ _ _) as [[fr|] t]; intros [= <-]; done.
Qed.

Lemma foldl_continuations_fields tasks : forall m,
  frameNavigatedReceived
    (foldl (fun m task => navigated_continuation task m) m tasks)
  = frameNavigatedReceived m /\
  microtasks (foldl (fun m task => navigated_continuation task m) m tasks)
  = microtasks m /\
  _frameTree (foldl (fun m task => navigated_continuation task m) m tasks)
  = _frameTree m.
Proof.
  induction tasks as [|[fr [p ty]] tasks IH]; intros m; [done|].
  destruct (IH (navigated_continuation (fr, (p, ty)) m)) as (H1 & H2 & H3).
  split; [|split]; (etrans; [eassumption|done]).
Qed.

Lemma drain_fields m :
  frameNavigatedReceived (drain m) = frameNavigatedReceived m /\
  microtasks (drain m) = [] /\
  _frameTree (drain m) = _frameTree m.
Proof.
  unfold drain.
  destruct (foldl_continuations_fields (microtasks m) (set_microtasks [] m))
    as (-> & -> & ->). done.
Qed.

(** X11.  The frame-tree snapshot is ignored, once, for a frame that has
    received a navigation event: after a [Page.frameNavigated] event for a
    frame, replaying a snapshot whose root is that frame navigates nothing
    and announces nothing for the root; it only consumes the mark and goes
    on with the children of the snapshot. *)
Theorem snapshot_skips_navigated_frame
    (stack : nat) (session : CDPSession) (framePayload root : FramePayload)
    (type : NavigationType) (children : list FrameTreePayload)
    (m m1 : FrameManager) :
  payload_id root = payload_id framePayload ->
  payload_parentId root = None ->
  handle stack (Page_frameNavigated framePayload type) m = Some m1 ->
  payload_id framePayload ∈ frameNavigatedReceived m1 /\
  handleFrameTree stack session (FrameTreeNode root children) m1
  = forEach (handleFrameTree stack session) children
      (set_frameNavigatedReceived
         (frameNavigatedReceived m1 ∖ {[payload_id framePayload]}) m1).
Proof.
  intros Hid Hroot Hhandle. cbn [handle] in Hhandle.
  destruct (onFrameNavigated _ _ _ _) as [m0|] eqn:Hnav; [|done].
  injection Hhandle as <-.
  apply onFrameNavigated_fnr in Hnav. cbn [frameNavigatedReceived
    set_frameNavigatedReceived] in Hnav.
  assert (payload_id framePayload ∈ frameNavigatedReceived (drain m0)) as Hin.
  { rewrite (proj1 (drain_fields m0)), Hnav. set_solver. }
  split; [done|].
  rewrite handleFrameTree_unfold, Hroot. cbv zeta. rewrite Hid.
  by rewrite bool_decide_eq_true_2 by done.
Qed.

Lemma snapshot_skips_navigated_frame_witness :
  "A" ∈ frameNavigatedReceived rootA /\
  handleFrameTree stack page
    (FrameTreeNode (mkFramePayload "A" None "L0" "about:blank") []) rootA
  = forEach (handleFrameTree stack page) []
      (set_frameNavigatedReceived (frameNavigatedReceived rootA ∖ {["A"]})
         rootA).
Proof.
  apply (snapshot_skips_navigated_frame stack page
           (mkFramePayload "A" None "L1" "http://a/")
           (mkFramePayload "A" None "L0" "about:blank") Navigation []
           (new_FrameManager page 0) rootA);
    [reflexivity | reflexivity | vm_compute; reflexivity].
Defined.

(** ** Out-of-process frames *)

(** X12.  Only iframe targets concern the manager.  Attaching an iframe
    target whose id names a registered Frame binds that Frame to the
    target's session at once, whatever session it had; a later
    frame-attached event for the same id then binds it to the event's
    session, for the Frame has become out-of-process.  Neither step
    constructs a Frame, changes the tree or announces anything. *)
Theorem onAttachedToTarget_then_reattached
    (m : FrameManager) (targetType targetId parentFrameId : string)
    (session back : CDPSession) (fr : obj) (f : CdpFrame) :
  frame targetId m = Some fr -> frameObjs m !! fr = Some f ->
  session <> client m ->
  let m1 := onAttachedToTarget "iframe" targetId session m in
  let m2 := onFrameAttached back targetId parentFrameId m1 in
  (targetType <> "iframe" ->
   onAttachedToTarget targetType targetId session m = m) /\
  frameObjs m1 !! fr = Some (updateClient session false f) /\
  frameObjs m2 !! fr = Some (updateClient back false f) /\
  _frameTree m2 = _frameTree m /\ emitted m2 = emitted m /\
  nextObj m2 = nextObj m.
Proof.
  intros Hfr Hf Hne m1 m2.
  assert (m1 = update_frame fr (updateClient session false) m) as Hm1.
  { subst m1. unfold onAttachedToTarget. by rewrite Hfr. }
  assert (frameObjs m1 !! fr = Some (updateClient session false f)) as Hf1.
  { rewrite Hm1, update_frame_lookup, Hf. done. }
  assert (m2 = update_frame fr (updateClient back false) m1) as Hm2.
  { subst m2.
    rewrite (onFrameAttached_existing back targetId parentFrameId m1 fr
               (updateClient session false f)); [|by rewrite Hm1|done].
    unfold isOOPFrame. rewrite Hm1. cbn [frame_client updateClient client
      update_frame set_frameObjs].
    by rewrite bool_decide_eq_false_2 by done. }
  split; [|split; [done|split; [|by rewrite Hm2, Hm1]]].
  - intros Htype. unfold onAttachedToTarget.
    by rewrite (proj2 (String.eqb_neq targetType "iframe")) by done.
  - rewrite Hm2, update_frame_lookup, Hf1. done.
Qed.

Lemma onAttachedToTarget_then_reattached_witness :
  let m1 := onAttachedToTarget "iframe" "B" oopif rootA_childB in
  let m2 := onFrameAttached page "B" "A" m1 in
  (("page" : string) <> "iframe" ->
   onAttachedToTarget "page" "B" oopif rootA_childB = rootA_childB) /\
  frameObjs m1 !! 1 = Some (updateClient oopif false frameB) /\
  frameObjs m2 !! 1 = Some (updateClient page false frameB) /\
  _frameTree m2 = _frameTree rootA_childB /\
  emitted m2 = emitted rootA_childB /\
  nextObj m2 = nextObj rootA_childB.
Proof.
  apply (onAttachedToTarget_then_reattached rootA_childB "page" "B" "A"
           oopif page 1 frameB);
    [vm_compute; reflexivity | vm_compute; reflexivity | discriminate].
Defined.

(** ** What keeps the tree in order *)

Lemma calm_refl m : calm m m.
Proof. split; [done|]. split; [done|]. split; [apply same_ids_refl|done]. Qed.

Lemma calm_trans m1 m2 m3 : calm m1 m2 -> calm m2 m3 -> calm m1 m3.
Proof.
  intros (Hf1 & Hm1 & Hs1 & Hn1) (Hf2 & Hm2 & Hs2 & Hn2).
  split; [congruence|]. split; [congruence|].
  split; [by eapply same_ids_trans | lia].
Qed.

Lemma calm_same m m' :
  _frameTree m' = _frameTree m -> frameObjs m' = frameObjs m ->
  nextObj m <= nextObj m' -> calm m m'.
Proof.
  intros Ht Hh Hn. split; [by rewrite Ht|]. split; [by rewrite Ht|].
  split; [rewrite Hh; apply same_ids_refl | done].
Qed.

Lemma calm_update_frame x g m :
  (forall f, ident (g f) = ident f) -> calm m (update_frame x g m).
Proof.
  intros Hg. split; [done|]. split; [done|]. split; [|done].
  apply same_ids_alter. intros f _. apply Hg.
Qed.

Lemma tidy_calm m m' : calm m m' -> tidy m -> tidy m'.
Proof.
  intros (Hfr & Hmain & Hs & Hn) (Hwf & Hfresh & Hm).
  split; [by rewrite (well_keyed_ext m m')|]. split.
  - intros k x. rewrite Hfr. intros Hin. apply Hfresh in Hin. lia.
  - intros r. rewrite Hmain. intros Hr.
    destruct (Hm r Hr) as (Hlt & f & Hf & Hp). split; [lia|].
    destruct (same_ids_lookup_r _ _ _ _ Hs Hf) as (f' & Hf' & Hid).
    exists f'. split; [done|]. unfold ident in Hid. congruence.
Qed.

Lemma ident_set_world k w f : ident (set_world k w f) = ident f.
Proof. by destruct k. Qed.

Lemma ident_updateClient c b f : ident (updateClient c b f) = ident f.
Proof. done. Qed.

Lemma ident_onLifecycleEvent l n f : ident (_onLifecycleEvent l n f) = ident f.
Proof.
  unfold _onLifecycleEvent. destruct (negb _); [done|].
  destruct (String.eqb n "DOMContentLoaded"); [done|].
  by destruct (String.eqb n "load").
Qed.

Lemma calm_world_setContext w c m : calm m (world_setContext w c m).
Proof. apply calm_update_frame. intros f. apply ident_set_world. Qed.

Lemma calm_world_clearContext w m : calm m (world_clearContext w m).
Proof. apply calm_update_frame. intros f. apply ident_set_world. Qed.

Lemma calm_onExecutionContextCreated contextPayload session m :
  calm m (onExecutionContextCreated contextPayload session m).
Proof.
  unfold onExecutionContextCreated.
  destruct (match auxData_frameId contextPayload with
            | Some frameId => frame frameId m | None => None end) as [fr|];
    [|apply calm_refl].
  destruct (frameObjs m !! fr) as [f|]; [|apply calm_refl].
  destruct (negb _); [apply calm_refl|].
  destruct (if auxData_isDefault contextPayload then _ else _) as [k|];
    [|apply calm_refl].
  eapply calm_trans; [|apply calm_same; [done|done|done]].
  eapply calm_trans; [|apply calm_world_setContext].
  apply calm_same; [done|done|simpl; lia].
Qed.

Lemma calm_onExecutionContextDestroyed executionContextId session m :
  calm m (onExecutionContextDestroyed executionContextId session m).
Proof.
  unfold onExecutionContextDestroyed.
  destruct (map_get _ _) as [context|]; [|apply calm_refl].
  cbn [contextObjs set_contextIdToContext].
  destruct (contextObjs m !! context) as [c|]; [|by apply calm_same].
  destruct (_world c) as [w|]; [|by apply calm_same].
  eapply calm_trans; [|apply calm_world_clearContext]. by apply calm_same.
Qed.

Lemma calm_clear_entry session m entry : calm m (clear_entry session m entry).
Proof.
  unfold clear_entry.
  destruct (contextObjs m !! entry.2) as [c|]; [|apply calm_refl].
  destruct (negb _); [apply calm_refl|].
  apply (calm_trans _ (match _world c with
                       | Some w => world_clearContext w m
                       | None => m
                       end)); [|by apply calm_same].
  destruct (_world c); [apply calm_world_clearContext | apply calm_refl].
Qed.

Lemma calm_foldl_clear session l : forall m,
  calm m (foldl (clear_entry session) m l).
Proof.
  induction l as [|e l IH]; intros m; [apply calm_refl|].
  cbn [foldl]. eapply calm_trans; [apply calm_clear_entry | apply IH].
Qed.

Lemma calm_onExecutionContextsCleared session m :
  calm m (onExecutionContextsCleared session m).
Proof. apply calm_foldl_clear. Qed.

Lemma calm_emit n m : calm m (emit n m).
Proof. by apply calm_same. Qed.

Lemma calm_onLifecycleEvent event m : calm m (onLifecycleEvent event m).
Proof.
  unfold onLifecycleEvent. destruct (frame _ m) as [fr|]; [|apply calm_refl].
  eapply calm_trans; [|apply calm_emit].
  eapply calm_trans; [|apply calm_emit].
  apply calm_update_frame. intros f. apply ident_onLifecycleEvent.
Qed.

Lemma calm_onFrameStartedLoading frameId m :
  calm m (onFrameStartedLoading frameId m).
Proof.
  unfold onFrameStartedLoading.
  destruct (frame _ m) as [fr|]; [|apply calm_refl].
  by apply calm_update_frame.
Qed.

Lemma calm_onFrameStoppedLoading frameId m :
  calm m (onFrameStoppedLoading frameId m).
Proof.
  unfold onFrameStoppedLoading.
  destruct (frame _ m) as [fr|]; [|apply calm_refl].
  eapply calm_trans; [|apply calm_emit].
  eapply calm_trans; [|apply calm_emit].
  by apply calm_update_frame.
Qed.

Lemma calm_onFrameNavigatedWithinDocument frameId url m :
  calm m (onFrameNavigatedWithinDocument frameId url m).
Proof.
  unfold onFrameNavigatedWithinDocument.
  destruct (frame _ m) as [fr|]; [|apply calm_refl].
  do 4 (eapply calm_trans; [|apply calm_emit]).
  by apply calm_update_frame.
Qed.

Lemma calm_navigated_continuation task m :
  calm m (navigated_continuation task m).
Proof.
  destruct task as [fr [p ty]]. unfold navigated_continuation.
  do 2 (eapply calm_trans; [|apply calm_emit]).
  apply calm_update_frame. intros f. apply ident_navigated.
Qed.

Lemma calm_drain m : calm m (drain m).
Proof.
  unfold drain. eapply calm_trans; [by apply (calm_same m (set_microtasks [] m))|].
  generalize (set_microtasks [] m). generalize (microtasks m).
  intros tasks. induction tasks as [|t tasks IH]; intros s; [apply calm_refl|].
  cbn [foldl]. eapply calm_trans; [apply calm_navigated_continuation|apply IH].
Qed.

Lemma calm_emit_FrameSwappedByActivation fr m :
  calm m (emit_FrameSwappedByActivation fr m).
Proof. by apply calm_same. Qed.

(** Removal. *)

Lemma tidy_detach_one x m : tidy m -> tidy (detach_one x m).
Proof.
  intros (Hwf & Hfresh & Hm).
  destruct (detach_one_rest x m) as (_ & _ & _ & Hn & _).
  split; [by apply well_keyed_detach_one|]. split.
  - intros k y. rewrite detach_one_tree, Hn.
    destruct (frameObjs m !! x) as [f|]; [|apply Hfresh].
    cbn [removeFrame frames]. unfold map_delete.
    intros [_ Hin]%list_elem_of_filter. by eapply Hfresh.
  - intros r. rewrite detach_one_tree, Hn. intros Hr.
    assert (mainFrame (_frameTree m) = Some r) as Hr'.
    { destruct (frameObjs m !! x) as [f|]; [|done].
      cbn [removeFrame mainFrame] in Hr. by destruct (_parentId f). }
    destruct (Hm r Hr') as (Hlt & f & Hf & Hp). split; [done|].
    destruct (same_ids_lookup_r _ _ _ _ (same_ids_detach_one x m) Hf)
      as (f' & Hf' & Hid).
    exists f'. split; [done|]. unfold ident in Hid. congruence.
Qed.

Lemma removeFramesRecursively_tidy stack : forall x m m',
  removeFramesRecursively stack x m = Some m' -> tidy m -> tidy m'.
Proof.
  induction stack as [|stack IH]; intros x m m'; [done|].
  rewrite removeFramesRecursively_unfold.
  destruct (forEach _ _ m) as [m1|] eqn:Hloop; [|done]. intros [= <-] Ht.
  apply tidy_detach_one. revert Ht.
  eapply (forEach_preserves (fun m m' => tidy m -> tidy m') _
            (fun _ => True)); [done|auto| |by apply Forall_true|done].
  intros a s s' _. apply IH.
Qed.

Lemma forEach_remove_tidy stack l m m' :
  forEach (removeFramesRecursively stack) l m = Some m' -> tidy m -> tidy m'.
Proof.
  eapply (forEach_preserves (fun m m' => tidy m -> tidy m') _
            (fun _ => True)); [done|auto| |by apply Forall_true].
  intros a s s' _. apply removeFramesRecursively_tidy.
Qed.

Lemma removeFramesRecursively_same_ids stack : forall x m m',
  removeFramesRecursively stack x m = Some m' ->
  same_ids (frameObjs m) (frameObjs m').
Proof.
  induction stack as [|stack IH]; intros x m m'; [done|].
  rewrite removeFramesRecursively_unfold.
  destruct (forEach _ _ m) as [m1|] eqn:Hloop; [|done]. intros [= <-].
  eapply same_ids_trans; [|apply same_ids_detach_one].
  revert Hloop.
  eapply (forEach_preserves
            (fun m m' => same_ids (frameObjs m) (frameObjs m')) _
            (fun _ => True));
    [intros; apply same_ids_refl|intros; by eapply same_ids_trans| |
     by apply Forall_true].
  intros a s s' _. apply IH.
Qed.

Lemma forEach_remove_same_ids stack l m m' :
  forEach (removeFramesRecursively stack) l m = Some m' ->
  same_ids (frameObjs m) (frameObjs m').
Proof.
  eapply (forEach_preserves
            (fun m m' => same_ids (frameObjs m) (frameObjs m')) _
            (fun _ => True));
    [intros; apply same_ids_refl|intros; by eapply same_ids_trans| |
     by apply Forall_true].
  intros a s s' _. apply removeFramesRecursively_same_ids.
Qed.

(** Filing. *)

Lemma map_set_keys {V} (l : list (string * V)) k v a :
  existsb (String.eqb a) (map fst (map_set l k v))
  = existsb (String.eqb a) (map fst l) || String.eqb a k.
Proof.
  induction l as [|[k0 v0] l IH]; simpl; [by rewrite orb_false_r|].
  destruct (String.eqb k0 k) eqn:E; simpl.
  - apply String.eqb_eq in E. subst k0.
    destruct (String.eqb a k); simpl; [done | by rewrite orb_false_r].
  - rewrite IH. by rewrite orb_assoc.
Qed.

Lemma distinct_map_set {V} (l : list (string * V)) k v :
  distinct (map fst l) = true -> distinct (map fst (map_set l k v)) = true.
Proof.
  induction l as [|[k0 v0] l IH]; simpl; [done|].
  intros [Hhead Htail]%andb_prop.
  destruct (String.eqb k0 k) eqn:E; simpl.
  - by rewrite Hhead, Htail.
  - rewrite map_set_keys, IH by done. rewrite andb_true_r.
    apply negb_true_iff in Hhead. rewrite Hhead, E. done.
Qed.

Lemma map_set_elem {V} (l : list (string * V)) k v e :
  e ∈ map_set l k v -> e = (k, v) \/ e ∈ l.
Proof.
  induction l as [|[k0 v0] l IH]; simpl.
  - intros ->%list_elem_of_singleton. by left.
  - destruct (String.eqb k0 k) eqn:E.
    + apply String.eqb_eq in E. subst k0.
      intros [->|Hin]%elem_of_cons; [by left|]. right. by right.
    + intros [->|Hin]%elem_of_cons; [right; by left|].
      destruct (IH Hin) as [->|?]; [by left|]. right. by right.
Qed.

Lemma tidy_tree_addFrame (x : obj) m :
  tidy m -> x < nextObj m -> tidy (tree_addFrame x m).
Proof.
  intros (Hwf & Hfresh & Hm) Hx.
  destruct (frameObjs m !! x) as [f|] eqn:Hf;
    [|unfold tree_addFrame; by rewrite Hf].
  rewrite (tree_addFrame_eq x m f Hf).
  set (m' := set_microtasks _ _).
  assert (frames (_frameTree m') = map_set (frames (_frameTree m)) (_id f) x)
    as Hfr by done.
  assert (frameObjs m' = frameObjs m) as Hh by done.
  assert (nextObj m' = nextObj m) as Hn by done.
  assert (mainFrame (_frameTree m')
          = match _parentId f, mainFrame (_frameTree m) with
            | None, None => Some x
            | _, main => main
            end) as Hmain by done.
  clearbody m'.
  pose proof Hwf as [Hd Hall]%andb_prop. rewrite forallb_forall in Hall.
  split; [|split].
  - unfold well_keyed. rewrite Hfr, Hh. apply andb_true_intro.
    split; [by apply distinct_map_set|].
    apply forallb_forall. intros e He. apply list_elem_of_In in He.
    apply map_set_elem in He as [->|He].
    + unfold keyed_entry. cbn [fst snd]. rewrite Hf. apply String.eqb_refl.
    + apply Hall. by apply list_elem_of_In.
  - intros k y. rewrite Hfr, Hn.
    intros [[= -> ->]|Hin]%map_set_elem; [done|]. by eapply Hfresh.
  - intros r. rewrite Hmain, Hn, Hh. intros Hr.
    destruct (_parentId f) eqn:Hp, (mainFrame (_frameTree m)) eqn:Hmm;
      try (apply Hm; congruence).
    injection Hr as <-. split; [done|]. by exists f.
Qed.

Lemma tidy_alloc_frame f m : tidy m -> tidy (alloc_frame f m).
Proof.
  intros (Hwf & Hfresh & Hm).
  pose proof Hwf as [Hd Hall]%andb_prop. rewrite forallb_forall in Hall.
  split; [|split].
  - unfold well_keyed. cbn. apply andb_true_intro. split; [done|].
    apply forallb_forall. intros [k y] He.
    pose proof (Hall _ He) as Hk. apply list_elem_of_In in He.
    apply Hfresh in He. unfold keyed_entry in *. cbn [snd fst] in *.
    rewrite lookup_insert_ne by lia. done.
  - intros k y Hin. cbn in *. apply Hfresh in Hin. lia.
  - intros r Hr. cbn in *. destruct (Hm r Hr) as (Hlt & f' & Hf' & Hp).
    split; [lia|]. exists f'. rewrite lookup_insert_ne by lia. done.
Qed.

Lemma tidy_tree_removeFrame x m : tidy m -> tidy (tree_removeFrame x m).
Proof.
  intros (Hwf & Hfresh & Hm).
  destruct (frameObjs m !! x) as [f|] eqn:Hf;
    [|unfold tree_removeFrame; by rewrite Hf].
  rewrite (tree_removeFrame_eq x m f Hf).
  split; [by apply well_keyed_removeFrame|]. split.
  - intros k y. cbn. unfold map_delete.
    intros [_ Hin]%list_elem_of_filter. by eapply Hfresh.
  - intros r. cbn. destruct (_parentId f); [apply Hm | done].
Qed.

Lemma absent_tree_removeFrame x m f :
  well_keyed m = true -> frameObjs m !! x = Some f ->
  absent x (tree_removeFrame x m).
Proof.
  intros Hwf Hf k. rewrite (tree_removeFrame_eq x m f Hf). cbn.
  unfold map_delete. intros [Hk Hin]%list_elem_of_filter.
  destruct (well_keyed_entry m k x Hwf Hin) as (_ & f' & Hf' & Hid).
  simpl in Hk. assert (f' = f) by congruence. subst f'.
  rewrite Hid, String.eqb_refl in Hk. done.
Qed.

Lemma tidy_updateId_absent x k m :
  tidy m -> absent x m -> tidy (update_frame x (updateId k) m).
Proof.
  intros (Hwf & Hfresh & Hm) Habs.
  pose proof Hwf as [Hd Hall]%andb_prop. rewrite forallb_forall in Hall.
  split; [|split].
  - unfold well_keyed. cbn. apply andb_true_intro. split; [done|].
    apply forallb_forall. intros [k' y] He.
    pose proof (Hall _ He) as Hk. apply list_elem_of_In in He.
    unfold keyed_entry in *. cbn [snd fst] in *.
    rewrite lookup_alter_ne; [done|]. intros <-. by apply (Habs k').
  - done.
  - intros r Hr. destruct (Hm r Hr) as (Hlt & f & Hf & Hp).
    split; [done|]. cbn. destruct (decide (x = r)) as [->|Hne].
    + rewrite lookup_alter_eq, Hf. by eexists.
    + rewrite lookup_alter_ne by done. by eexists.
Qed.

Lemma absent_calm x m m' : calm m m' -> absent x m -> absent x m'.
Proof. intros (Hfr & _) Habs k. rewrite Hfr. apply Habs. Qed.

(** The handlers. *)

Lemma tidy_onFrameAttached session frameId parentFrameId m :
  tidy m -> tidy (onFrameAttached session frameId parentFrameId m).
Proof.
  intros Ht. unfold onFrameAttached. destruct (frame frameId m) as [fr|].
  - destruct (frameObjs m !! fr) as [f|]; [|done].
    destruct (isOOPFrame f m); [|done].
    revert Ht. apply tidy_calm. by apply calm_update_frame.
  - eapply tidy_calm; [apply calm_emit|].
    apply tidy_tree_addFrame; [by apply tidy_alloc_frame | simpl; lia].
Qed.

Lemma tidy_readd (fr : obj) k m :
  tidy m -> fr < nextObj m ->
  tidy (tree_addFrame fr (update_frame fr (updateId k) (tree_removeFrame fr m))).
Proof.
  intros Ht Hfr.
  destruct (frameObjs m !! fr) as [f|] eqn:Hf.
  - apply tidy_tree_addFrame.
    + apply tidy_updateId_absent; [by apply tidy_tree_removeFrame|].
      eapply absent_tree_removeFrame; [apply Ht | done].
    + cbn. rewrite (tree_removeFrame_eq fr m f Hf). done.
  - assert (tree_removeFrame fr m = m) as ->
      by (unfold tree_removeFrame; by rewrite Hf).
    apply tidy_tree_addFrame; [|done].
    revert Ht. apply tidy_calm. split; [done|]. split; [done|].
    split; [|done]. intros y. cbn.
    destruct (decide (fr = y)) as [<-|Hne].
    + by rewrite lookup_alter_eq, Hf.
    + by rewrite lookup_alter_ne.
Qed.

Lemma nextObj_forEach_remove stack l m m' :
  forEach (removeFramesRecursively stack) l m = Some m' ->
  nextObj m <= nextObj m'.
Proof. intros H%forEach_remove_quiet. by destruct H as (_ & _ & ? & _). Qed.

Lemma calm_waitForFrame frameId w m :
  calm m
    match waitForFrame frameId w (_frameTree m) with
    | (Some fr, _) => set_microtasks (microtasks m ++ [(fr, w)]) m
    | (None, t) => set_frameTree t m
    end.
Proof.
  unfold waitForFrame. destruct (getById frameId (_frameTree m)).
  - by apply calm_same.
  - split; [done|]. split; [done|]. split; [apply same_ids_refl|done].
Qed.

Lemma onFrameNavigated_tidy stack framePayload navigationType m m' :
  onFrameNavigated stack framePayload navigationType m = Some m' ->
  tidy m -> tidy m'.
Proof.
  unfold onFrameNavigated. intros Hnav Ht.
  destruct (getById (payload_id framePayload) (_frameTree m)) as [fr|] eqn:Hfr.
  - destruct (forEach _ _ m) as [m1|] eqn:Hloop; [|done].
    pose proof (forEach_remove_tidy _ _ _ _ Hloop Ht) as Ht1.
    pose proof (nextObj_forEach_remove _ _ _ _ Hloop) as Hn.
    assert (fr < nextObj m1) as Hlt.
    { apply map_get_Some_elem in Hfr. apply Ht in Hfr. lia. }
    set (m2 := if negb _ then _ else m1) in Hnav.
    assert (tidy m2) as Ht2.
    { subst m2. destruct (negb _); [|done]. by apply tidy_readd. }
    clearbody m2.
    pose proof (calm_waitForFrame (payload_id framePayload)
                  (framePayload, navigationType) m2) as Hc.
    destruct (waitForFrame _ _ _) as [[fr'|] t]; injection Hnav as <-;
      by eapply tidy_calm.
  - set (m2 := if negb _ then _ else m) in Hnav.
    assert (tidy m2) as Ht2.
    { subst m2. destruct (negb _); [|done].
      apply tidy_tree_addFrame; [by apply tidy_alloc_frame | simpl; lia]. }
    clearbody m2.
    pose proof (calm_waitForFrame (payload_id framePayload)
                  (framePayload, navigationType) m2) as Hc.
    destruct (waitForFrame _ _ _) as [[fr'|] t]; injection Hnav as <-;
      by eapply tidy_calm.
Qed.

Lemma handleFrameTree_tidy stack session frameTree : forall m m',
  handleFrameTree stack session frameTree m = Some m' -> tidy m -> tidy m'.
Proof.
  induction frameTree as [fp children IH] using FrameTreePayload_rect'.
  intros m m'. rewrite handleFrameTree_unfold. cbv zeta.
  set (m1 := match payload_parentId fp with Some _ => _ | None => m end).
  intros Hrun Ht.
  assert (tidy m1) as Ht1.
  { subst m1. destruct (payload_parentId fp) as [p|]; [|done].
    destruct (truthy (Some p)); [by apply tidy_onFrameAttached | done]. }
  destruct (if negb _ then _ else _) as [m2|] eqn:Hnav; [|done].
  assert (tidy m2) as Ht2.
  { destruct (negb _).
    - by eapply onFrameNavigated_tidy.
    - injection Hnav as <-. revert Ht1. apply tidy_calm. by apply calm_same. }
  revert Ht2. revert Hrun.
  eapply (forEach_preserves (fun m m' => tidy m -> tidy m') _
            (fun c => forall m m', handleFrameTree stack session c m = Some m' ->
                        tidy m -> tidy m')); [done|auto| |done].
  intros c s s' Hc. apply Hc.
Qed.

Lemma onFrameDetached_tidy stack frameId reason m m' :
  onFrameDetached stack frameId reason m = Some m' -> tidy m -> tidy m'.
Proof.
  unfold onFrameDetached. destruct (frame frameId m) as [fr|];
    [|by intros [= <-]].
  destruct reason.
  - apply removeFramesRecursively_tidy.
  - intros [= <-]. apply tidy_calm. by apply calm_same.
Qed.

Lemma onClientDisconnect_tidy stack m m' :
  onClientDisconnect stack m = Some m' -> tidy m -> tidy m'.
Proof.
  unfold onClientDisconnect.
  destruct (getMainFrame _) as [r|]; [|by intros [= <-]].
  destruct (forEach _ _ m) as [m1|] eqn:Hloop; [|done].
  intros [= <-] Ht. eapply tidy_calm; [|by eapply forEach_remove_tidy].
  by apply calm_same.
Qed.

Lemma elapse_tidy stack time m m' :
  elapse stack time m = Some m' -> tidy m -> tidy m'.
Proof.
  unfold elapse. intros Hrun Ht.
  assert (tidy (set_now (Z.max (now m) time)
                  (set_awaitingSwap
                     (filter (fun e : obj * Z => negb (e.2 <=? time)%Z)
                        (awaitingSwap m)) m))) as Ht0.
  { revert Ht. apply tidy_calm. by apply calm_same. }
  revert Ht0. revert Hrun.
  eapply (forEach_preserves (fun m m' => tidy m -> tidy m') _
            (fun _ => True)); [done|auto| |by apply Forall_true].
  intros a s s' _. apply removeFramesRecursively_tidy.
Qed.

Lemma tree_removeFrame_nextObj x m :
  nextObj (tree_removeFrame x m) = nextObj m.
Proof. unfold tree_removeFrame. by destruct (frameObjs m !! x). Qed.

Lemma swapFrameTree_rebind_tidy newClient m :
  tidy m -> tidy (swapFrameTree_rebind newClient m).1.
Proof.
  intros Ht. unfold swapFrameTree_rebind.
  set (m2 := set_client newClient (onExecutionContextsCleared (client m) m)).
  assert (calm m m2) as Hc2.
  { eapply calm_trans; [apply calm_onExecutionContextsCleared|].
    by apply calm_same. }
  pose proof (tidy_calm _ _ Hc2 Ht) as Ht2.
  destruct (getMainFrame (_frameTree m2)) as [fr|] eqn:Hmain; [|done].
  cbn [fst].
  set (m3 := set_frameNavigatedReceived _ m2).
  assert (tidy m3) as Ht3 by (revert Ht2; apply tidy_calm; by apply calm_same).
  destruct (proj2 (proj2 Ht2) fr Hmain) as (Hlt & f & Hf & Hp).
  eapply tidy_calm; [apply calm_update_frame; intros ?; apply ident_updateClient|].
  apply tidy_tree_addFrame;
    [|cbn [nextObj world_clearContext update_frame set_frameObjs];
      by rewrite tree_removeFrame_nextObj].
  eapply tidy_calm; [apply calm_world_clearContext|].
  eapply tidy_calm; [apply calm_world_clearContext|].
  apply tidy_updateId_absent; [by apply tidy_tree_removeFrame|].
  eapply absent_tree_removeFrame; [apply Ht3 | done].
Qed.

Lemma swapFrameTree_tidy stack newClient snapshot m m' :
  swapFrameTree stack newClient snapshot m = Some m' -> tidy m -> tidy m'.
Proof.
  unfold swapFrameTree. intros Hrun Ht.
  pose proof (swapFrameTree_rebind_tidy newClient m Ht) as Ht1.
  destruct (swapFrameTree_rebind newClient m) as [m1 held]. cbn [fst] in Ht1.
  destruct (match snapshot with Some _ => _ | None => _ end) as [m2|] eqn:Hs;
    [|done].
  injection Hrun as <-.
  assert (tidy m2) as Ht2.
  { destruct snapshot as [frameTree|].
    - eapply handleFrameTree_tidy; [done|].
      revert Ht1. apply tidy_calm, calm_drain.
    - injection Hs as <-. revert Ht1. apply tidy_calm, calm_drain. }
  unfold swapFrameTree_finish. destruct held as [fr|].
  - eapply tidy_calm; [apply calm_emit_FrameSwappedByActivation|].
    revert Ht2. apply tidy_calm, calm_drain.
  - revert Ht2. apply tidy_calm, calm_drain.
Qed.

Lemma handle_tidy stack task m m' :
  handle stack task m = Some m' -> tidy m -> tidy m'.
Proof.
  destruct task; cbn [handle].
  - intros [= <-] Ht. eapply tidy_calm; [apply calm_drain|].
    by apply tidy_onFrameAttached.
  - destruct (onFrameNavigated _ _ _ _) as [m1|] eqn:Hnav; [|done].
    intros [= <-] Ht. eapply tidy_calm; [apply calm_drain|].
    eapply onFrameNavigated_tidy; [done|].
    revert Ht. apply tidy_calm. by apply calm_same.
  - intros [= <-]. apply tidy_calm.
    eapply calm_trans; [apply calm_onFrameNavigatedWithinDocument|apply calm_drain].
  - destruct (onFrameDetached _ _ _ _) as [m1|] eqn:Hd; [|done].
    intros [= <-] Ht. eapply tidy_calm; [apply calm_drain|].
    by eapply onFrameDetached_tidy.
  - intros [= <-]. apply tidy_calm.
    eapply calm_trans; [apply calm_onFrameStartedLoading|apply calm_drain].
  - intros [= <-]. apply tidy_calm.
    eapply calm_trans; [apply calm_onFrameStoppedLoading|apply calm_drain].
  - intros [= <-]. apply tidy_calm.
    eapply calm_trans; [apply calm_onExecutionContextCreated|apply calm_drain].
  - intros [= <-]. apply tidy_calm.
    eapply calm_trans; [apply calm_onExecutionContextDestroyed|apply calm_drain].
  - intros [= <-]. apply tidy_calm.
    eapply calm_trans; [apply calm_onExecutionContextsCleared|apply calm_drain].
  - intros [= <-]. apply tidy_calm.
    eapply calm_trans; [apply calm_onLifecycleEvent|apply calm_drain].
  - destruct (handleFrameTree _ _ _ _) as [m1|] eqn:Hd; [|done].
    intros [= <-] Ht. eapply tidy_calm; [apply calm_drain|].
    by eapply handleFrameTree_tidy.
  - destruct (onClientDisconnect _ _) as [m1|] eqn:Hd; [|done].
    intros [= <-] Ht. eapply tidy_calm; [apply calm_drain|].
    by eapply onClientDisconnect_tidy.
  - apply swapFrameTree_tidy.
  - destruct (elapse _ _ _) as [m1|] eqn:Hd; [|done].
    intros [= <-] Ht. eapply tidy_calm; [apply calm_drain|].
    by eapply elapse_tidy.
Qed.

Lemma tidy_new c t : tidy (new_FrameManager c t).
Proof.
  split; [done|]. split.
  - intros k x Hin. by apply elem_of_nil in Hin.
  - intros r Hr. done.
Qed.

Lemma reachable_tidy stack tasks : forall m m',
  forEach (handle stack) tasks m = Some m' -> tidy m -> tidy m'.
Proof.
  eapply (forEach_preserves (fun m m' => tidy m -> tidy m') _
            (fun _ => True)); [done|auto| |by apply Forall_true].
  intros a s s' _. apply handle_tidy.
Qed.

Lemma well_keyed_frames_NoDup m :
  well_keyed m = true -> NoDup (FrameManager_frames m).
Proof.
  intros Hwf. unfold FrameManager_frames.
  pose proof Hwf as [Hd _]%andb_prop.
  assert (forall k x, (k, x) ∈ frames (_frameTree m) ->
            exists f, frameObjs m !! x = Some f /\ _id f = k) as Hk.
  { intros k x Hin. by destruct (well_keyed_entry m k x Hwf Hin) as [_ ?]. }
  revert Hd Hk. generalize (frames (_frameTree m)). clear Hwf.
  induction l as [|[k x] l IH]; simpl; [constructor|].
  intros [Hhead Htail]%andb_prop Hk. constructor.
  - intros Hin. apply list_elem_of_fmap in Hin as ([k' x'] & Hx & Hin).
    simpl in Hx. subst x'.
    destruct (Hk k x) as (f & Hf & Hid); [by left|].
    destruct (Hk k' x) as (f' & Hf' & Hid'); [by right|].
    assert (k' = k) as Hkk by congruence.
    rewrite Hkk in Hin. clear Hkk.
    assert (existsb (String.eqb k) (map fst l) = true) as Hex;
      [|apply negb_true_iff in Hhead; congruence].
    apply existsb_exists. exists k. split; [|apply String.eqb_refl].
    apply in_map_iff. exists (k, x). split; [done|]. by apply list_elem_of_In.
  - apply IH; [done|]. intros k' x' Hin. apply Hk. by right.
Qed.

(** X13.  Whatever events, responses, disconnects, swaps and timers the
    manager has handled since it was constructed, [frame(frameId)] returns
    only a Frame whose current id is [frameId] (also after a navigation or
    a swap has changed the id of the Frame in place), [frames()] lists no
    Frame twice, and every Frame it lists is the one [frame] returns for
    its id. *)
Theorem frames_filed_under_current_id
    (stack : nat) (c : CDPSession) (t : Z) (tasks : list Task)
    (m : FrameManager) :
  forEach (handle stack) tasks (new_FrameManager c t) = Some m ->
  (forall frameId fr, frame frameId m = Some fr ->
     exists f, frameObjs m !! fr = Some f /\ _id f = frameId) /\
  NoDup (FrameManager_frames m) /\
  (forall fr, fr ∈ FrameManager_frames m ->
     exists f, frameObjs m !! fr = Some f /\ frame (_id f) m = Some fr).
Proof.
  intros Hrun.
  pose proof (reachable_tidy stack tasks _ _ Hrun (tidy_new c t))
    as (Hwf & _ & _).
  split; [|split].
  - intros frameId fr. by apply well_keyed_lookup.
  - by apply well_keyed_frames_NoDup.
  - intros fr Hin. unfold FrameManager_frames in Hin.
    apply list_elem_of_fmap in Hin as ([k x] & -> & Hin).
    destruct (well_keyed_entry m k x Hwf Hin) as (Hfr & f & Hf & Hid).
    exists f. split; [done|]. by rewrite Hid.
Qed.

Lemma frames_filed_under_current_id_witness :
  let m := after [navigate "A" "L1" "http://a/";
                  Page_frameAttached page "B" "A";
                  CDPSession_Swapped replacement None] in
  (forall frameId fr, frame frameId m = Some fr ->
     exists f, frameObjs m !! fr = Some f /\ _id f = frameId) /\
  NoDup (FrameManager_frames m) /\
  (forall fr, fr ∈ FrameManager_frames m ->
     exists f, frameObjs m !! fr = Some f /\ frame (_id f) m = Some fr).
Proof.
  intros m.
  apply (frames_filed_under_current_id stack page 0
           [navigate "A" "L1" "http://a/"; Page_frameAttached page "B" "A";
            CDPSession_Swapped replacement None] m).
  vm_compute. reflexivity.
Defined.

(** X14.  Whatever the manager has handled since it was constructed,
    [mainFrame()] either fails its assertion (no root is tracked) or
    returns a Frame that has no parent id. *)
Theorem mainFrame_is_a_root
    (stack : nat) (c : CDPSession) (t : Z) (tasks : list Task)
    (m : FrameManager) :
  forEach (handle stack) tasks (new_FrameManager c t) = Some m ->
  FrameManager_mainFrame m = inl "Requesting main frame too early!" \/
  exists r f, FrameManager_mainFrame m = inr r /\
              frameObjs m !! r = Some f /\ _parentId f = None.
Proof.
  intros Hrun.
  pose proof (reachable_tidy stack tasks _ _ Hrun (tidy_new c t))
    as (_ & _ & Hm).
  unfold FrameManager_mainFrame, getMainFrame.
  destruct (mainFrame (_frameTree m)) as [r|] eqn:Hr; [right | by left].
  destruct (Hm r eq_refl) as (_ & f & Hf & Hp). by exists r, f.
Qed.

Lemma mainFrame_is_a_root_witness :
  let m := after [Page_frameAttached page "B" "A";
                  navigate "A" "L1" "http://a/"] in
  FrameManager_mainFrame m = inl "Requesting main frame too early!" \/
  exists r f, FrameManager_mainFrame m = inr r /\
              frameObjs m !! r = Some f /\ _parentId f = None.
Proof.
  intros m.
  apply (mainFrame_is_a_root stack page 0
           [Page_frameAttached page "B" "A"; navigate "A" "L1" "http://a/"] m).
  vm_compute. reflexivity.
Defined.

(** ** The log of [FrameAttached] notifications *)

Lemma attaches_refl m : attaches m m.
Proof.
  split; [done|]. exists []. split; [by rewrite app_nil_r|].
  split; [constructor|]. intros x Hx. by apply elem_of_nil in Hx.
Qed.

Lemma attaches_trans m1 m2 m3 :
  attaches m1 m2 -> attaches m2 m3 -> attaches m1 m3.
Proof.
  intros (Hn1 & s1 & He1 & Hd1 & Hb1) (Hn2 & s2 & He2 & Hd2 & Hb2).
  split; [lia|]. exists (s1 ++ s2). split; [by rewrite He2, He1, app_assoc|].
  rewrite manager_notified_app. split.
  - apply NoDup_app. split; [done|]. split; [|done].
    intros x Hx1 Hx2. apply Hb1 in Hx1. apply Hb2 in Hx2. lia.
  - intros x [Hx|Hx]%elem_of_app; [apply Hb1 in Hx | apply Hb2 in Hx]; lia.
Qed.

Lemma attaches_log m m' suffix :
  nextObj m <= nextObj m' -> emitted m' = emitted m ++ suffix ->
  manager_notified FrameManagerEvent.FrameAttached suffix = [] ->
  attaches m m'.
Proof.
  intros Hn He Hs. split; [done|]. exists suffix. split; [done|].
  rewrite Hs. split; [constructor|]. intros x Hx. by apply elem_of_nil in Hx.
Qed.

Lemma attaches_quietly m m' :
  nextObj m <= nextObj m' -> emitted m' = emitted m -> attaches m m'.
Proof.
  intros Hn He. apply (attaches_log m m' []); [done| |done].
  by rewrite app_nil_r.
Qed.

Lemma attaches_emit n m :
  manager_notified FrameManagerEvent.FrameAttached [n] = [] ->
  attaches m (emit n m).
Proof. intros Hn. by apply (attaches_log m (emit n m) [n]). Qed.

Lemma tree_addFrame_log x m :
  emitted (tree_addFrame x m) = emitted m /\
  nextObj (tree_addFrame x m) = nextObj m.
Proof.
  unfold tree_addFrame. destruct (frameObjs m !! x) as [f|]; [|done].
  by destruct (addFrame x f (_frameTree m)).
Qed.

Lemma tree_removeFrame_log x m :
  emitted (tree_removeFrame x m) = emitted m /\
  nextObj (tree_removeFrame x m) = nextObj m.
Proof. unfold tree_removeFrame. by destruct (frameObjs m !! x). Qed.

Lemma attached_once_attaches m m' :
  attaches m m' -> attached_once m -> attached_once m'.
Proof.
  intros (Hn & s & He & Hd & Hb) [Hnd Hlt]. unfold attached_once.
  rewrite He, manager_notified_app. split.
  - apply NoDup_app. split; [done|]. split; [|done].
    intros x Hx1 Hx2. apply Hlt in Hx1. apply Hb in Hx2. lia.
  - intros x [Hx|Hx]%elem_of_app; [apply Hlt in Hx | apply Hb in Hx]; lia.
Qed.

Lemma attaches_detach_one x m : attaches m (detach_one x m).
Proof.
  destruct (detach_one_rest x m) as (_ & _ & _ & Hn & _).
  apply (attaches_log _ _ (detach_notifications x)); [lia| |done].
  apply detach_one_emitted.
Qed.

Lemma removeFramesRecursively_attaches stack : forall x m m',
  removeFramesRecursively stack x m = Some m' -> attaches m m'.
Proof.
  induction stack as [|stack IH]; intros x m m'; [done|].
  rewrite removeFramesRecursively_unfold.
  destruct (forEach _ _ m) as [m1|] eqn:Hloop; [|done]. intros [= <-].
  eapply attaches_trans; [|apply attaches_detach_one].
  eapply (forEach_preserves attaches _ (fun _ => True));
    [apply attaches_refl|apply attaches_trans| |by apply Forall_true|done].
  intros a s s' _. apply IH.
Qed.

Lemma forEach_remove_attaches stack l m m' :
  forEach (removeFramesRecursively stack) l m = Some m' -> attaches m m'.
Proof.
  eapply (forEach_preserves attaches _ (fun _ => True));
    [apply attaches_refl|apply attaches_trans| |by apply Forall_true].
  intros a s s' _. apply removeFramesRecursively_attaches.
Qed.

Lemma attaches_onFrameAttached session frameId parentFrameId m :
  attaches m (onFrameAttached session frameId parentFrameId m).
Proof.
  unfold onFrameAttached. destruct (frame frameId m) as [fr|].
  - destruct (frameObjs m !! fr) as [f|]; [|apply attaches_refl].
    destruct (isOOPFrame f m); [by apply attaches_quietly|apply attaches_refl].
  - set (m1 := alloc_frame _ m).
    destruct (tree_addFrame_log (nextObj m) m1) as [He Hn].
    split; [cbn [nextObj emit set_emitted]; rewrite Hn; simpl; lia|].
    exists [ManagerEmit FrameManagerEvent.FrameAttached (nextObj m)].
    split; [cbn [emitted emit set_emitted]; by rewrite He|].
    split; [apply NoDup_singleton|].
    intros x ->%list_elem_of_singleton.
    cbn [nextObj emit set_emitted]. rewrite Hn. simpl. lia.
Qed.

Lemma onFrameNavigated_attaches stack framePayload navigationType m m' :
  onFrameNavigated stack framePayload navigationType m = Some m' ->
  attaches m m'.
Proof.
  unfold onFrameNavigated. intros Hnav.
  destruct (match getById (payload_id framePayload) (_frameTree m) with
            | Some fr => _ | None => Some m end) as [m1|] eqn:Hloop; [|done].
  assert (attaches m m1) as H1.
  { destruct (getById _ _).
    - by eapply forEach_remove_attaches.
    - injection Hloop as <-. apply attaches_refl. }
  set (m2 := if negb _ then _ else m1) in Hnav.
  assert (attaches m1 m2) as H2.
  { subst m2. destruct (negb _); [|apply attaches_refl].
    destruct (getById _ _) as [fr|].
    - destruct (tree_addFrame_log fr
                  (update_frame fr (updateId (payload_id framePayload))
                     (tree_removeFrame fr m1))) as [He Hn].
      destruct (tree_removeFrame_log fr m1) as [He' Hn'].
      apply attaches_quietly.
      + rewrite Hn. cbn [nextObj update_frame set_frameObjs]. lia.
      + rewrite He. cbn [emitted update_frame set_frameObjs]. done.
    - destruct (tree_addFrame_log (nextObj m1)
                  (alloc_frame
                     (new_CdpFrame (payload_id framePayload) None (client m1))
                     m1)) as [He Hn].
      apply attaches_quietly; [rewrite Hn; simpl; lia | by rewrite He]. }
  clearbody m2.
  eapply attaches_trans; [exact H1|]. eapply attaches_trans; [exact H2|].
  destruct (waitForFrame _ _ _) as [[fr'|] t]; injection Hnav as <-;
    by apply attaches_quietly.
Qed.

Lemma attaches_navigated_continuation task m :
  attaches m (navigated_continuation task m).
Proof.
  destruct task as [fr [p ty]]. unfold navigated_continuation.
  eapply attaches_trans; [|by apply attaches_emit].
  eapply attaches_trans; [|by apply attaches_emit].
  by apply attaches_quietly.
Qed.

Lemma attaches_drain m : attaches m (drain m).
Proof.
  unfold drain.
  eapply attaches_trans;
    [by apply (attaches_quietly m (set_microtasks [] m))|].
  generalize (set_microtasks [] m). generalize (microtasks m).
  intros tasks. induction tasks as [|t tasks IH]; intros s;
    [apply attaches_refl|].
  cbn [foldl].
  eapply attaches_trans; [apply attaches_navigated_continuation|apply IH].
Qed.

Lemma handleFrameTree_attaches stack session frameTree : forall m m',
  handleFrameTree stack session frameTree m = Some m' -> attaches m m'.
Proof.
  induction frameTree as [fp children IH] using FrameTreePayload_rect'.
  intros m m'. rewrite handleFrameTree_unfold. cbv zeta.
  set (m1 := match payload_parentId fp with Some _ => _ | None => m end).
  intros Hrun.
  assert (attaches m m1) as H1.
  { subst m1. destruct (payload_parentId fp) as [p|]; [|apply attaches_refl].
    destruct (truthy (Some p));
      [apply attaches_onFrameAttached | apply attaches_refl]. }
  destruct (if negb _ then _ else _) as [m2|] eqn:Hnav; [|done].
  assert (attaches m1 m2) as H2.
  { destruct (negb _).
    - by eapply onFrameNavigated_attaches.
    - injection Hnav as <-. by apply attaches_quietly. }
  eapply attaches_trans; [exact H1|]. eapply attaches_trans; [exact H2|].
  revert Hrun.
  eapply (forEach_preserves attaches _
            (fun c => forall m m', handleFrameTree stack session c m = Some m' ->
                        attaches m m'));
    [apply attaches_refl|apply attaches_trans| |done].
  intros c s s' Hc. apply Hc.
Qed.

Lemma attaches_onLifecycleEvent event m : attaches m (onLifecycleEvent event m).
Proof.
  unfold onLifecycleEvent.
  destruct (frame _ m) as [fr|]; [|apply attaches_refl].
  eapply attaches_trans; [|by apply attaches_emit].
  eapply attaches_trans; [|by apply attaches_emit].
  by apply attaches_quietly.
Qed.

Lemma attaches_onFrameStartedLoading frameId m :
  attaches m (onFrameStartedLoading frameId m).
Proof.
  unfold onFrameStartedLoading.
  destruct (frame _ m) as [fr|]; [|apply attaches_refl].
  by apply attaches_quietly.
Qed.

Lemma attaches_onFrameStoppedLoading frameId m :
  attaches m (onFrameStoppedLoading frameId m).
Proof.
  unfold onFrameStoppedLoading.
  destruct (frame _ m) as [fr|]; [|apply attaches_refl].
  eapply attaches_trans; [|by apply attaches_emit].
  eapply attaches_trans; [|by apply attaches_emit].
  by apply attaches_quietly.
Qed.

Lemma attaches_onFrameNavigatedWithinDocument frameId url m :
  attaches m (onFrameNavigatedWithinDocument frameId url m).
Proof.
  unfold onFrameNavigatedWithinDocument.
  destruct (frame _ m) as [fr|]; [|apply attaches_refl].
  do 4 (eapply attaches_trans; [|by apply attaches_emit]).
  by apply attaches_quietly.
Qed.

Lemma onFrameDetached_attaches stack frameId reason m m' :
  onFrameDetached stack frameId reason m = Some m' -> attaches m m'.
Proof.
  unfold onFrameDetached. destruct (frame frameId m) as [fr|];
    [|intros [= <-]; apply attaches_refl].
  destruct reason.
  - apply removeFramesRecursively_attaches.
  - intros [= <-].
    eapply attaches_trans; [|by apply attaches_emit].
    by apply attaches_emit.
Qed.

Lemma attaches_onExecutionContextCreated contextPayload session m :
  attaches m (onExecutionContextCreated contextPayload session m).
Proof.
  unfold onExecutionContextCreated.
  destruct (match auxData_frameId contextPayload with
            | Some frameId => frame frameId m | None => None end) as [fr|];
    [|apply attaches_refl].
  destruct (frameObjs m !! fr) as [f|]; [|apply attaches_refl].
  destruct (negb _); [apply attaches_refl|].
  destruct (if auxData_isDefault contextPayload then _ else _) as [k|];
    [|apply attaches_refl].
  apply attaches_quietly; [simpl; lia | done].
Qed.

Lemma attaches_onExecutionContextDestroyed executionContextId session m :
  attaches m (onExecutionContextDestroyed executionContextId session m).
Proof.
  unfold onExecutionContextDestroyed.
  destruct (map_get _ _) as [context|]; [|apply attaches_refl].
  cbn [contextObjs set_contextIdToContext].
  destruct (contextObjs m !! context) as [c|]; [|by apply attaches_quietly].
  destruct (_world c) as [w|]; by apply attaches_quietly.
Qed.

Lemma attaches_onExecutionContextsCleared session m :
  attaches m (onExecutionContextsCleared session m).
Proof.
  destruct (cleared_log session m) as [Hn He].
  apply attaches_quietly; [lia | done].
Qed.

Lemma onClientDisconnect_attaches stack m m' :
  onClientDisconnect stack m = Some m' -> attaches m m'.
Proof.
  unfold onClientDisconnect.
  destruct (getMainFrame _) as [r|]; [|intros [= <-]; apply attaches_refl].
  destruct (forEach _ _ m) as [m1|] eqn:Hloop; [|done].
  intros [= <-]. eapply attaches_trans; [by eapply forEach_remove_attaches|].
  by apply attaches_quietly.
Qed.

Lemma elapse_attaches stack time m m' :
  elapse stack time m = Some m' -> attaches m m'.
Proof.
  unfold elapse. intros Hrun.
  apply (attaches_trans _
           (set_now (Z.max (now m) time)
              (set_awaitingSwap
                 (filter (fun e : obj * Z => negb (e.2 <=? time)%Z)
                    (awaitingSwap m)) m)));
    [by apply attaches_quietly|].
  revert Hrun.
  eapply (forEach_preserves attaches _ (fun _ => True));
    [apply attaches_refl|apply attaches_trans| |by apply Forall_true].
  intros a s s' _. apply removeFramesRecursively_attaches.
Qed.

Lemma attaches_emit_FrameSwappedByActivation fr m :
  attaches m (emit_FrameSwappedByActivation fr m).
Proof.
  apply (attaches_log _ _ [FrameEmit fr FrameEvent.FrameSwappedByActivation]);
    done.
Qed.

Lemma attaches_swapFrameTree_rebind newClient m :
  attaches m (swapFrameTree_rebind newClient m).1.
Proof.
  unfold swapFrameTree_rebind.
  set (m2 := set_client newClient (onExecutionContextsCleared (client m) m)).
  assert (nextObj m2 = nextObj m /\ emitted m2 = emitted m) as [Hn He]
    by apply cleared_log.
  clearbody m2.
  destruct (getMainFrame (_frameTree m2)) as [fr|];
    [|cbn [fst]; apply attaches_quietly; [lia | done]].
  cbn [fst].
  set (m3 := set_frameNavigatedReceived _ m2).
  destruct (tree_removeFrame_log fr m3) as [He4 Hn4].
  set (m7 := world_clearContext _ (world_clearContext _ (update_frame fr _ _))).
  assert (emitted m7 = emitted m /\ nextObj m7 = nextObj m) as [He7 Hn7].
  { subst m7. cbn [emitted nextObj world_clearContext update_frame
                   set_frameObjs]. rewrite He4, Hn4. by subst m3. }
  destruct (tree_addFrame_log fr m7) as [He8 Hn8].
  apply attaches_quietly.
  - cbn [nextObj update_frame set_frameObjs]. rewrite Hn8, Hn7. lia.
  - cbn [emitted update_frame set_frameObjs]. by rewrite He8, He7.
Qed.

Lemma swapFrameTree_attaches stack newClient snapshot m m' :
  swapFrameTree stack newClient snapshot m = Some m' -> attaches m m'.
Proof.
  unfold swapFrameTree. intros Hrun.
  pose proof (attaches_swapFrameTree_rebind newClient m) as H1.
  destruct (swapFrameTree_rebind newClient m) as [m1 held]. cbn [fst] in H1.
  destruct (match snapshot with Some _ => _ | None => _ end) as [m2|] eqn:Hs;
    [|done].
  injection Hrun as <-.
  assert (attaches m1 m2) as H2.
  { destruct snapshot as [frameTree|].
    - eapply attaches_trans; [apply attaches_drain|].
      by eapply handleFrameTree_attaches.
    - injection Hs as <-. apply attaches_drain. }
  eapply attaches_trans; [exact H1|]. eapply attaches_trans; [exact H2|].
  eapply attaches_trans; [apply attaches_drain|].
  unfold swapFrameTree_finish. destruct held as [fr|];
    [apply attaches_emit_FrameSwappedByActivation | apply attaches_refl].
Qed.

Lemma handle_attaches stack task m m' :
  handle stack task m = Some m' -> attaches m m'.
Proof.
  destruct task; cbn [handle].
  - intros [= <-].
    eapply attaches_trans; [apply attaches_onFrameAttached|apply attaches_drain].
  - destruct (onFrameNavigated _ _ _ _) as [m1|] eqn:Hnav; [|done].
    intros [= <-]. eapply attaches_trans; [|apply attaches_drain].
    eapply attaches_trans; [|by eapply onFrameNavigated_attaches].
    by apply attaches_quietly.
  - intros [= <-].
    eapply attaches_trans;
      [apply attaches_onFrameNavigatedWithinDocument|apply attaches_drain].
  - destruct (onFrameDetached _ _ _ _) as [m1|] eqn:Hd; [|done].
    intros [= <-].
    eapply attaches_trans; [by eapply onFrameDetached_attaches|].
    apply attaches_drain.
  - intros [= <-].
    eapply attaches_trans;
      [apply attaches_onFrameStartedLoading|apply attaches_drain].
  - intros [= <-].
    eapply attaches_trans;
      [apply attaches_onFrameStoppedLoading|apply attaches_drain].
  - intros [= <-].
    eapply attaches_trans;
      [apply attaches_onExecutionContextCreated|apply attaches_drain].
  - intros [= <-].
    eapply attaches_trans;
      [apply attaches_onExecutionContextDestroyed|apply attaches_drain].
  - intros [= <-].
    eapply attaches_trans;
      [apply attaches_onExecutionContextsCleared|apply attaches_drain].
  - intros [= <-].
    eapply attaches_trans;
      [apply attaches_onLifecycleEvent|apply attaches_drain].
  - destruct (handleFrameTree _ _ _ _) as [m1|] eqn:Hd; [|done].
    intros [= <-].
    eapply attaches_trans; [by eapply handleFrameTree_attaches|].
    apply attaches_drain.
  - destruct (onClientDisconnect _ _) as [m1|] eqn:Hd; [|done].
    intros [= <-].
    eapply attaches_trans; [by eapply onClientDisconnect_attaches|].
    apply attaches_drain.
  - apply swapFrameTree_attaches.
  - destruct (elapse _ _ _) as [m1|] eqn:Hd; [|done].
    intros [= <-].
    eapply attaches_trans; [by eapply elapse_attaches|].
    apply attaches_drain.
Qed.

Lemma reachable_attached_once stack tasks : forall m m',
  forEach (handle stack) tasks m = Some m' ->
  attached_once m -> attached_once m'.
Proof.
  eapply (forEach_preserves (fun m m' => attached_once m -> attached_once m')
            _ (fun _ => True)); [done|auto| |by apply Forall_true].
  intros a s s' _ Hh. apply attached_once_attaches. by eapply handle_attaches.
Qed.

(** X15.  The manager never announces [FrameAttached] twice for the same
    Frame object: whatever events, frame-tree snapshots, disconnects, swaps
    and timers it has handled since it was constructed, the Frames named by
    its [FrameAttached] notifications are pairwise different (a frame id
    attached again after a removal gets a new Frame object). *)
Theorem FrameAttached_once_per_Frame
    (stack : nat) (c : CDPSession) (t : Z) (tasks : list Task)
    (m : FrameManager) :
  forEach (handle stack) tasks (new_FrameManager c t) = Some m ->
  NoDup (manager_notified FrameManagerEvent.FrameAttached (emitted m)).
Proof.
  intros Hrun.
  refine (proj1 (reachable_attached_once stack tasks _ _ Hrun _)).
  split; [constructor|]. intros x Hx. by apply elem_of_nil in Hx.
Qed.

Lemma FrameAttached_once_per_Frame_witness :
  NoDup (manager_notified FrameManagerEvent.FrameAttached
           (emitted
              (after [navigate "A" "L1" "http://a/";
                      Page_frameAttached page "B" "A";
                      Page_frameAttached page "B" "A";
                      Page_frameDetached "B" remove;
                      Page_frameAttached page "B" "A"]))).
Proof.
  apply (FrameAttached_once_per_Frame stack page 0
           [navigate "A" "L1" "http://a/"; Page_frameAttached page "B" "A";
            Page_frameAttached page "B" "A"; Page_frameDetached "B" remove;
            Page_frameAttached page "B" "A"]).
  vm_compute. reflexivity.
Defined.

(** ** The registry, whatever has happened *)

Lemma NoDup_values_same_key {V} (l : list (string * V)) k1 k2 v :
  NoDup (map snd l) -> (k1, v) ∈ l -> (k2, v) ∈ l -> k1 = k2.
Proof.
  induction l as [|[k0 v0] l IH]; simpl; [by intros _ ?%elem_of_nil|].
  intros [Hhead Htail]%NoDup_cons [Heq1|Hin1]%elem_of_cons
    [Heq2|Hin2]%elem_of_cons.
  - congruence.
  - injection Heq1 as -> ->. exfalso. apply Hhead.
    apply list_elem_of_fmap. by exists (k2, v0).
  - injection Heq2 as -> ->. exfalso. apply Hhead.
    apply list_elem_of_fmap. by exists (k1, v0).
  - by apply IH.
Qed.

Lemma reachable_registry_fresh stack tasks : forall m m',
  forEach (handle stack) tasks m = Some m' ->
  registry_fresh m -> registry_fresh m'.
Proof.
  eapply (forEach_preserves (fun m m' => registry_fresh m -> registry_fresh m')
            _ (fun _ => True)); [done|auto| |by apply Forall_true].
  intros a s s' _ Hh Hr. by eapply handle_registry_fresh.
Qed.

(** X16.  Whatever the manager has handled since it was constructed, no
    ExecutionContext is registered twice: if lookups by two pairs of
    session and context id return the same ExecutionContext, the two
    sessions have the same id and the two context ids are equal. *)
Theorem registry_never_aliases
    (stack : nat) (c : CDPSession) (t : Z) (tasks : list Task)
    (m : FrameManager) (id1 id2 : Z) (s1 s2 : CDPSession) (context : obj) :
  forEach (handle stack) tasks (new_FrameManager c t) = Some m ->
  getExecutionContextById id1 s1 m = Some context ->
  getExecutionContextById id2 s2 m = Some context ->
  sessionId s1 = sessionId s2 /\ id1 = id2.
Proof.
  intros Hrun H1 H2.
  pose proof (reachable_registry_fresh stack tasks _ _ Hrun
                (registry_fresh_new c t)) as [Hnd _].
  apply context_key_inj2. unfold getExecutionContextById in *.
  apply map_get_Some_elem in H1, H2.
  by eapply NoDup_values_same_key.
Qed.

Lemma registry_never_aliases_witness :
  sessionId page = sessionId page /\ (5 = 5)%Z.
Proof.
  apply (registry_never_aliases stack page 0
           [navigate "A" "L1" "http://a/";
            Runtime_executionContextCreated (default_context "A" 5 "") page;
            Runtime_executionContextCreated (utility_context 6) page]
           (after [navigate "A" "L1" "http://a/";
                   Runtime_executionContextCreated (default_context "A" 5 "")
                     page;
                   Runtime_executionContextCreated (utility_context 6) page])
           5%Z 5%Z page page 1); vm_compute; reflexivity.
Defined.

(** ** A navigation event that precedes the attach event *)

(** X17.  A navigation event for a child frame that is not in the tree yet
    is held back, announcing nothing and constructing nothing; when the
    frame-attached event for that id arrives, the Frame is constructed,
    [FrameAttached] is announced, and then the navigation held back is
    applied to the new Frame and announced, in this order. *)
Theorem navigation_waits_for_attach
    (stack : nat) (m : FrameManager) (framePayload : FramePayload)
    (type : NavigationType) (session : CDPSession) (parentFrameId : string) :
  let frameId := payload_id framePayload in
  truthy (payload_parentId framePayload) = true ->
  frame frameId m = None ->
  filter (fun w : string * Waiter => String.eqb w.1 frameId)
    (waitRequests (_frameTree m)) = [] ->
  microtasks m = [] ->
  exists m1 m2,
    handle stack (Page_frameNavigated framePayload type) m = Some m1 /\
    emitted m1 = emitted m /\ frameObjs m1 = frameObjs m /\
    nextObj m1 = nextObj m /\ frame frameId m1 = None /\
    handle stack (Page_frameAttached session frameId parentFrameId) m1
    = Some m2 /\
    frame frameId m2 = Some (nextObj m) /\
    frameObjs m2 !! nextObj m
    = Some (_navigated framePayload
              (new_CdpFrame frameId (Some parentFrameId) session)) /\
    emitted m2
    = emitted m
      ++ [ManagerEmit FrameManagerEvent.FrameAttached (nextObj m);
          ManagerEmit FrameManagerEvent.FrameNavigated (nextObj m);
          FrameEmit (nextObj m) (FrameEvent.FrameNavigated type)].
Proof.
  intros frameId Hchild Hfr Hw Hq.
  set (m1 :=
         set_microtasks []
           (set_frameTree
              (mkTree (frames (_frameTree m)) (mainFrame (_frameTree m))
                 (waitRequests (_frameTree m)
                  ++ [(frameId, (framePayload, type))]))
              (set_frameNavigatedReceived
                 ({[frameId]} ∪ frameNavigatedReceived m) m))).
  assert (handle stack (Page_frameNavigated framePayload type) m = Some m1)
    as H1.
  { cbn [handle]. unfold onFrameNavigated.
    cbn [_frameTree set_frameNavigatedReceived].
    fold frameId. unfold frame in Hfr. rewrite Hfr, Hchild.
    cbn [negb]. unfold waitForFrame.
    cbn [_frameTree set_frameNavigatedReceived]. rewrite Hfr.
    cbn [fmap option_fmap option_map]. f_equal. unfold drain.
    cbn [microtasks set_frameTree set_frameNavigatedReceived].
    rewrite Hq. done. }
  assert (frame frameId m1 = None) as Hfr1 by exact Hfr.
  set (fr := nextObj m).
  set (f0 := new_CdpFrame frameId (Some parentFrameId) session).
  set (m2 := onFrameAttached session frameId parentFrameId m1).
  assert (frameObjs m2 = <[fr := f0]> (frameObjs m) /\
          frames (_frameTree m2) = map_set (frames (_frameTree m)) frameId fr /\
          microtasks m2 = [(fr, (framePayload, type))] /\
          emitted m2
          = emitted m ++ [ManagerEmit FrameManagerEvent.FrameAttached fr])
    as (Hh2 & Ht2 & Hq2 & He2).
  { subst m2. unfold onFrameAttached. rewrite Hfr1.
    change (nextObj m1) with fr.
    set (ma := alloc_frame _ m1).
    assert (frameObjs ma !! fr = Some f0) as Hf0
      by (subst ma; cbn; apply lookup_insert_eq).
    rewrite (tree_addFrame_eq fr ma f0 Hf0).
    cbn [frameObjs frames _frameTree microtasks emitted emit set_emitted
         set_microtasks set_frameTree addFrame fst snd].
    split; [done|]. split; [done|]. split; [|done].
    subst ma. unfold m1, f0.
    cbn [microtasks alloc_frame set_nextObj set_frameObjs _frameTree
         set_microtasks set_frameTree waitRequests _id new_CdpFrame app].
    rewrite filter_app, Hw. rewrite filter_cons_True
      by (cbn [fst]; apply Is_true_true, String.eqb_refl).
    done. }
  exists m1, (drain m2). split; [done|]. split; [done|]. split; [done|].
  split; [done|]. split; [done|]. split; [done|].
  unfold drain. rewrite Hq2. cbn [foldl navigated_continuation].
  split; [|split].
  - unfold frame, getById.
    cbn [_frameTree emit set_emitted update_frame set_frameObjs
         set_microtasks].
    rewrite Ht2. apply map_get_set_eq.
  - cbn [frameObjs emit set_emitted update_frame set_frameObjs
         set_microtasks].
    rewrite Hh2, lookup_alter_eq, lookup_insert_eq. done.
  - cbn [emitted emit set_emitted update_frame set_frameObjs set_microtasks].
    rewrite He2, <- !app_assoc. done.
Qed.

Lemma navigation_waits_for_attach_witness :
  exists m1 m2,
    handle stack
      (Page_frameNavigated (mkFramePayload "B" (Some "A") "L5" "http://b/")
         Navigation) rootA = Some m1 /\
    emitted m1 = emitted rootA /\ frameObjs m1 = frameObjs rootA /\
    nextObj m1 = nextObj rootA /\ frame "B" m1 = None /\
    handle stack (Page_frameAttached page "B" "A") m1 = Some m2 /\
    frame "B" m2 = Some (nextObj rootA) /\
    frameObjs m2 !! nextObj rootA
    = Some (_navigated (mkFramePayload "B" (Some "A") "L5" "http://b/")
              (new_CdpFrame "B" (Some "A") page)) /\
    emitted m2
    = emitted rootA
      ++ [ManagerEmit FrameManagerEvent.FrameAttached (nextObj rootA);
          ManagerEmit FrameManagerEvent.FrameNavigated (nextObj rootA);
          FrameEmit (nextObj rootA) (FrameEvent.FrameNavigated Navigation)].
Proof.
  apply (navigation_waits_for_attach stack rootA
           (mkFramePayload "B" (Some "A") "L5" "http://b/") Navigation page
           "A"); vm_compute; reflexivity.
Defined.

(** ** The root Frame stays *)

Lemma anchored_calm r tid m m' :
  calm m m' -> anchored r tid m -> anchored r tid m'.
Proof. intros (Hfr & _ & Hs & Hn). by apply anchored_ext. Qed.

Lemma anchored_tidy r tid m f :
  tidy m -> frame tid m = Some r -> frameObjs m !! r = Some f ->
  _parentId f = None -> anchored r tid m.
Proof.
  intros (Hwf & Hfresh & _) Hfr Hf Hp.
  split; [done|]. split; [done|]. split; [by exists f | done].
Qed.

Lemma handle_anchored stack task r tid m m' :
  may_unroot tid task = false ->
  handle stack task m = Some m' -> anchored r tid m -> anchored r tid m'.
Proof.
  destruct task; cbn [handle may_unroot]; intros Hsafe; try done.
  - intros [= <-] Ha. by apply anchored_drain, anchored_onFrameAttached.
  - destruct (onFrameNavigated _ _ _ _) as [m1|] eqn:Hnav; [|done].
    intros [= <-] Ha. apply anchored_drain.
    eapply onFrameNavigated_anchored; [|done].
    by apply anchored_set_frameNavigatedReceived.
  - intros [= <-]. apply anchored_calm.
    eapply calm_trans;
      [apply calm_onFrameNavigatedWithinDocument|apply calm_drain].
  - destruct (onFrameDetached _ _ _ _) as [m1|] eqn:Hd; [|done].
    intros [= <-] Ha. apply anchored_drain.
    unfold onFrameDetached in Hd.
    destruct (frame frameId m) as [x|] eqn:Hx; [|by injection Hd as <-].
    destruct reason.
    + apply String.eqb_neq in Hsafe.
      destruct Ha as (Hwf & Hres & Hroot & Hfresh).
      destruct (well_keyed_lookup _ _ _ Hwf Hx) as (fx & Hfx & Hidx).
      destruct (well_keyed_lookup _ _ _ Hwf Hres) as (fr & Hfr & Hidr).
      eapply (removeFramesRecursively_anchored r tid); [|split|done].
      * done.
      * intros ->. congruence.
      * intros fx' Hfx'. congruence.
    + injection Hd as <-. revert Ha. apply anchored_calm. by apply calm_same.
  - intros [= <-]. apply anchored_calm.
    eapply calm_trans; [apply calm_onFrameStartedLoading|apply calm_drain].
  - intros [= <-]. apply anchored_calm.
    eapply calm_trans; [apply calm_onFrameStoppedLoading|apply calm_drain].
  - intros [= <-]. apply anchored_calm.
    eapply calm_trans; [apply calm_onExecutionContextCreated|apply calm_drain].
  - intros [= <-]. apply anchored_calm.
    eapply calm_trans;
      [apply calm_onExecutionContextDestroyed|apply calm_drain].
  - intros [= <-]. apply anchored_calm.
    eapply calm_trans;
      [apply calm_onExecutionContextsCleared|apply calm_drain].
  - intros [= <-]. apply anchored_calm.
    eapply calm_trans; [apply calm_onLifecycleEvent|apply calm_drain].
  - destruct (handleFrameTree _ _ _ _) as [m1|] eqn:Hd; [|done].
    intros [= <-] Ha. apply anchored_drain.
    by eapply handleFrameTree_anchored.
  - destruct (onClientDisconnect _ _) as [m1|] eqn:Hd; [|done].
    intros [= <-] Ha. apply anchored_drain.
    unfold onClientDisconnect in Hd.
    destruct (getMainFrame _) as [y|]; [|by injection Hd as <-].
    destruct (forEach _ _ m) as [m2|] eqn:Hloop; [|done].
    injection Hd as <-.
    eapply anchored_calm; [by apply calm_same|].
    by destruct (children_loop_anchored r tid stack y m m2 Ha Hloop).
Qed.

(** X18.  Only its explicit removal, the timeout of a swap wait or a swap
    takes the root Frame out of the tree or changes its id.  Once a Frame
    without parent id is registered under an id, every sequence of other
    tasks (attach events, navigations of any frame, removals of other
    frames, frame-tree snapshots, context and lifecycle events, even a
    disconnect) leaves the same Frame object registered under the same id,
    still without parent id. *)
Theorem root_frame_survives
    (stack : nat) (c : CDPSession) (t : Z) (before later : list Task)
    (m m' : FrameManager) (tid : string) (r : obj) (f : CdpFrame) :
  forEach (handle stack) before (new_FrameManager c t) = Some m ->
  frame tid m = Some r -> frameObjs m !! r = Some f -> _parentId f = None ->
  Forall (fun task => may_unroot tid task = false) later ->
  forEach (handle stack) later m = Some m' ->
  frame tid m' = Some r /\
  exists f', frameObjs m' !! r = Some f' /\ _id f' = tid /\
             _parentId f' = None.
Proof.
  intros Hbefore Hfr Hf Hp Hsafe Hlater.
  pose proof (reachable_tidy stack before _ _ Hbefore (tidy_new c t)) as Ht.
  pose proof (anchored_tidy r tid m f Ht Hfr Hf Hp) as Ha.
  assert (anchored r tid m') as (Hwf & Hres & (f' & Hf' & Hp') & _).
  { revert Ha. revert Hlater.
    eapply (forEach_preserves
              (fun m m' => anchored r tid m -> anchored r tid m') _
              (fun task => may_unroot tid task = false)); [done|auto| |done].
    intros task s s' Hs Hh. by eapply handle_anchored. }
  split; [done|]. exists f'. split; [done|]. split; [|done].
  destruct (well_keyed_lookup _ _ _ Hwf Hres) as (f'' & Hf'' & Hid).
  congruence.
Qed.

Lemma root_frame_survives_witness :
  let later :=
    [Page_frameAttached page "B" "A";
     Page_frameNavigated (mkFramePayload "A" None "L2" "http://a2/")
       Navigation;
     Page_frameAttached page "C" "A";
     Page_frameDetached "C" remove;
     CDPSession_Disconnected] in
  frame "A" (default rootA (forEach (handle stack) later rootA)) = Some 0 /\
  exists f', frameObjs (default rootA (forEach (handle stack) later rootA))
             !! 0 = Some f' /\
             _id f' = "A" /\ _parentId f' = None.
Proof.
  intros later.
  apply (root_frame_survives stack page 0 [navigate "A" "L1" "http://a/"]
           later rootA (default rootA (forEach (handle stack) later rootA))
           "A" 0 frameA); try (vm_compute; reflexivity).
  repeat constructor.
Defined.

(** ** Ids and parent ids are not rewritten *)

Lemma stable_refl m : stable m m.
Proof. split; [done|]. split; [done|]. intros y Hy. by left. Qed.

Lemma stable_trans m1 m2 m3 : stable m1 m2 -> stable m2 m3 -> stable m1 m3.
Proof.
  intros (Hn1 & Hi1 & Hd1) (Hn2 & Hi2 & Hd2). split; [lia|]. split.
  - intros y Hy. rewrite Hi2 by lia. by apply Hi1.
  - intros y Hy. destruct (Hd2 y Hy) as [Hy2|?]; [|by right].
    destruct (Hd1 y Hy2) as [?|?]; [by left | right; lia].
Qed.

Lemma stable_same_ids m m' :
  same_ids (frameObjs m) (frameObjs m') -> nextObj m <= nextObj m' ->
  stable m m'.
Proof.
  intros Hs Hn. split; [done|]. split; [by intros y _|].
  intros y [f' Hy]. left.
  destruct (same_ids_lookup _ _ _ _ Hs Hy) as (f & Hf & _). by exists f.
Qed.

Lemma stable_calm m m' : calm m m' -> stable m m'.
Proof. intros (_ & _ & Hs & Hn). by apply stable_same_ids. Qed.

Lemma stable_same m m' :
  frameObjs m' = frameObjs m -> nextObj m <= nextObj m' -> stable m m'.
Proof.
  intros Hh Hn. apply stable_same_ids; [|done]. rewrite Hh.
  apply same_ids_refl.
Qed.

Lemma stable_alloc_frame f m : stable m (alloc_frame f m).
Proof.
  split; [simpl; lia|]. split.
  - intros y Hy. cbn. by rewrite lookup_insert_ne by lia.
  - intros y [f' Hy]. cbn in Hy.
    destruct (decide (nextObj m = y)) as [<-|Hne]; [right; simpl; lia|].
    rewrite lookup_insert_ne in Hy by done. left. by exists f'.
Qed.

Lemma bounded_stable m m' : stable m m' -> bounded m -> bounded m'.
Proof.
  intros (Hn & _ & Hd) Hb y Hy. destruct (Hd y Hy) as [Hy'|?]; [|done].
  apply Hb in Hy'. lia.
Qed.

Lemma tree_addFrame_frameObjs x m :
  frameObjs (tree_addFrame x m) = frameObjs m.
Proof.
  unfold tree_addFrame. destruct (frameObjs m !! x) as [f|]; [|done].
  by destruct (addFrame x f (_frameTree m)).
Qed.

Lemma tree_removeFrame_frameObjs x m :
  frameObjs (tree_removeFrame x m) = frameObjs m.
Proof. unfold tree_removeFrame. by destruct (frameObjs m !! x). Qed.

Lemma stable_tree_addFrame x m : stable m (tree_addFrame x m).
Proof.
  apply stable_same; [apply tree_addFrame_frameObjs|].
  by rewrite (proj2 (tree_addFrame_log x m)).
Qed.

Lemma forEach_remove_stable stack l m m' :
  forEach (removeFramesRecursively stack) l m = Some m' -> stable m m'.
Proof.
  intros Hloop. apply stable_same_ids.
  - by eapply forEach_remove_same_ids.
  - by eapply nextObj_forEach_remove.
Qed.

Lemma removeFramesRecursively_stable stack x m m' :
  removeFramesRecursively stack x m = Some m' -> stable m m'.
Proof.
  intros Hrun. apply (forEach_remove_stable stack [x]). simpl.
  by rewrite Hrun.
Qed.

Lemma stable_onFrameAttached session frameId parentFrameId m :
  stable m (onFrameAttached session frameId parentFrameId m).
Proof.
  unfold onFrameAttached. destruct (frame frameId m) as [fr|].
  - destruct (frameObjs m !! fr) as [f|]; [|apply stable_refl].
    destruct (isOOPFrame f m); [|apply stable_refl].
    apply stable_calm. by apply calm_update_frame.
  - eapply stable_trans; [apply stable_alloc_frame|].
    eapply stable_trans; [apply stable_tree_addFrame|].
    by apply stable_same.
Qed.

Lemma onFrameNavigated_stable stack framePayload navigationType m m' :
  onFrameNavigated stack framePayload navigationType m = Some m' ->
  tidy m -> stable m m'.
Proof.
  unfold onFrameNavigated. intros Hnav Ht.
  destruct (getById (payload_id framePayload) (_frameTree m)) as [fr|] eqn:Hfr.
  - destruct (forEach _ _ m) as [m1|] eqn:Hloop; [|done].
    pose proof (forEach_remove_stable _ _ _ _ Hloop) as H1.
    pose proof (forEach_remove_same_ids _ _ _ _ Hloop) as Hs1.
    destruct (well_keyed_lookup m _ fr (proj1 Ht) Hfr) as (f & Hf & Hid).
    destruct (same_ids_lookup_r _ _ _ _ Hs1 Hf) as (f1 & Hf1 & Hid1).
    set (m2 := if negb _ then _ else m1) in Hnav.
    assert (stable m1 m2) as H2.
    { subst m2. destruct (negb _); [|apply stable_refl].
      eapply stable_trans; [|apply stable_tree_addFrame].
      apply stable_same_ids;
        [|cbn [nextObj update_frame set_frameObjs];
          by rewrite tree_removeFrame_nextObj].
      cbn [frameObjs update_frame set_frameObjs].
      rewrite tree_removeFrame_frameObjs. apply same_ids_alter.
      intros f' Hf'. apply ident_updateId_same.
      assert (f' = f1) by congruence. subst f'.
      unfold ident in Hid1. congruence. }
    clearbody m2.
    eapply stable_trans; [exact H1|]. eapply stable_trans; [exact H2|].
    apply stable_calm.
    pose proof (calm_waitForFrame (payload_id framePayload)
                  (framePayload, navigationType) m2) as Hc.
    by destruct (waitForFrame _ _ _) as [[fr'|] t]; injection Hnav as <-.
  - set (m2 := if negb _ then _ else m) in Hnav.
    assert (stable m m2) as H2.
    { subst m2. destruct (negb _); [|apply stable_refl].
      eapply stable_trans; [apply stable_alloc_frame|].
      apply stable_tree_addFrame. }
    clearbody m2.
    eapply stable_trans; [exact H2|].
    apply stable_calm.
    pose proof (calm_waitForFrame (payload_id framePayload)
                  (framePayload, navigationType) m2) as Hc.
    by destruct (waitForFrame _ _ _) as [[fr'|] t]; injection Hnav as <-.
Qed.

Lemma handleFrameTree_stable stack session frameTree : forall m m',
  handleFrameTree stack session frameTree m = Some m' ->
  tidy m -> tidy m' /\ stable m m'.
Proof.
  induction frameTree as [fp children IH] using FrameTreePayload_rect'.
  intros m m'. rewrite handleFrameTree_unfold. cbv zeta.
  set (m1 := match payload_parentId fp with Some _ => _ | None => m end).
  intros Hrun Ht.
  assert (tidy m1 /\ stable m m1) as [Ht1 H1].
  { subst m1. destruct (payload_parentId fp) as [p|];
      [|split; [done|apply stable_refl]].
    destruct (truthy (Some p)); [|split; [done|apply stable_refl]].
    split; [by apply tidy_onFrameAttached|apply stable_onFrameAttached]. }
  destruct (if negb _ then _ else _) as [m2|] eqn:Hnav; [|done].
  assert (tidy m2 /\ stable m1 m2) as [Ht2 H2].
  { destruct (negb _).
    - split; [by eapply onFrameNavigated_tidy|].
      by eapply onFrameNavigated_stable.
    - injection Hnav as <-. split; [|by apply stable_same].
      revert Ht1. apply tidy_calm. by apply calm_same. }
  assert (tidy m2 -> tidy m' /\ stable m2 m') as H3.
  { revert Hrun.
    eapply (forEach_preserves
              (fun m m' => tidy m -> tidy m' /\ stable m m') _
              (fun c => forall m m',
                 handleFrameTree stack session c m = Some m' ->
                 tidy m -> tidy m' /\ stable m m')); [| | |done].
    - intros s Hs. split; [done|apply stable_refl].
    - intros s1 s2 s3 H12 H23 Hs1. destruct (H12 Hs1) as [Hs2 Ha].
      destruct (H23 Hs2) as [Hs3 Hb]. split; [done|].
      by eapply stable_trans.
    - intros c s s' Hc. apply Hc. }
  destruct (H3 Ht2) as [Ht3 H4]. split; [done|].
  eapply stable_trans; [exact H1|]. by eapply stable_trans.
Qed.

Lemma elapse_stable stack time m m' :
  elapse stack time m = Some m' -> stable m m'.
Proof.
  unfold elapse. intros Hrun.
  apply (stable_trans _
           (set_now (Z.max (now m) time)
              (set_awaitingSwap
                 (filter (fun e : obj * Z => negb (e.2 <=? time)%Z)
                    (awaitingSwap m)) m)));
    [by apply stable_same|].
  revert Hrun.
  eapply (forEach_preserves stable _ (fun _ => True));
    [apply stable_refl|apply stable_trans| |by apply Forall_true].
  intros a s s' _. apply removeFramesRecursively_stable.
Qed.

Lemma handle_stable stack task m m' :
  is_swap task = false ->
  handle stack task m = Some m' -> tidy m -> stable m m'.
Proof.
  destruct task; cbn [handle is_swap]; intros Hsafe; try done.
  - intros [= <-] _.
    eapply stable_trans; [apply stable_onFrameAttached|].
    apply stable_calm, calm_drain.
  - destruct (onFrameNavigated _ _ _ _) as [m1|] eqn:Hnav; [|done].
    intros [= <-] Ht.
    eapply stable_trans; [|apply stable_calm, calm_drain].
    eapply stable_trans; [|eapply onFrameNavigated_stable; [done|]].
    + by apply stable_same.
    + revert Ht. apply tidy_calm. by apply calm_same.
  - intros [= <-] _. apply stable_calm.
    eapply calm_trans;
      [apply calm_onFrameNavigatedWithinDocument|apply calm_drain].
  - destruct (onFrameDetached _ _ _ _) as [m1|] eqn:Hd; [|done].
    intros [= <-] _.
    eapply stable_trans; [|apply stable_calm, calm_drain].
    unfold onFrameDetached in Hd.
    destruct (frame frameId m) as [x|];
      [|injection Hd as <-; apply stable_refl].
    destruct reason.
    + by eapply removeFramesRecursively_stable.
    + injection Hd as <-. by apply stable_same.
  - intros [= <-] _. apply stable_calm.
    eapply calm_trans; [apply calm_onFrameStartedLoading|apply calm_drain].
  - intros [= <-] _. apply stable_calm.
    eapply calm_trans; [apply calm_onFrameStoppedLoading|apply calm_drain].
  - intros [= <-] _. apply stable_calm.
    eapply calm_trans; [apply calm_onExecutionContextCreated|apply calm_drain].
  - intros [= <-] _. apply stable_calm.
    eapply calm_trans;
      [apply calm_onExecutionContextDestroyed|apply calm_drain].
  - intros [= <-] _. apply stable_calm.
    eapply calm_trans;
      [apply calm_onExecutionContextsCleared|apply calm_drain].
  - intros [= <-] _. apply stable_calm.
    eapply calm_trans; [apply calm_onLifecycleEvent|apply calm_drain].
  - destruct (handleFrameTree _ _ _ _) as [m1|] eqn:Hd; [|done].
    intros [= <-] Ht.
    eapply stable_trans; [|apply stable_calm, calm_drain].
    by destruct (handleFrameTree_stable _ _ _ _ _ Hd Ht).
  - destruct (onClientDisconnect _ _) as [m1|] eqn:Hd; [|done].
    intros [= <-] _.
    eapply stable_trans; [|apply stable_calm, calm_drain].
    unfold onClientDisconnect in Hd.
    destruct (getMainFrame _) as [y|];
      [|injection Hd as <-; apply stable_refl].
    destruct (forEach _ _ m) as [m2|] eqn:Hloop; [|done].
    injection Hd as <-.
    eapply stable_trans; [by eapply forEach_remove_stable|].
    by apply stable_same.
  - destruct (elapse _ _ _) as [m1|] eqn:Hd; [|done].
    intros [= <-] _.
    eapply stable_trans; [|apply stable_calm, calm_drain].
    by eapply elapse_stable.
Qed.

Lemma grows_refl m : grows m m.
Proof. split; [done|]. intros y Hy. by left. Qed.

Lemma grows_trans m1 m2 m3 : grows m1 m2 -> grows m2 m3 -> grows m1 m3.
Proof.
  intros (Hn1 & Hd1) (Hn2 & Hd2). split; [lia|].
  intros y Hy. destruct (Hd2 y Hy) as [Hy2|?]; [|by right].
  destruct (Hd1 y Hy2) as [?|?]; [by left | right; lia].
Qed.

Lemma stable_grows m m' : stable m m' -> grows m m'.
Proof. intros (Hn & _ & Hd). by split. Qed.

Lemma grows_update_frame x g m : grows m (update_frame x g m).
Proof.
  split; [done|]. intros y [f Hy]. left. cbn in Hy.
  destruct (decide (x = y)) as [<-|Hne].
  - rewrite lookup_alter_eq in Hy. apply fmap_Some in Hy as (f0 & Hf0 & _).
    by exists f0.
  - rewrite lookup_alter_ne in Hy by done. by exists f.
Qed.

Lemma grows_same m m' :
  frameObjs m' = frameObjs m -> nextObj m <= nextObj m' -> grows m m'.
Proof. intros Hh Hn. by apply stable_grows, stable_same. Qed.

Lemma bounded_grows m m' : grows m m' -> bounded m -> bounded m'.
Proof.
  intros (Hn & Hd) Hb y Hy. destruct (Hd y Hy) as [Hy'|?]; [|done].
  apply Hb in Hy'. lia.
Qed.

Lemma swapFrameTree_rebind_grows newClient m :
  grows m (swapFrameTree_rebind newClient m).1.
Proof.
  unfold swapFrameTree_rebind.
  set (m2 := set_client newClient (onExecutionContextsCleared (client m) m)).
  assert (grows m m2) as H2.
  { apply stable_grows, stable_calm.
    eapply calm_trans; [apply calm_onExecutionContextsCleared|].
    by apply calm_same. }
  clearbody m2.
  destruct (getMainFrame (_frameTree m2)) as [fr|]; [|done]. cbn [fst].
  eapply grows_trans; [exact H2|].
  eapply grows_trans; [|apply grows_update_frame].
  eapply grows_trans;
    [|apply grows_same;
      [apply tree_addFrame_frameObjs
      |by rewrite (proj2 (tree_addFrame_log _ _))]].
  eapply grows_trans; [|apply grows_update_frame].
  eapply grows_trans; [|apply grows_update_frame].
  eapply grows_trans; [|apply grows_update_frame].
  apply grows_same;
    [by rewrite tree_removeFrame_frameObjs
    |by rewrite tree_removeFrame_nextObj].
Qed.

Lemma swapFrameTree_grows stack newClient snapshot m m' :
  swapFrameTree stack newClient snapshot m = Some m' -> tidy m -> grows m m'.
Proof.
  unfold swapFrameTree. intros Hrun Ht.
  pose proof (swapFrameTree_rebind_tidy newClient m Ht) as Ht1.
  pose proof (swapFrameTree_rebind_grows newClient m) as H1.
  destruct (swapFrameTree_rebind newClient m) as [m1 held].
  cbn [fst] in Ht1, H1.
  destruct (match snapshot with Some _ => _ | None => _ end) as [m2|] eqn:Hs;
    [|done].
  injection Hrun as <-.
  assert (grows m1 m2) as H2.
  { destruct snapshot as [frameTree|].
    - eapply grows_trans; [apply stable_grows, stable_calm, calm_drain|].
      apply stable_grows.
      eapply (handleFrameTree_stable _ _ _ _ _ Hs).
      revert Ht1. apply tidy_calm, calm_drain.
    - injection Hs as <-. apply stable_grows, stable_calm, calm_drain. }
  eapply grows_trans; [exact H1|]. eapply grows_trans; [exact H2|].
  eapply grows_trans; [apply stable_grows, stable_calm, calm_drain|].
  unfold swapFrameTree_finish. destruct held as [fr|]; [|apply grows_refl].
  apply stable_grows, stable_calm, calm_emit_FrameSwappedByActivation.
Qed.

Lemma handle_grows stack task m m' :
  handle stack task m = Some m' -> tidy m -> grows m m'.
Proof.
  destruct (is_swap task) eqn:Hswap.
  - destruct task; try done. apply swapFrameTree_grows.
  - intros Hh Ht. by eapply stable_grows, handle_stable.
Qed.

Lemma bounded_new c t : bounded (new_FrameManager c t).
Proof. intros y [f Hy]. cbn in Hy. by rewrite lookup_empty in Hy. Qed.

Lemma reachable_bounded stack tasks : forall m m',
  forEach (handle stack) tasks m = Some m' ->
  tidy m /\ bounded m -> tidy m' /\ bounded m'.
Proof.
  eapply (forEach_preserves
            (fun m m' => tidy m /\ bounded m -> tidy m' /\ bounded m')
            _ (fun _ => True)); [done|auto| |by apply Forall_true].
  intros a s s' _ Hh [Ht Hb]. split; [by eapply handle_tidy|].
  eapply bounded_grows; [|done]. by eapply handle_grows.
Qed.

(** X19.  No event but a swap rewrites the identity of a Frame: whatever
    the manager has handled before, after any further sequence of tasks
    that contains no swap, every Frame object constructed so far still
    exists with the id and the parent id it had (a navigation of the main
    frame assigns the id the Frame already has). *)
Theorem ids_rewritten_only_by_swap
    (stack : nat) (c : CDPSession) (t : Z) (before later : list Task)
    (m m' : FrameManager) (fr : obj) (f : CdpFrame) :
  forEach (handle stack) before (new_FrameManager c t) = Some m ->
  Forall (fun task => is_swap task = false) later ->
  forEach (handle stack) later m = Some m' ->
  frameObjs m !! fr = Some f ->
  exists f', frameObjs m' !! fr = Some f' /\ _id f' = _id f /\
             _parentId f' = _parentId f.
Proof.
  intros Hbefore Hsafe Hlater Hf.
  destruct (reachable_bounded stack before _ _ Hbefore
              (conj (tidy_new c t) (bounded_new c t))) as [Ht Hb].
  assert (tidy m -> tidy m' /\ stable m m') as Hstep.
  { revert Hlater.
    eapply (forEach_preserves
              (fun m m' => tidy m -> tidy m' /\ stable m m') _
              (fun task => is_swap task = false)); [| | |done].
    - intros s Hs. split; [done|apply stable_refl].
    - intros s1 s2 s3 H12 H23 Hs1. destruct (H12 Hs1) as [Hs2 Ha].
      destruct (H23 Hs2) as [Hs3 Hb']. split; [done|].
      by eapply stable_trans.
    - intros task s s' Hs Hh Hts. split; [by eapply handle_tidy|].
      by eapply handle_stable. }
  destruct (Hstep Ht) as [_ (_ & Hid & _)].
  assert (fr < nextObj m) as Hlt by (apply Hb; by exists f).
  specialize (Hid fr Hlt). rewrite Hf in Hid.
  destruct (frameObjs m' !! fr) as [f'|]; [|done].
  exists f'. split; [done|]. unfold ident in Hid. cbn in Hid.
  split; congruence.
Qed.

Lemma ids_rewritten_only_by_swap_witness :
  let later :=
    [Page_frameNavigated (mkFramePayload "A" None "L2" "http://a2/")
       Navigation;
     Page_frameDetached "B" remove] in
  exists f', frameObjs (default rootA_childB
                          (forEach (handle stack) later rootA_childB)) !! 1
             = Some f' /\
             _id f' = _id frameB /\ _parentId f' = _parentId frameB.
Proof.
  intros later.
  apply (ids_rewritten_only_by_swap stack page 0
           [navigate "A" "L1" "http://a/"; Page_frameAttached page "B" "A"]
           later rootA_childB
           (default rootA_childB (forEach (handle stack) later rootA_childB))
           1 frameB); try (vm_compute; reflexivity).
  repeat constructor.
Defined.

(** ** Replaying a frame-tree snapshot *)

Lemma map_get_app_None {V} (l : list (string * V)) k k' v :
  map_get l k' = None -> k' <> k -> map_get (l ++ [(k, v)]) k' = None.
Proof.
  intros Hl Hne. induction l as [|[k0 v0] l IH]; simpl in *.
  - by rewrite (proj2 (String.eqb_neq k k')).
  - destruct (String.eqb k0 k'); [done|]. by apply IH.
Qed.

(** A Frame constructed and filed under an id the tree does not hold. *)
Lemma added_fields (f : CdpFrame) m :
  getById (_id f) (_frameTree m) = None ->
  let m' := tree_addFrame (nextObj m) (alloc_frame f m) in
  frames (_frameTree m') = frames (_frameTree m) ++ [(_id f, nextObj m)] /\
  frameObjs m' = <[nextObj m := f]> (frameObjs m) /\
  nextObj m' = S (nextObj m) /\
  emitted m' = emitted m /\
  frameNavigatedReceived m' = frameNavigatedReceived m /\
  client m' = client m /\
  microtasks m'
  = microtasks m
    ++ map (pair (nextObj m))
         (map snd (filter (fun w : string * Waiter => String.eqb w.1 (_id f))
                     (waitRequests (_frameTree m)))) /\
  waitRequests (_frameTree m')
  = filter (fun w : string * Waiter => negb (String.eqb w.1 (_id f)))
      (waitRequests (_frameTree m)).
Proof.
  intros Hnew m'. subst m'.
  assert (frameObjs (alloc_frame f m) !! nextObj m = Some f) as Hf
    by (cbn; apply lookup_insert_eq).
  rewrite (tree_addFrame_eq _ _ f Hf).
  cbn [frames _frameTree frameObjs nextObj emitted frameNavigatedReceived
       client microtasks waitRequests set_microtasks set_frameTree
       alloc_frame set_nextObj set_frameObjs addFrame fst snd].
  split; [by apply map_set_fresh|]. done.
Qed.

Lemma added_lookup (f : CdpFrame) m :
  getById (_id f) (_frameTree m) = None ->
  getById (_id f) (_frameTree (tree_addFrame (nextObj m) (alloc_frame f m)))
  = Some (nextObj m).
Proof.
  intros Hnew. unfold getById.
  rewrite (proj1 (added_fields f m Hnew)). rewrite <- map_set_fresh by done.
  apply map_get_set_eq.
Qed.

Lemma added_children (f : CdpFrame) m frameId :
  tidy m -> getById (_id f) (_frameTree m) = None ->
  tree_childFrames frameId (frameObjs m) (_frameTree m) = [] ->
  _parentId f <> Some frameId ->
  let m' := tree_addFrame (nextObj m) (alloc_frame f m) in
  tree_childFrames frameId (frameObjs m') (_frameTree m') = [].
Proof.
  intros (_ & Hfresh & _) Hnew Hnone Hp m'.
  destruct (added_fields f m Hnew) as (Hfr & Hh & _). fold m' in Hfr, Hh.
  unfold tree_childFrames in *. rewrite Hfr, Hh, omap_app.
  apply app_nil. split.
  - rewrite <- Hnone. apply list_omap_ext, Forall_Forall2_diag, Forall_forall.
    intros [k y] Hin. cbn [snd]. apply Hfresh in Hin.
    by rewrite lookup_insert_ne by lia.
  - cbn [omap list_omap snd]. rewrite lookup_insert_eq.
    unfold is_child_of. destruct (_parentId f) as [p|]; [|done].
    destruct (String.eqb p frameId) eqn:E; [|done].
    apply String.eqb_eq in E. congruence.
Qed.

Lemma attach_parent_truthy fp p :
  attach_parent fp = Some p ->
  payload_parentId fp = Some p /\ truthy (Some p) = true.
Proof.
  unfold attach_parent. destruct (truthy (payload_parentId fp)) eqn:E; [|done].
  intros H. by rewrite H in E.
Qed.

Lemma attach_parent_None fp :
  attach_parent fp = None -> truthy (payload_parentId fp) = false.
Proof.
  unfold attach_parent. destruct (truthy (payload_parentId fp)) eqn:E; [|done].
  intros H. by rewrite H in E.
Qed.

Lemma waitForFrame_found frameId w t (x : obj) :
  getById frameId t = Some x -> waitForFrame frameId w t = (Some x, t).
Proof. intros H. unfold waitForFrame. by rewrite H. Qed.

(** One node of the snapshot. *)
Lemma handleFrameTree_node stack session fp children m :
  tidy m -> fresh_node m fp -> attach_parent fp <> Some (payload_id fp) ->
  handleFrameTree stack session (FrameTreeNode fp children) m
  = forEach (handleFrameTree stack session) children
      (replay_node session m fp).
Proof.
  intros Ht (Hnew & Hkids & Hfnr) Hself.
  rewrite handleFrameTree_unfold. cbv zeta. unfold replay_node.
  destruct (attach_parent fp) as [p|] eqn:Hp.
  - destruct (attach_parent_truthy fp p Hp) as [Hpp Htr]. rewrite Hpp, Htr.
    unfold onFrameAttached, frame. rewrite Hnew.
    set (f := new_CdpFrame (payload_id fp) (Some p) session).
    set (ma := tree_addFrame (nextObj m) (alloc_frame f m)).
    set (m1 := emit _ ma).
    assert (getById (_id f) (_frameTree m) = None) as Hnew' by exact Hnew.
    destruct (added_fields f m Hnew') as (Hfr & Hh & Hn & He & Hr & Hc & _).
    pose proof (added_lookup f m Hnew') as Hx.
    assert (_parentId f <> Some (payload_id fp)) as Hpf by exact Hself.
    pose proof (added_children f m (payload_id fp) Ht Hnew' Hkids Hpf)
      as Hkids'.
    fold ma in Hfr, Hh, Hn, He, Hr, Hc, Hx, Hkids'.
    assert (frameNavigatedReceived m1 = frameNavigatedReceived m) as ->
      by exact Hr.
    rewrite bool_decide_eq_false_2 by done. cbn [negb].
    unfold onFrameNavigated.
    assert (getById (payload_id fp) (_frameTree m1) = Some (nextObj m)) as ->
      by exact Hx.
    assert (frame_childFrames (nextObj m) m1 = []) as ->.
    { unfold frame_childFrames.
      assert (frameObjs m1 !! nextObj m = Some f) as ->
        by (cbn [frameObjs m1 emit set_emitted]; rewrite Hh;
            apply lookup_insert_eq).
      exact Hkids'. }
    cbn [forEach]. rewrite Hpp, Htr. cbn [negb].
    by rewrite (waitForFrame_found _ _ _ (nextObj m)) by exact Hx.
  - pose proof (attach_parent_None fp Hp) as Htr.
    assert (match payload_parentId fp with
            | Some parentId =>
                if truthy (Some parentId)
                then onFrameAttached session (payload_id fp) parentId m
                else m
            | None => m
            end = m) as ->.
    { destruct (payload_parentId fp) as [q|]; [|done]. by rewrite Htr. }
    rewrite bool_decide_eq_false_2 by done. cbn [negb].
    unfold onFrameNavigated. rewrite Hnew, Htr. cbn [negb].
    set (f := new_CdpFrame (payload_id fp) None (client m)).
    assert (getById (_id f) (_frameTree m) = None) as Hnew' by exact Hnew.
    pose proof (added_lookup f m Hnew') as Hx.
    by rewrite (waitForFrame_found _ _ _ (nextObj m)) by exact Hx.
Qed.

Lemma replay_node_eq session m fp :
  replay_node session m fp
  = let ma := tree_addFrame (nextObj m)
                (alloc_frame (node_frame session (client m) fp) m) in
    let m2 := match attach_parent fp with
              | Some _ =>
                  emit (ManagerEmit FrameManagerEvent.FrameAttached (nextObj m))
                    ma
              | None => ma
              end in
    set_microtasks (microtasks m2 ++ [(nextObj m, (fp, Navigation))]) m2.
Proof. unfold replay_node, node_frame. by destruct (attach_parent fp). Qed.

Lemma node_frame_id session client fp :
  _id (node_frame session client fp) = payload_id fp.
Proof. unfold node_frame. by destruct (attach_parent fp). Qed.

Lemma node_frame_parent session client fp :
  _parentId (node_frame session client fp) = attach_parent fp.
Proof. unfold node_frame. by destruct (attach_parent fp). Qed.

(** The fields of the state after one node. *)
Lemma replay_node_fields session m fp :
  getById (payload_id fp) (_frameTree m) = None ->
  let m' := replay_node session m fp in
  frames (_frameTree m')
  = frames (_frameTree m) ++ [(payload_id fp, nextObj m)] /\
  frameObjs m'
  = <[nextObj m := node_frame session (client m) fp]> (frameObjs m) /\
  nextObj m' = S (nextObj m) /\
  frameNavigatedReceived m' = frameNavigatedReceived m /\
  client m' = client m /\
  mainFrame (_frameTree m')
  = mainFrame (_frameTree
                 (tree_addFrame (nextObj m)
                    (alloc_frame (node_frame session (client m) fp) m))) /\
  emitted m'
  = emitted m
    ++ match attach_parent fp with
       | Some _ => [ManagerEmit FrameManagerEvent.FrameAttached (nextObj m)]
       | None => []
       end /\
  (waitRequests (_frameTree m) = [] ->
   waitRequests (_frameTree m') = [] /\
   microtasks m' = microtasks m ++ [(nextObj m, (fp, Navigation))]).
Proof.
  intros Hnew m'. subst m'. rewrite replay_node_eq. cbv zeta.
  set (f := node_frame session (client m) fp).
  assert (getById (_id f) (_frameTree m) = None) as Hnew'
    by (subst f; by rewrite node_frame_id).
  destruct (added_fields f m Hnew')
    as (Hfr & Hh & Hn & He & Hr & Hc & Hq & Hw).
  set (ma := tree_addFrame (nextObj m) (alloc_frame f m)) in *.
  assert (_id f = payload_id fp) as Hid by apply node_frame_id.
  rewrite Hid in Hfr.
  destruct (attach_parent fp);
    cbn [frames _frameTree frameObjs nextObj emitted frameNavigatedReceived
         client microtasks waitRequests set_microtasks emit set_emitted
         mainFrame];
    (split; [done|]); (split; [done|]); (split; [done|]); (split; [done|]);
    (split; [done|]); (split; [done|]);
    (split; [by rewrite He, ?app_nil_r|]);
    intros Hnone; rewrite Hw, Hq, Hnone; cbn [filter map app];
    by rewrite app_nil_r.
Qed.

Lemma tidy_replay_node session m fp : tidy m -> tidy (replay_node session m fp).
Proof.
  intros Ht. rewrite replay_node_eq. cbv zeta.
  eapply tidy_calm; [by apply calm_same|].
  assert (tidy (tree_addFrame (nextObj m)
                  (alloc_frame (node_frame session (client m) fp) m))) as Ha
    by (apply tidy_tree_addFrame; [by apply tidy_alloc_frame | simpl; lia]).
  destruct (attach_parent fp); [|done].
  revert Ha. apply tidy_calm, calm_emit.
Qed.

Lemma fresh_node_replay session m fp fp' :
  tidy m -> getById (payload_id fp) (_frameTree m) = None ->
  fresh_node m fp' -> payload_id fp' <> payload_id fp ->
  attach_parent fp <> Some (payload_id fp') ->
  fresh_node (replay_node session m fp) fp'.
Proof.
  intros Ht Hnew (Hnew' & Hkids & Hfnr) Hne Hp.
  destruct (replay_node_fields session m fp Hnew)
    as (Hfr & Hh & _ & Hr & _).
  split; [|split].
  - unfold getById in *. rewrite Hfr. by apply map_get_app_None.
  - set (f := node_frame session (client m) fp).
    assert (getById (_id f) (_frameTree m) = None) as Hnewf
      by (subst f; by rewrite node_frame_id).
    assert (_parentId f <> Some (payload_id fp')) as Hpf
      by (subst f; by rewrite node_frame_parent).
    pose proof (added_children f m (payload_id fp') Ht Hnewf Hkids Hpf)
      as Hk. cbv zeta in Hk.
    destruct (added_fields f m Hnewf) as (Hfr' & Hh' & _).
    unfold tree_childFrames in *. rewrite Hfr, Hh.
    rewrite Hfr', Hh' in Hk. unfold f in Hk. rewrite node_frame_id in Hk.
    exact Hk.
  - by rewrite Hr.
Qed.

Lemma parents_first_cons fp rest :
  parents_first (fp :: rest) = true ->
  attach_parent fp <> Some (payload_id fp) /\
  (forall fp', fp' ∈ rest -> attach_parent fp <> Some (payload_id fp')) /\
  parents_first rest = true.
Proof.
  cbn [parents_first forallb].
  intros [[Hself Hrest]%andb_prop Htail]%andb_prop.
  split; [|split; [|done]].
  - apply negb_true_iff in Hself. by apply bool_decide_eq_false in Hself.
  - intros fp' Hin. rewrite forallb_forall in Hrest.
    apply list_elem_of_In in Hin. apply Hrest in Hin.
    apply negb_true_iff in Hin. by apply bool_decide_eq_false in Hin.
Qed.

Lemma replayable_step session m fp rest :
  replayable m (fp :: rest) ->
  fresh_node m fp /\ attach_parent fp <> Some (payload_id fp) /\
  replayable (replay_node session m fp) rest.
Proof.
  intros (Ht & Hall & Hnd & Hpf).
  apply Forall_cons in Hall as [Hfp Hall].
  cbn [map] in Hnd. apply NoDup_cons in Hnd as [Hhead Hnd].
  apply parents_first_cons in Hpf as (Hself & Hlater & Hpf).
  split; [done|]. split; [done|].
  split; [by apply tidy_replay_node|]. split; [|done].
  rewrite Forall_forall in Hall. apply Forall_forall. intros fp' Hin.
  apply fresh_node_replay; [done|apply Hfp|by apply Hall| |by apply Hlater].
  intros Heq. apply Hhead. rewrite <- Heq.
  apply list_elem_of_fmap. by exists fp'.
Qed.

Lemma parents_first_app_l l1 l2 :
  parents_first (l1 ++ l2) = true -> parents_first l1 = true.
Proof.
  induction l1 as [|fp l1 IH]; [done|].
  cbn [app parents_first forallb].
  intros [[Hself Hrest]%andb_prop Htail]%andb_prop.
  rewrite forallb_app in Hrest. apply andb_prop in Hrest as [Hrest _].
  by rewrite Hself, Hrest, IH.
Qed.

Lemma replayable_app session l1 : forall m l2,
  replayable m (l1 ++ l2) ->
  replayable m l1 /\ replayable (foldl (replay_node session) m l1) l2.
Proof.
  induction l1 as [|fp l1 IH]; intros m l2 Hr.
  - split; [|done]. destruct Hr as (Ht & _).
    split; [done|]. split; [constructor|]. split; [constructor|done].
  - cbn [app] in Hr.
    destruct (replayable_step session m fp (l1 ++ l2) Hr)
      as (Hfp & Hself & Hnext).
    destruct (IH _ _ Hnext) as [H1 H2]. split; [|done].
    destruct Hr as (Ht & Hall & Hnd & Hpf).
    split; [done|]. split.
    + apply Forall_cons in Hall as [? Hall]. constructor; [done|].
      by apply Forall_app in Hall as [? _].
    + split.
      * cbn [map] in *. rewrite map_app in Hnd.
        apply NoDup_cons in Hnd as [Hhead Hnd].
        apply NoDup_app in Hnd as (Hnd1 & _ & _).
        apply NoDup_cons. split; [|done].
        intros Hin. apply Hhead. apply elem_of_app. by left.
      * by apply (parents_first_app_l (fp :: l1) l2).
Qed.

(** The whole snapshot, node after node in pre-order, whatever room the
    stack has: no frame is removed on the way. *)
Lemma handleFrameTree_replay stack session frameTree : forall m,
  replayable m (payloads frameTree) ->
  handleFrameTree stack session frameTree m
  = Some (foldl (replay_node session) m (payloads frameTree)).
Proof.
  induction frameTree as [fp children IH] using FrameTreePayload_rect'.
  intros m Hr. cbn [payloads] in *.
  destruct (replayable_step session m fp _ Hr) as (Hfp & Hself & Hnext).
  rewrite handleFrameTree_node by (done || apply Hr).
  cbn [foldl]. revert Hnext. generalize (replay_node session m fp).
  clear Hr Hfp Hself m.
  induction IH as [|c cs Hc Hcs IHcs]; intros m Hr; [done|].
  cbn [flat_map forEach] in *.
  destruct (replayable_app session _ _ _ Hr) as [H1 H2].
  rewrite (Hc m H1). rewrite foldl_app. by apply IHcs.
Qed.

Lemma replay_fields session nodes : forall m,
  replayable m nodes -> waitRequests (_frameTree m) = [] ->
  let m' := foldl (replay_node session) m nodes in
  frames (_frameTree m') = frames (_frameTree m) ++ placed (nextObj m) nodes /\
  microtasks m' = microtasks m ++ queued (nextObj m) nodes /\
  emitted m'
  = emitted m
    ++ map (ManagerEmit FrameManagerEvent.FrameAttached)
         (attached_positions (nextObj m) nodes) /\
  (forall y : obj, y < nextObj m -> frameObjs m' !! y = frameObjs m !! y) /\
  (forall (i : nat) fp, nodes !! i = Some fp ->
     frameObjs m' !! (nextObj m + i)
     = Some (node_frame session (client m) fp)).
Proof.
  induction nodes as [|fp rest IH]; intros m Hr Hw; cbn [foldl].
  - cbn [placed queued attached_positions map]. rewrite !app_nil_r.
    split; [done|]. split; [done|]. split; [done|]. split; [done|].
    intros i fp Hi. by rewrite lookup_nil in Hi.
  - destruct (replayable_step session m fp rest Hr) as (Hfp & _ & Hnext).
    destruct (replay_node_fields session m fp (proj1 Hfp))
      as (Hfr & Hh & Hn & _ & Hc & _ & He & Hwq).
    destruct (Hwq Hw) as [Hw1 Hq].
    destruct (IH _ Hnext Hw1) as (IHfr & IHq & IHe & IHlow & IHnew).
    rewrite Hn in IHfr, IHq, IHe, IHlow, IHnew.
    split; [|split; [|split; [|split]]].
    + rewrite IHfr, Hfr, <- app_assoc. done.
    + rewrite IHq, Hq, <- app_assoc. done.
    + rewrite IHe, He, <- app_assoc. f_equal.
      cbn [attached_positions]. by destruct (attach_parent fp).
    + intros y Hy. rewrite IHlow by lia. rewrite Hh.
      by rewrite lookup_insert_ne by lia.
    + intros [|i] fp' Hi; cbn in Hi.
      * injection Hi as <-. rewrite Nat.add_0_r, IHlow by lia.
        rewrite Hh. apply lookup_insert_eq.
      * replace (nextObj m + S i) with (S (nextObj m) + i) by lia.
        rewrite (IHnew i fp' Hi). by rewrite Hc.
Qed.

Lemma continuations_queued (F : FramePayload -> CdpFrame) nodes :
  forall (base : nat) s,
    (forall (i : nat) fp, nodes !! i = Some fp ->
       frameObjs s !! (base + i) = Some (F fp)) ->
    let s' := foldl (fun m task => navigated_continuation task m) s
                (queued base nodes) in
    (forall (i : nat) fp, nodes !! i = Some fp ->
       frameObjs s' !! (base + i) = Some (_navigated fp (F fp))) /\
    (forall y : obj, y < base -> frameObjs s' !! y = frameObjs s !! y) /\
    emitted s'
    = emitted s ++ flat_map navigated_notifications (seq base (length nodes)) /\
    _frameTree s' = _frameTree s.
Proof.
  induction nodes as [|fp rest IH]; intros base s Hs; cbn [queued foldl].
  - cbn [length seq flat_map]. rewrite app_nil_r.
    split; [|done]. intros i fp Hi. by rewrite lookup_nil in Hi.
  - set (s1 := navigated_continuation (base, (fp, Navigation)) s).
    assert (frameObjs s1 = alter (_navigated fp) base (frameObjs s)) as Hh
      by done.
    assert (emitted s1 = emitted s ++ navigated_notifications base) as He
      by (cbn; by rewrite <- app_assoc).
    assert (_frameTree s1 = _frameTree s) as Ht by done.
    destruct (IH (S base) s1) as (IHnew & IHlow & IHe & IHt).
    { intros i fp' Hi. rewrite Hh, lookup_alter_ne by lia.
      replace (S base + i) with (base + S i) by lia. by apply Hs. }
    split; [|split; [|split]].
    + intros [|i] fp' Hi; cbn in Hi.
      * injection Hi as <-. rewrite Nat.add_0_r, IHlow by lia.
        rewrite Hh, lookup_alter_eq. specialize (Hs 0 fp eq_refl).
        rewrite Nat.add_0_r in Hs.
        exact (f_equal (fmap (_navigated fp)) Hs).
      * replace (base + S i) with (S base + i) by lia. by apply IHnew.
    + intros y Hy. rewrite IHlow by lia.
      by rewrite Hh, lookup_alter_ne by lia.
    + rewrite IHe, He, <- app_assoc. done.
    + by rewrite IHt.
Qed.

Lemma replayable_new c t nodes :
  NoDup (map payload_id nodes) -> parents_first nodes = true ->
  replayable (new_FrameManager c t) nodes.
Proof.
  intros Hnd Hpf. split; [apply tidy_new|]. split; [|done].
  apply Forall_forall. intros fp _. split; [done|]. split; [done|].
  cbn. set_solver.
Qed.

(** X20.  On a newly constructed manager, the response to
    [Page.getFrameTree] is replayed node by node in pre-order, whatever
    room the stack has, provided the frame ids of the snapshot are pairwise
    different and no node names as its parent itself or a node that comes
    later (as when every child names its parent node): the tree ends up
    with one Frame per node, filed under the node's id in pre-order; a node
    with a parent id is bound to the responding session and a node without
    one to the manager's session; [FrameAttached] is announced for the
    nodes with a parent id, in pre-order; and only after all of them are
    the navigations applied and announced, again in pre-order. *)
Theorem snapshot_replayed_in_preorder
    (stack : nat) (session c : CDPSession) (t : Z)
    (frameTree : FrameTreePayload) :
  NoDup (map payload_id (payloads frameTree)) ->
  parents_first (payloads frameTree) = true ->
  exists m',
    handle stack (Page_getFrameTree_response session frameTree)
      (new_FrameManager c t) = Some m' /\
    frames (_frameTree m') = placed 0 (payloads frameTree) /\
    (forall (i : nat) fp, payloads frameTree !! i = Some fp ->
       frameObjs m' !! i = Some (replayed_frame session c fp)) /\
    emitted m'
    = map (ManagerEmit FrameManagerEvent.FrameAttached)
        (attached_positions 0 (payloads frameTree))
      ++ flat_map navigated_notifications
           (seq 0 (length (payloads frameTree))).
Proof.
  intros Hnd Hpf.
  pose proof (replayable_new c t _ Hnd Hpf) as Hr.
  set (m0 := new_FrameManager c t) in *.
  set (m1 := foldl (replay_node session) m0 (payloads frameTree)).
  destruct (replay_fields session (payloads frameTree) m0 Hr eq_refl)
    as (Hfr & Hq & He & _ & Hnew).
  fold m1 in Hfr, Hq, He, Hnew.
  change (nextObj m0) with 0 in Hfr, Hq, He, Hnew.
  change (frames (_frameTree m0)) with (@nil (string * obj)) in Hfr.
  change (microtasks m0) with (@nil (obj * Waiter)) in Hq.
  change (emitted m0) with (@nil Notification) in He.
  change (client m0) with c in Hnew.
  cbn [app] in Hfr, Hq, He.
  exists (drain m1). split.
  - cbn [handle]. by rewrite (handleFrameTree_replay _ _ _ _ Hr).
  - unfold drain. rewrite Hq.
    destruct (continuations_queued (node_frame session c) (payloads frameTree)
                0 (set_microtasks [] m1)) as (Hnav & _ & Hlog & Htree).
    { intros i fp Hi. by apply Hnew. }
    split; [by rewrite Htree|]. split; [|by rewrite Hlog, <- He].
    intros i fp Hi. by apply Hnav.
Qed.

Lemma snapshot_replayed_in_preorder_witness :
  let frameTree :=
    FrameTreeNode (mkFramePayload "A" None "L1" "http://a/")
      [FrameTreeNode (mkFramePayload "B" (Some "A") "L2" "http://b/")
         [FrameTreeNode (mkFramePayload "C" (Some "B") "L3" "http://c/") []];
       FrameTreeNode (mkFramePayload "D" (Some "A") "L4" "http://d/") []] in
  exists m',
    handle 0 (Page_getFrameTree_response oopif frameTree)
      (new_FrameManager page 0) = Some m' /\
    frames (_frameTree m') = placed 0 (payloads frameTree) /\
    (forall (i : nat) fp, payloads frameTree !! i = Some fp ->
       frameObjs m' !! i = Some (replayed_frame oopif page fp)) /\
    emitted m'
    = map (ManagerEmit FrameManagerEvent.FrameAttached)
        (attached_positions 0 (payloads frameTree))
      ++ flat_map navigated_notifications
           (seq 0 (length (payloads frameTree))).
Proof.
  intros frameTree.
  apply (snapshot_replayed_in_preorder 0 oopif page 0 frameTree).
  - apply (bool_decide_unpack _). vm_compute. exact I.
  - vm_compute. reflexivity.
Defined.
Lemma createIsolatedWorld_worlds session name rejection worlds m k :
  k ∈ (createIsolatedWorld session name rejection worlds m).2
  <-> k ∈ worlds \/ (rejection = None /\ world_key session name = k).
Proof.
  unfold createIsolatedWorld.
  destruct (bool_decide (world_key session name ∈ worlds)) eqn:Hin.
  - apply bool_decide_eq_true in Hin. simpl. split; [by left|].
    intros [H|[_ <-]]; done.
  - destruct rejection as [error|]; simpl.
    + split; [by left|]. by intros [H|[? _]].
    + rewrite elem_of_union, elem_of_singleton. split.
      * intros [->|H]; [by right|by left].
      * intros [H|[_ <-]]; [by right|by left].
Qed.

Lemma isolatedWorlds_after_elem calls : forall worlds k,
  k ∈ isolatedWorlds_after calls worlds
  <-> k ∈ worlds
      \/ exists session name m,
           (session, name, None, m) ∈ calls /\ world_key session name = k.
Proof.
  unfold isolatedWorlds_after.
  induction calls as [|[[[s n] r] m0] calls IH]; intros worlds k.
  - simpl. split; [by left|]. intros [H|(s & n & m & H & _)]; [done|].
    by apply elem_of_nil in H.
  - cbn [foldl]. rewrite IH, createIsolatedWorld_worlds. split.
    + intros [[H|[-> <-]]|(s' & n' & m' & H & Hk)].
      * by left.
      * right. exists s, n, m0. split; [by left|done].
      * right. exists s', n', m'. split; [by right|done].
    + intros [H|(s' & n' & m' & H & Hk)].
      * by left; left.
      * apply elem_of_cons in H as [H|H].
        -- injection H as -> -> <- ->. left; right. done.
        -- right. by exists s', n', m'.
Qed.

(** X21.  Calls of [#createIsolatedWorld] that run one after the other, with
    world names without a colon: a call sends no command at all exactly when
    an earlier call for the same session id and the same name had its
    [Page.addScriptToEvaluateOnNewDocument] answered.  So a world is
    installed once per session and name, a call whose first command was
    rejected is made up for by the next one, and calls for other sessions or
    other names do not stand in for it. *)
Theorem createIsolatedWorld_sends_until_installed
    (calls : list (CDPSession * string * option string * FrameManager))
    (session : CDPSession) (name : string) (rejection : option string)
    (m : FrameManager) :
  colonless name = true ->
  Forall (fun call => colonless call.1.1.2 = true) calls ->
  (createIsolatedWorld session name rejection
     (isolatedWorlds_after calls ∅) m).1.1 = []
  <-> Exists (installed session name) calls.
Proof.
  intros Hname Hcalls.
  assert (world_key session name ∈ isolatedWorlds_after calls ∅
          <-> Exists (installed session name) calls) as Hkey.
  { rewrite isolatedWorlds_after_elem, Exists_exists. split.
    - intros [H|(s & n & m' & Hin & Hk)]; [by apply elem_of_empty in H|].
      exists (s, n, None, m'). split; [done|].
      rewrite Forall_forall in Hcalls. specialize (Hcalls _ Hin).
      simpl in Hcalls. unfold world_key in Hk.
      apply split_at_last_colon in Hk as [Hs Hn]; done.
    - intros ([[[s n] r] m'] & Hin & Hs & -> & ->). right.
      exists s, name, m'. split; [done|]. unfold world_key. by rewrite Hs. }
  rewrite <- Hkey. unfold createIsolatedWorld.
  destruct (bool_decide (world_key session name ∈ isolatedWorlds_after calls ∅))
    eqn:Hin.
  - apply bool_decide_eq_true in Hin. done.
  - apply bool_decide_eq_false in Hin.
    destruct rejection; simpl; split; done.
Qed.

Lemma createIsolatedWorld_sends_until_installed_witness :
  (createIsolatedWorld (mkSession "B" "t") "w" None
     (isolatedWorlds_after
        [(mkSession "B" "t", "w", Some "closed", new_FrameManager (mkSession "A" "t") 0);
         (mkSession "A" "t", "w", None, new_FrameManager (mkSession "A" "t") 0);
         (mkSession "B" "t", "v", None, new_FrameManager (mkSession "A" "t") 0)]
        ∅)
     (new_FrameManager (mkSession "A" "t") 0)).1.1 = []
  <-> Exists (installed (mkSession "B" "t") "w")
        [(mkSession "B" "t", "w", Some "closed", new_FrameManager (mkSession "A" "t") 0);
         (mkSession "A" "t", "w", None, new_FrameManager (mkSession "A" "t") 0);
         (mkSession "B" "t", "v", None, new_FrameManager (mkSession "A" "t") 0)].
Proof.
  apply createIsolatedWorld_sends_until_installed.
  - vm_compute. reflexivity.
  - repeat constructor.
Defined.


End FrameManagerSpec.

(* ===================================================================== *)
(** * Properties of the page *)
(* ===================================================================== *)

Module CdpPageSpec.
Import CdpPage.

(** ** Metrics *)

Lemma foldl_metrics_lookup {V} (l : list (Metric V)) (name : string) :
  forall acc : gmap string V,
    foldl (fun result metric =>
             if bool_decide (metric_name metric ∈ supportedMetrics)
             then <[metric_name metric := metric_value metric]> result
             else result) acc l !! name
    = match last (filter (fun m => metric_name m = name) l) with
      | Some m =>
          if bool_decide (name ∈ supportedMetrics)
          then Some (metric_value m) else acc !! name
      | None => acc !! name
      end.
Proof.
  induction l as [|m l IH]; intros acc; [done|].
  cbn [foldl]. rewrite IH. clear IH.
  destruct (decide (metric_name m = name)) as [Hm|Hm].
  - rewrite filter_cons_True by done.
    assert ((if bool_decide (metric_name m ∈ supportedMetrics)
             then <[metric_name m := metric_value m]> acc else acc) !! name
            = if bool_decide (name ∈ supportedMetrics)
              then Some (metric_value m) else acc !! name) as Hacc.
    { subst name. case_bool_decide; [|done]. by rewrite lookup_insert_eq. }
    rewrite Hacc.
    destruct (filter _ l) as [|m' l'] eqn:E; [done|].
    change (last (m :: m' :: l')) with (last (m' :: l')).
    destruct (last (m' :: l')) eqn:El; [|by apply last_None in El].
    destruct (bool_decide (name ∈ supportedMetrics)); reflexivity.
  - rewrite filter_cons_False by done.
    assert ((if bool_decide (metric_name m ∈ supportedMetrics)
             then <[metric_name m := metric_value m]> acc else acc) !! name
            = acc !! name) as ->; [|done].
    case_bool_decide; [|done]. by rewrite lookup_insert_ne.
Qed.

(** X3.  The metrics object holds, for each supported metric name, the value
    of the last metric reported under that name, and nothing under any other
    name; without a metrics list it is empty. *)
Theorem buildMetricsObject_lookup
    {V : Type} (metrics : option (list (Metric V))) (name : string) :
  buildMetricsObject metrics !! name
  = if bool_decide (name ∈ supportedMetrics)
    then last_reported name (default [] metrics)
    else None.
Proof.
  unfold buildMetricsObject, last_reported. rewrite foldl_metrics_lookup.
  rewrite lookup_empty.
  destruct (last _); case_bool_decide; done.
Qed.

(** ** The screenshot format *)

Lemma lastIndexOf_from_app s1 s2 c : forall i found,
  lastIndexOf_from i (s1 +:+ s2) c found
  = lastIndexOf_from (i + Z.of_nat (String.length s1)) s2 c
      (lastIndexOf_from i s1 c found).
Proof.
  induction s1 as [|a s1 IH]; intros i found; simpl.
  - by rewrite Z.add_0_r.
  - rewrite IH. f_equal. lia.
Qed.

Lemma lastIndexOf_from_dotless s : forall i found,
  dotless s = true -> lastIndexOf_from i s "."%char found = found.
Proof.
  induction s as [|a s IH]; intros i found; simpl; [done|].
  intros [Ha Hs]%andb_true_iff. apply negb_true_iff in Ha. rewrite Ha.
  by apply IH.
Qed.

Lemma slice_nat_app s1 s2 : slice_nat (String.length s1) (s1 +:+ s2) = s2.
Proof. induction s1 as [|a s1 IH]; simpl; [by destruct s2 | done]. Qed.

Lemma lastIndexOf_last_dot stem ext :
  dotless ext = true ->
  lastIndexOf (stem +:+ "." +:+ ext) "."%char = Z.of_nat (String.length stem).
Proof.
  intros Hext. unfold lastIndexOf. rewrite lastIndexOf_from_app.
  simpl. by rewrite lastIndexOf_from_dotless.
Qed.

Lemma string_app_assoc (s1 s2 s3 : string) :
  (s1 +:+ s2) +:+ s3 = s1 +:+ s2 +:+ s3.
Proof.
  induction s1 as [|a s1 IH]; [done|].
  change (String a ((s1 +:+ s2) +:+ s3) = String a (s1 +:+ s2 +:+ s3)).
  by rewrite IH.
Qed.

Lemma string_length_app (s1 s2 : string) :
  String.length (s1 +:+ s2) = String.length s1 + String.length s2.
Proof.
  induction s1 as [|a s1 IH]; [done|].
  change (S (String.length (s1 +:+ s2))
          = S (String.length s1 + String.length s2)).
  by rewrite IH.
Qed.

Lemma slice_after_last_dot stem ext :
  dotless ext = true ->
  slice (stem +:+ "." +:+ ext)
    (lastIndexOf (stem +:+ "." +:+ ext) "."%char + 1) = ext.
Proof.
  intros Hext. rewrite lastIndexOf_last_dot by done. unfold slice.
  replace (Z.to_nat (Z.of_nat (String.length stem) + 1))
    with (String.length (stem +:+ "."))
    by (rewrite string_length_app; simpl; lia).
  rewrite <- string_app_assoc. apply slice_nat_app.
Qed.

Lemma truthy_dotted stem ext : Cdp.truthy (Some (stem +:+ "." +:+ ext)) = true.
Proof. by destruct stem. Qed.

(** X4.  With no [type] option, the format of a screenshot is decided by the
    text after the last dot of the path, compared without regard to letter
    case; a path that has no dot at all is taken as its own extension; and a
    [type] option takes precedence over whatever the path says. *)
Theorem screenshotType_by_extension (stem ext : string) :
  dotless ext = true ->
  screenshotType (mkScreenshotOptions None (Some (stem +:+ "." +:+ ext)))
  = switch_extension (toLowerCase ext) /\
  (ext <> "" ->
   screenshotType (mkScreenshotOptions None (Some ext))
   = switch_extension (toLowerCase ext)) /\
  (forall type, type <> "" ->
     screenshotType
       (mkScreenshotOptions (Some type) (Some (stem +:+ "." +:+ ext)))
     = inl type).
Proof.
  intros Hext. split; [|split].
  - unfold screenshotType. cbn [option_type option_path default]. unfold id.
    change (Cdp.truthy None) with false. cbv iota.
    rewrite truthy_dotted. cbv zeta. by rewrite slice_after_last_dot.
  - intros Hne. unfold screenshotType.
    cbn [option_type option_path default]. unfold id.
    change (Cdp.truthy None) with false. cbv iota.
    destruct ext as [|a ext]; [done|].
    change (Cdp.truthy (Some (String a ext))) with true. cbv iota zeta.
    unfold lastIndexOf. by rewrite lastIndexOf_from_dotless.
  - intros type Hne. unfold screenshotType.
    cbn [option_type option_path default]. unfold id.
    destruct type as [|a type]; [done|].
    by change (Cdp.truthy (Some (String a type))) with true.
Qed.

Lemma screenshotType_by_extension_witness :
  screenshotType (mkScreenshotOptions None (Some "out/shot.v2.JPG"))
  = inl "jpeg" /\
  (("JPG" : string) <> "" ->
   screenshotType (mkScreenshotOptions None (Some "JPG")) = inl "jpeg") /\
  (forall type, type <> "" ->
     screenshotType (mkScreenshotOptions (Some type) (Some "out/shot.v2.JPG"))
     = inl type).
Proof.
  apply (screenshotType_by_extension "out/shot.v2" "JPG"). reflexivity.
Defined.

(** ** Exposed functions *)

Lemma expose_call_half_exposed name c st :
  half_exposed name st ->
  half_exposed name (expose_call c st).2 /\
  (call_name c = name -> (expose_call c st).1 = Some (refusal c)).
Proof.
  intros [Hb He]. destruct c as [n fn replies|n replies]; simpl.
  - unfold exposeFunction. case_bool_decide as Hn; simpl.
    + split; [done|]. done.
    + assert (n <> name) as Hne by (intros ->; done).
      split; [|done].
      destruct (addBinding replies); simpl.
      * split; simpl; [by rewrite lookup_insert_ne | done].
      * destruct (addScript replies); simpl;
          (split; simpl; [by rewrite lookup_insert_ne|]);
          [by rewrite lookup_insert_ne | done].
  - unfold removeExposedFunction.
    destruct (exposedFunctions st !! n) as [exposedFun|] eqn:En; simpl.
    + assert (n <> name) as Hne by (intros ->; congruence).
      split; [|done].
      destruct (negb _); simpl; [done|].
      destruct (removeBinding replies); simpl; [done|].
      destruct (removeScript replies); simpl; [done|].
      split; simpl; by rewrite lookup_delete_ne.
    + split; [done|]. done.
Qed.

Lemma expose_calls_half_exposed name cs : forall st,
  half_exposed name st ->
  Forall2 (fun c outcome => call_name c = name -> outcome = Some (refusal c))
    cs (expose_calls cs st).
Proof.
  induction cs as [|c cs IH]; intros st Hst; simpl; [constructor|].
  destruct (expose_call_half_exposed name c st Hst) as [Hnext Hout].
  destruct (expose_call c st) as [outcome st']. simpl in *.
  constructor; [done | by apply IH].
Qed.

(** X5.  When [exposeFunction] is called for a name that is neither bound
    nor exposed and one of its commands is rejected by the browser, the name
    is left bound but not exposed, and it stays unusable: whatever is called
    afterwards, every later [exposeFunction] of that name rejects with
    'already exists' and every [removeExposedFunction] of it rejects with
    'does not exists'. *)
Theorem exposeFunction_rejected_name_unusable
    (name : string) (pptrFunction : PptrFunction) (replies : ExposeReplies)
    (st : Exposed) (error : string) (later : list ExposeCall) :
  bindings st !! name = None ->
  exposedFunctions st !! name = None ->
  (exposeFunction name pptrFunction replies st).1 = Some error ->
  let st' := (exposeFunction name pptrFunction replies st).2 in
  is_Some (bindings st' !! name) /\
  exposedFunctions st' !! name = None /\
  Forall2 (fun c outcome => call_name c = name -> outcome = Some (refusal c))
    later (expose_calls later st').
Proof.
  intros Hb He Herr st'.
  assert (half_exposed name st') as Hhalf.
  { subst st'. revert Herr. unfold exposeFunction.
    rewrite bool_decide_eq_false_2 by (rewrite Hb; by intros [? ?]).
    destruct (addBinding replies); simpl.
    - intros _. split; simpl; [by rewrite lookup_insert_eq | done].
    - destruct (addScript replies); simpl; [done|].
      intros _. split; simpl; [by rewrite lookup_insert_eq | done]. }
  destruct Hhalf as [? ?]. split; [done|]. split; [done|].
  by apply expose_calls_half_exposed.
Qed.

Lemma exposeFunction_rejected_name_unusable_witness :
  let replies := mkExposeReplies (Some "Target closed") (inl "1") in
  let st' := (exposeFunction "f" (PlainFunction 0) replies
                (mkExposed ∅ ∅)).2 in
  let later :=
    [Remove "f" (mkRemoveReplies None None);
     Expose "g" (PlainFunction 1) (mkExposeReplies None (inl "2"));
     Expose "f" (PlainFunction 0) (mkExposeReplies None (inl "3"))] in
  is_Some (bindings st' !! "f") /\
  exposedFunctions st' !! "f" = None /\
  Forall2 (fun c outcome => call_name c = "f" -> outcome = Some (refusal c))
    later (expose_calls later st').
Proof.
  intros replies st' later.
  apply (exposeFunction_rejected_name_unusable "f" (PlainFunction 0) replies
           (mkExposed ∅ ∅) "Target closed" later); reflexivity.
Defined.

(** X6.  Exposing a function under a fresh name and removing it again, with
    every command accepted, restores [#bindings] and [#exposedFunctions]
    exactly; in between the name is both bound and exposed. *)
Theorem exposeFunction_then_remove
    (name identifier : string) (pptrFunction : PptrFunction) (st : Exposed) :
  bindings st !! name = None ->
  exposedFunctions st !! name = None ->
  identifier <> "" ->
  let '(outcome1, st1) :=
    exposeFunction name pptrFunction (mkExposeReplies None (inl identifier))
      st in
  let '(outcome2, st2) :=
    removeExposedFunction name (mkRemoveReplies None None) st1 in
  outcome1 = None /\ outcome2 = None /\
  is_Some (bindings st1 !! name) /\
  exposedFunctions st1 !! name = Some identifier /\
  st2 = st.
Proof.
  intros Hb He Hid. unfold exposeFunction.
  rewrite bool_decide_eq_false_2 by (rewrite Hb; by intros [? ?]).
  simpl. unfold removeExposedFunction. simpl. rewrite lookup_insert_eq.
  destruct identifier as [|a identifier]; [done|]. simpl.
  split; [done|]. split; [done|]. rewrite lookup_insert_eq.
  split; [done|]. split; [done|].
  rewrite !delete_insert_id by done. by destruct st.
Qed.

Lemma exposeFunction_then_remove_witness :
  let '(outcome1, st1) :=
    exposeFunction "f" (WithDefault 4) (mkExposeReplies None (inl "1"))
      (mkExposed ∅ ∅) in
  let '(outcome2, st2) :=
    removeExposedFunction "f" (mkRemoveReplies None None) st1 in
  outcome1 = None /\ outcome2 = None /\
  is_Some (bindings st1 !! "f") /\
  exposedFunctions st1 !! "f" = Some "1" /\
  st2 = mkExposed ∅ ∅.
Proof.
  apply (exposeFunction_then_remove "f" "1" (WithDefault 4) (mkExposed ∅ ∅));
    [reflexivity | reflexivity | discriminate].
Defined.

End CdpPageSpec.
